(** * fleet-plan: the repository loader and the diff engine

    A shallow embedding of [internal/parser/parser.go] and
    [internal/diff/differ.go].  Go strings are byte sequences: they are
    modelled as [string] (a list of 8-bit [ascii]); the byte-level string
    functions of the Go library that the code calls are written out over
    [list ascii].  Go maps are [gmap]s, slices are lists, a nil slice whose
    nil-ness the code tests is an [option]. *)

From Stdlib Require Import String Ascii List Arith NArith Lia Bool.
From Stdlib Require Import DecimalString.
From stdpp Require Import base option list gmap strings sorting.

Local Open Scope string_scope.
Local Open Scope list_scope.
Local Open Scope stdpp_scope.

(** ** Byte-level strings *)

Abbreviation bytes := (list ascii).
Abbreviation s2l := list_ascii_of_string.
Abbreviation l2s := string_of_list_ascii.

Module Text.

  (** The class [\s] of Go's regexp package: tab, newline, form feed,
      carriage return and space (no vertical tab). *)
Definition reSpace (c : ascii) : bool :=
    match c with
    | "009" | "010" | "012" | "013" | " " => true
    | _ => false
    end%char.

  (** [strings.asciiSpace]. *)
Definition asciiSpace (c : ascii) : bool :=
    match c with
    | "009" | "010" | "011" | "012" | "013" | " " => true
    | _ => false
    end%char.

Definition byteIs (n : nat) (c : ascii) : bool := Nat.eqb (nat_of_ascii c) n.

  (** The two-byte UTF-8 encodings that [unicode.IsSpace] accepts:
      U+0085 and U+00A0. *)
Definition isSpace2 (a b : ascii) : bool :=
    byteIs 194 a && (byteIs 133 b || byteIs 160 b).

  (** The three-byte ones: U+1680, U+2000..U+200A, U+2028, U+2029, U+202F,
      U+205F and U+3000. *)
Definition isSpace3 (a b c : ascii) : bool :=
    (byteIs 225 a && byteIs 154 b && byteIs 128 c)
    || (byteIs 226 a && byteIs 128 b &&
          ((Nat.leb 128 (nat_of_ascii c) && Nat.leb (nat_of_ascii c) 138)
           || byteIs 168 c || byteIs 169 c || byteIs 175 c))
    || (byteIs 226 a && byteIs 129 b && byteIs 159 c)
    || (byteIs 227 a && byteIs 128 b && byteIs 128 c).

  (** [strings.TrimLeftFunc(s, unicode.IsSpace)] on the bytes of [s]: an
      invalid or non-space rune stops the scan. *)
Fixpoint trimLeft (s : bytes) : bytes :=
    match s with
    | [] => []
    | a :: r1 =>
        if asciiSpace a then trimLeft r1
        else match r1 with
             | [] => s
             | b :: r2 =>
                 if isSpace2 a b then trimLeft r2
                 else match r2 with
                      | [] => s
                      | c :: r3 => if isSpace3 a b c then trimLeft r3 else s
                      end
             end
    end.

  (** The same scan from the end, on the reversed bytes
      ([utf8.DecodeLastRuneInString] walks back to the rune start). *)
Fixpoint trimRightRev (s : bytes) : bytes :=
    match s with
    | [] => []
    | a :: r1 =>
        if asciiSpace a then trimRightRev r1
        else match r1 with
             | [] => s
             | b :: r2 =>
                 if isSpace2 b a then trimRightRev r2
                 else match r2 with
                      | [] => s
                      | c :: r3 => if isSpace3 c b a then trimRightRev r3 else s
                      end
             end
    end.

Definition trimRight (s : bytes) : bytes := rev (trimRightRev (rev s)).

  (** [strings.TrimSpace]. *)
Definition trimSpace (s : bytes) : bytes := trimRight (trimLeft s).

  (** [wsRE.ReplaceAllString(s, " ")] for [wsRE = \s+]: every maximal run of
      [\s] bytes becomes one space.  [inrun] says that the previous byte
      belonged to a run. *)
Fixpoint wsReplace (inrun : bool) (s : bytes) : bytes :=
    match s with
    | [] => []
    | c :: r =>
        if reSpace c then
          if inrun then wsReplace true r else " "%char :: wsReplace true r
        else c :: wsReplace false r
    end.

  (** [strings.HasPrefix]. *)
Fixpoint hasPrefix (s p : bytes) : bool :=
    match p, s with
    | [], _ => true
    | _ :: _, [] => false
    | x :: p', y :: s' => if Ascii.eqb x y then hasPrefix s' p' else false
    end.

  (** [strings.Index]: the offset of the first occurrence. *)
Fixpoint index (s sub : bytes) : option nat :=
    if hasPrefix s sub then Some 0
    else match s with
         | [] => None
         | _ :: r => S <$> index r sub
         end.

  (** The whitespace-separated words of a text, for the class [\s];
      [w] is the word being read. *)
Fixpoint fieldsAcc (w : bytes) (s : bytes) : list bytes :=
    match s with
    | [] => match w with [] => [] | _ => [w] end
    | c :: r =>
        if reSpace c then
          match w with [] => fieldsAcc [] r | _ => w :: fieldsAcc [] r end
        else fieldsAcc (w ++ [c]) r
    end.

Definition fields (s : bytes) : list bytes := fieldsAcc [] s.



End Text.

(** [strings.TrimSpace], [strings.HasPrefix], [strings.HasSuffix],
    [strings.TrimPrefix], [strings.TrimSuffix], [strings.Index] on strings. *)
Definition TrimSpace (s : string) : string := l2s (Text.trimSpace (s2l s)).

Definition HasPrefix (s p : string) : bool := Text.hasPrefix (s2l s) (s2l p).

Definition HasSuffix (s p : string) : bool :=
  Text.hasPrefix (rev (s2l s)) (rev (s2l p)).

Definition TrimPrefix (s p : string) : string :=
  if HasPrefix s p then l2s (drop (String.length p) (s2l s)) else s.

Definition TrimSuffix (s p : string) : string :=
  if HasSuffix s p
  then l2s (take (String.length s - String.length p) (s2l s)) else s.

Definition Index (s sub : string) : option nat := Text.index (s2l s) (s2l sub).

(** [normalizeWS]: collapse whitespace runs to one space, then trim. *)
Definition normalizeWS (s : string) : string :=
  TrimSpace (l2s (Text.wsReplace false (s2l s))).

(** ** Formatting

    [fmt.Sprint] of a bool and of a uint; [uint] is 64 bits wide and its
    addition wraps around. *)
Definition sprintBool (b : bool) : string := if b then "true" else "false".

Definition sprintUint (n : N) : string := NilEmpty.string_of_uint (N.to_uint n).

Definition uintAdd (a b : N) : N := ((a + b) mod 2 ^ 64)%N.

Definition dq : string := String "034"%char "".

(** ** Configuration trees *)

(** A value of type [any] in a configuration tree: a nested
    [map[string]any], or anything else, kept as what [fmt.Sprint] prints
    for it.  A map is its list of entries in iteration order. *)
#[local] Unset Elimination Schemes.
Inductive any :=
| AVal (printed : string)
| AMap (entries : list (string * any)).

#[local] Set Elimination Schemes.

Abbreviation cfgmap := (list (string * any)).

(** ** The remote snapshot ([internal/api]) *)
Module api.

Module Policy.
Record t := mk {
      ID : N; Name : string; Query : string; Description : string;
      Resolution : string; Platform : string; Critical : bool;
      PassingHostCount : N; FailingHostCount : N;
      LabelsIncludeAny : list string; LabelsExcludeAny : list string }.
End Policy.

Module Query.
Record t := mk {
      ID : N; Name : string; Query : string; Interval : N;
      Platform : string; Logging : string }.
End Query.

Module TeamSoftwarePackage.
Record t := mk {
      URL : string; HashSHA256 : string; SelfService : bool;
      ReferencedYAMLPath : string }.
End TeamSoftwarePackage.

Module TeamFleetApp.
Record t := mk { Slug : string; SelfService : bool }.
End TeamFleetApp.

Module TeamAppStoreApp.
Record t := mk { AppStoreID : string; SelfService : bool }.
End TeamAppStoreApp.

  (** [FleetMaintained] is [None] for a nil slice (JSON null): [Diff]
      tests it against nil. *)
Module TeamSoftware.
Record t := mk {
      Packages : list TeamSoftwarePackage.t;
      FleetMaintained : option (list TeamFleetApp.t);
      AppStoreApps : list TeamAppStoreApp.t }.
End TeamSoftware.

Module FleetMaintainedApp.
Record t := mk {
      ID : N; SoftwareTitleID : N; Slug : string; Name : string;
      Platform : string }.
End FleetMaintainedApp.

Module SoftwareTitleAppStore.
Record t := mk { AppStoreID : string; SelfService : bool; Platform : string }.
End SoftwareTitleAppStore.

Module SoftwareTitlePackageMeta.
Record t := mk {
      Name : string; PackageURL : string; SelfService : bool;
      Platform : string }.
End SoftwareTitlePackageMeta.

  (** The two pointer fields are options. *)
Module SoftwareTitle.
Record t := mk {
      ID : N; Name : string; Source : string; HostCount : N;
      AppStoreApp : option SoftwareTitleAppStore.t;
      SoftwarePackage : option SoftwareTitlePackageMeta.t }.
End SoftwareTitle.

Module Label.
Record t := mk {
      ID : N; Name : string; Query : string; Platform : string;
      HostCount : N }.
End Label.

Module Profile.
Record t := mk { ProfileUUID : string; Name : string; Platform : string }.
End Profile.

Module Team.
Record t := mk {
      ID : N; Name : string; Software : TeamSoftware.t;
      Policies : list Policy.t; Queries : list Query.t;
      Profiles : list Profile.t; SoftwareTitles : list SoftwareTitle.t }.
End Team.

(** [Config] is [None] for a nil map. *)
Module FleetState.
Record t := mk {
  Teams : list Team.t;
  Labels : list Label.t;
  FleetMaintainedCatalog : list FleetMaintainedApp.t;
  Config : option cfgmap;
  GlobalPolicies : list Policy.t;
  GlobalQueries : list Query.t }.
End FleetState.

End api.

(** ** The normalized repository model ([internal/parser]) *)
Module parser.

Module ParsedPolicy.
Record t := mk {
  Name : string; Description : string; Resolution : string; Query : string;
  Platform : string; Critical : bool;
  LabelsIncludeAny : list string; LabelsExcludeAny : list string;
  SourceFile : string }.
End ParsedPolicy.

Module ParsedQuery.
Record t := mk {
  Name : string; Query : string; Interval : N; Platform : string;
  Logging : string; SourceFile : string }.
End ParsedQuery.

Module ParsedSoftwarePackage.
Record t := mk {
  URL : string; HashSHA256 : string; SelfService : bool;
  SourceFile : string; RefPath : string }.
End ParsedSoftwarePackage.

Module ParsedFleetApp.
Record t := mk { Slug : string; SelfService : bool }.
End ParsedFleetApp.

Module ParsedAppStoreApp.
Record t := mk { AppStoreID : string; SelfService : bool }.
End ParsedAppStoreApp.

Module ParsedSoftware.
Record t := mk {
  Packages : list ParsedSoftwarePackage.t;
  FleetMaintained : list ParsedFleetApp.t;
  AppStoreApps : list ParsedAppStoreApp.t }.
End ParsedSoftware.

Module ParsedLabel.
Record t := mk {
  Name : string; Description : string; Query : string; Platform : string;
  LabelMembershipType : string; SourceFile : string }.
End ParsedLabel.

Module ParsedProfile.
Record t := mk {
  Path : string; Name : string; Platform : string; SourceFile : string }.
End ParsedProfile.

Module ParseError.
Record t := mk { File : string; Line : nat; Message : string }.
End ParseError.

Module ParsedTeam.
Record t := mk {
  Name : string;
  Policies : list ParsedPolicy.t;
  Queries : list ParsedQuery.t;
  Software : ParsedSoftware.t;
  Profiles : list ParsedProfile.t;
  SourceFile : string }.
End ParsedTeam.

(** The three sections are [None] for a nil map. *)
Module ParsedGlobal.
Record t := mk {
  OrgSettings : option cfgmap;
  AgentOptions : option cfgmap;
  Controls : option cfgmap;
  Policies : list ParsedPolicy.t;
  Queries : list ParsedQuery.t;
  SourceFile : string }.
End ParsedGlobal.

(** [Global] is a pointer. *)
Module ParsedRepo.
Record t := mk {
  Teams : list ParsedTeam.t;
  Labels : list ParsedLabel.t;
  Global : option ParsedGlobal.t;
  Errors : list ParseError.t }.
End ParsedRepo.

(** The raw team file, as [yaml.Unmarshal] fills it in.  Only the fields
    the loader reads are kept; [SelfService] is a pointer. *)
Module rawSoftwareRef.
Record t := mk { Path : string; SelfService : option bool }.
End rawSoftwareRef.

Module rawTeamFile.
Record t := mk {
  Name : string;
  Policies : list string;
  Queries : list string;
  Packages : list rawSoftwareRef.t;
  FleetMaintained : list ParsedFleetApp.t;
  AppStoreApps : list ParsedAppStoreApp.t;
  MacOSCustomSettings : list string;
  WindowsCustomSettings : list string;
  Labels : list string }.
End rawTeamFile.

End parser.

(** ** Diff results ([internal/diff]) *)

Record FieldDiff := mkFieldDiff { Old : string; New : string }.

Record ResourceChange := mkResourceChange {
  Name : string;
  Fields : gmap string FieldDiff;
  HostCount : N;
  Warning : string }.

Record ResourceDiff := mkResourceDiff {
  Added : list ResourceChange;
  Modified : list ResourceChange;
  Deleted : list ResourceChange }.

Definition emptyDiff : ResourceDiff := mkResourceDiff [] [] [].

Definition addAdded (c : ResourceChange) (d : ResourceDiff) : ResourceDiff :=
  mkResourceDiff (Added d ++ [c]) (Modified d) (Deleted d).

Definition addModified (c : ResourceChange) (d : ResourceDiff) : ResourceDiff :=
  mkResourceDiff (Added d) (Modified d ++ [c]) (Deleted d).

Definition addDeleted (c : ResourceChange) (d : ResourceDiff) : ResourceDiff :=
  mkResourceDiff (Added d) (Modified d) (Deleted d ++ [c]).

(** [FieldDiff{New: v}] and [FieldDiff{Old: o, New: v}]. *)
Definition newOnly (v : string) : FieldDiff := mkFieldDiff "" v.

(** [if c { fields[k] = v }]. *)
Definition setIf (c : bool) (k : string) (v : FieldDiff)
    (fields : gmap string FieldDiff) : gmap string FieldDiff :=
  if c then <[k := v]> fields else fields.

Definition strNe (a b : string) : bool := negb (String.eqb a b).

(** *** Policies *)

Definition policyIndex (current : list api.Policy.t) : gmap string api.Policy.t :=
  foldl (fun m p => <[api.Policy.Name p := p]> m) ∅ current.

(** The field map of an added policy. *)
Definition policyAddedFields (p : parser.ParsedPolicy.t) : gmap string FieldDiff :=
  let fields : gmap string FieldDiff :=
    <["critical" := newOnly (sprintBool (parser.ParsedPolicy.Critical p))]>
      (<["platform" := newOnly (parser.ParsedPolicy.Platform p)]>
         (<["query" := newOnly (normalizeWS (parser.ParsedPolicy.Query p))]> ∅)) in
  let fields :=
    setIf (strNe (parser.ParsedPolicy.Description p) "") "description"
      (newOnly (normalizeWS (parser.ParsedPolicy.Description p))) fields in
  setIf (strNe (parser.ParsedPolicy.Resolution p) "") "resolution"
    (newOnly (normalizeWS (parser.ParsedPolicy.Resolution p))) fields.

(** The field map of a policy present on both sides. *)
Definition policyChangedFields (cur : api.Policy.t) (p : parser.ParsedPolicy.t)
    : gmap string FieldDiff :=
  let fields : gmap string FieldDiff := ∅ in
  let fields :=
    setIf (strNe (normalizeWS (api.Policy.Query cur))
                 (normalizeWS (parser.ParsedPolicy.Query p)))
      "query"
      (mkFieldDiff (normalizeWS (api.Policy.Query cur))
                   (normalizeWS (parser.ParsedPolicy.Query p))) fields in
  let fields :=
    setIf (strNe (normalizeWS (api.Policy.Description cur))
                 (normalizeWS (parser.ParsedPolicy.Description p)))
      "description"
      (mkFieldDiff (normalizeWS (api.Policy.Description cur))
                   (normalizeWS (parser.ParsedPolicy.Description p))) fields in
  let fields :=
    setIf (strNe (normalizeWS (api.Policy.Resolution cur))
                 (normalizeWS (parser.ParsedPolicy.Resolution p)))
      "resolution"
      (mkFieldDiff (normalizeWS (api.Policy.Resolution cur))
                   (normalizeWS (parser.ParsedPolicy.Resolution p))) fields in
  let fields :=
    setIf (strNe (api.Policy.Platform cur) (parser.ParsedPolicy.Platform p))
      "platform"
      (mkFieldDiff (api.Policy.Platform cur) (parser.ParsedPolicy.Platform p))
      fields in
  setIf (negb (Bool.eqb (api.Policy.Critical cur) (parser.ParsedPolicy.Critical p)))
    "critical"
    (mkFieldDiff (sprintBool (api.Policy.Critical cur))
                 (sprintBool (parser.ParsedPolicy.Critical p))) fields.

Definition policyHosts (cur : api.Policy.t) : N :=
  uintAdd (api.Policy.PassingHostCount cur) (api.Policy.FailingHostCount cur).

(** One iteration of the loop over the proposed policies; the state is the
    diff and the set [proposedNames]. *)
Definition policyProposedStep (currentMap : gmap string api.Policy.t)
    (st : ResourceDiff * gset string) (p : parser.ParsedPolicy.t)
    : ResourceDiff * gset string :=
  let '(diff, proposedNames) := st in
  let proposedNames := {[parser.ParsedPolicy.Name p]} ∪ proposedNames in
  match currentMap !! parser.ParsedPolicy.Name p with
  | None =>
      (addAdded (mkResourceChange (parser.ParsedPolicy.Name p)
                   (policyAddedFields p) 0 "") diff, proposedNames)
  | Some cur =>
      let fields := policyChangedFields cur p in
      if decide (0 < size fields)
      then (addModified (mkResourceChange (parser.ParsedPolicy.Name p) fields
                           (policyHosts cur) "") diff, proposedNames)
      else (diff, proposedNames)
  end.

Definition deleteWarning (hostCount : N) : string :=
  if (0 <? hostCount)%N
  then "will delete policy affecting " +:+ sprintUint hostCount +:+ " hosts"
  else "".

(** One iteration of the loop over the current policies. *)
Definition policyDeletedStep (proposedNames : gset string)
    (diff : ResourceDiff) (cur : api.Policy.t) : ResourceDiff :=
  if decide (api.Policy.Name cur ∈ proposedNames) then diff
  else
    let hostCount := policyHosts cur in
    let warning := deleteWarning hostCount in
    addDeleted (mkResourceChange (api.Policy.Name cur) ∅ hostCount warning) diff.

Definition diffPolicies (current : list api.Policy.t)
    (proposed : list parser.ParsedPolicy.t) : ResourceDiff :=
  let currentMap := policyIndex current in
  let '(diff, proposedNames) :=
    foldl (policyProposedStep currentMap) (emptyDiff, ∅) proposed in
  foldl (policyDeletedStep proposedNames) diff current.

(** *** Queries *)

Definition queryIndex (current : list api.Query.t) : gmap string api.Query.t :=
  foldl (fun m q => <[api.Query.Name q := q]> m) ∅ current.

Definition queryAddedFields (q : parser.ParsedQuery.t) : gmap string FieldDiff :=
  let fields : gmap string FieldDiff :=
    <["platform" := newOnly (parser.ParsedQuery.Platform q)]>
      (<["interval" := newOnly (sprintUint (parser.ParsedQuery.Interval q))]>
         (<["query" := newOnly (normalizeWS (parser.ParsedQuery.Query q))]> ∅)) in
  setIf (strNe (parser.ParsedQuery.Logging q) "") "logging"
    (newOnly (parser.ParsedQuery.Logging q)) fields.

Definition queryChangedFields (cur : api.Query.t) (q : parser.ParsedQuery.t)
    : gmap string FieldDiff :=
  let fields : gmap string FieldDiff := ∅ in
  let fields :=
    setIf (strNe (normalizeWS (api.Query.Query cur))
                 (normalizeWS (parser.ParsedQuery.Query q)))
      "query"
      (mkFieldDiff (normalizeWS (api.Query.Query cur))
                   (normalizeWS (parser.ParsedQuery.Query q))) fields in
  let fields :=
    setIf (negb (N.eqb (api.Query.Interval cur) (parser.ParsedQuery.Interval q)))
      "interval"
      (mkFieldDiff (sprintUint (api.Query.Interval cur))
                   (sprintUint (parser.ParsedQuery.Interval q))) fields in
  let fields :=
    setIf (strNe (api.Query.Platform cur) (parser.ParsedQuery.Platform q))
      "platform"
      (mkFieldDiff (api.Query.Platform cur) (parser.ParsedQuery.Platform q))
      fields in
  setIf (strNe (api.Query.Logging cur) (parser.ParsedQuery.Logging q)
         && strNe (parser.ParsedQuery.Logging q) "")
    "logging"
    (mkFieldDiff (api.Query.Logging cur) (parser.ParsedQuery.Logging q)) fields.

Definition queryProposedStep (currentMap : gmap string api.Query.t)
    (st : ResourceDiff * gset string) (q : parser.ParsedQuery.t)
    : ResourceDiff * gset string :=
  let '(diff, proposedNames) := st in
  let proposedNames := {[parser.ParsedQuery.Name q]} ∪ proposedNames in
  match currentMap !! parser.ParsedQuery.Name q with
  | None =>
      (addAdded (mkResourceChange (parser.ParsedQuery.Name q)
                   (queryAddedFields q) 0 "") diff, proposedNames)
  | Some cur =>
      let fields := queryChangedFields cur q in
      if decide (0 < size fields)
      then (addModified (mkResourceChange (parser.ParsedQuery.Name q) fields 0 "")
              diff, proposedNames)
      else (diff, proposedNames)
  end.

Definition queryDeletedStep (proposedNames : gset string)
    (diff : ResourceDiff) (cur : api.Query.t) : ResourceDiff :=
  if decide (api.Query.Name cur ∈ proposedNames) then diff
  else addDeleted (mkResourceChange (api.Query.Name cur) ∅ 0 "") diff.

Definition diffQueries (current : list api.Query.t)
    (proposed : list parser.ParsedQuery.t) : ResourceDiff :=
  let currentMap := queryIndex current in
  let '(diff, proposedNames) :=
    foldl (queryProposedStep currentMap) (emptyDiff, ∅) proposed in
  foldl (queryDeletedStep proposedNames) diff current.

(** ** The part of the engine that calls into Go's Unicode tables

    [strings.ToLower], [strings.EqualFold] and the [%q] verb of [fmt] are
    taken as they are: the engine is parametric in them. *)
Section Engine.

Variable ToLower : string -> string.
Variable EqualFold : string -> string -> bool.
Variable Quote : string -> string.

(** *** Profiles *)

Definition profileIndex (current : list api.Profile.t) : gmap string api.Profile.t :=
  foldl (fun m p => <[api.Profile.Name p := p]> m) ∅ current.

Definition profileAddedFields (p : parser.ParsedProfile.t) : gmap string FieldDiff :=
  setIf (strNe (parser.ParsedProfile.Path p) "") "path"
    (newOnly (parser.ParsedProfile.Path p))
    (<["platform" := newOnly (parser.ParsedProfile.Platform p)]> ∅).

Definition duplicateProfileWarning (p : parser.ParsedProfile.t) : string :=
  "duplicate profile name " +:+ Quote (parser.ParsedProfile.Name p)
  +:+ " derived from " +:+ Quote (parser.ParsedProfile.Path p)
  +:+ " (conflicts with another profile)".

(** One iteration over the proposed profiles; the state is the diff, the
    warnings and [proposedNames]. *)
Definition profileProposedStep (currentMap : gmap string api.Profile.t)
    (st : ResourceDiff * list string * gset string) (p : parser.ParsedProfile.t)
    : ResourceDiff * list string * gset string :=
  let '(diff, warnings, proposedNames) := st in
  let name := parser.ParsedProfile.Name p in
  let warnings :=
    if decide (name ∈ proposedNames)
    then warnings ++ [duplicateProfileWarning p] else warnings in
  let proposedNames := {[name]} ∪ proposedNames in
  match currentMap !! name with
  | None =>
      (addAdded (mkResourceChange name (profileAddedFields p) 0 "") diff,
       warnings, proposedNames)
  | Some _ => (diff, warnings, proposedNames)
  end.

Definition profileDeletedStep (proposedNames : gset string)
    (diff : ResourceDiff) (cur : api.Profile.t) : ResourceDiff :=
  if decide (api.Profile.Name cur ∈ proposedNames) then diff
  else addDeleted (mkResourceChange (api.Profile.Name cur) ∅ 0 "") diff.

Definition diffProfiles (current : list api.Profile.t)
    (proposed : list parser.ParsedProfile.t) : ResourceDiff * list string :=
  let currentMap := profileIndex current in
  let '(diff, warnings, proposedNames) :=
    foldl (profileProposedStep currentMap) (emptyDiff, [], ∅) proposed in
  (foldl (profileDeletedStep proposedNames) diff current, warnings).

(** *** Software *)

(** [strings.ReplaceAll(s, "\\", "/")]: both strings are one byte long. *)
Definition backslashToSlash (s : string) : string :=
  l2s (map (fun c => if Ascii.eqb c "\"%char then "/"%char else c) (s2l s)).

(** The loop [for strings.HasPrefix(s, "../") { s = strings.TrimPrefix(s, "../") }]. *)
Fixpoint stripDotDot (s : bytes) : bytes :=
  match s with
  | "."%char :: "."%char :: "/"%char :: r => stripDotDot r
  | _ => s
  end.

Definition normalizeSoftwarePath (s : string) : string :=
  let s := TrimSpace (ToLower s) in
  if String.eqb s "" then ""
  else
    let s := backslashToSlash s in
    let s := TrimPrefix s "./" in
    let s := l2s (stripDotDot (s2l s)) in
    TrimPrefix s "/".

Definition inferSoftwarePathFromSource (source : string) : string :=
  let source := backslashToSlash source in
  match Index source "/software/" with
  | Some idx => TrimPrefix (l2s (drop (idx + 1) (s2l source))) "/"
  | None => ""
  end.

(** The three loops of [diffSoftware] have one shape: a loop over the
    proposed map that appends to Added or Modified, then a loop over the
    current map that appends to Deleted.  Go leaves the order of a map
    iteration open; [map_to_list] fixes one. *)
Definition keyedProposedStep {C P : Type} (current : gmap string C)
    (added : string -> P -> ResourceChange)
    (modified : string -> C -> P -> option ResourceChange)
    (rd : ResourceDiff) (kp : string * P) : ResourceDiff :=
  match current !! kp.1 with
  | None => addAdded (added kp.1 kp.2) rd
  | Some cur =>
      match modified kp.1 cur kp.2 with
      | Some m => addModified m rd
      | None => rd
      end
  end.

Definition keyedDeletedStep {C P : Type} (proposed : gmap string P)
    (deleted : string -> ResourceChange)
    (rd : ResourceDiff) (kc : string * C) : ResourceDiff :=
  match proposed !! kc.1 with
  | Some _ => rd
  | None => addDeleted (deleted kc.1) rd
  end.

Definition diffKeyed {C P : Type} (current : gmap string C) (proposed : gmap string P)
    (added : string -> P -> ResourceChange)
    (modified : string -> C -> P -> option ResourceChange)
    (deleted : string -> ResourceChange) (rd : ResourceDiff) : ResourceDiff :=
  let rd := foldl (keyedProposedStep current added modified) rd (map_to_list proposed) in
  foldl (keyedDeletedStep proposed deleted) rd (map_to_list current).

(** [m[key] = v] guarded by [if key != ""]. *)
Definition insertKeyed {V : Type} (key : string) (v : V) (m : gmap string V)
    : gmap string V :=
  if String.eqb key "" then m else <[key := v]> m.

Definition orElse (a b : string) : string := if String.eqb a "" then b else a.

Definition currentPkgKey (p : api.TeamSoftwarePackage.t) : string :=
  orElse (normalizeSoftwarePath (api.TeamSoftwarePackage.ReferencedYAMLPath p))
         (normalizeSoftwarePath (api.TeamSoftwarePackage.URL p)).

Definition proposedPkgKey (p : parser.ParsedSoftwarePackage.t) : string :=
  orElse (normalizeSoftwarePath (parser.ParsedSoftwarePackage.RefPath p))
    (orElse (inferSoftwarePathFromSource (parser.ParsedSoftwarePackage.SourceFile p))
            (normalizeSoftwarePath (parser.ParsedSoftwarePackage.URL p))).

Definition pkgAdded (key : string) (p : parser.ParsedSoftwarePackage.t) : ResourceChange :=
  let fields : gmap string FieldDiff :=
    <["self_service" := newOnly (sprintBool (parser.ParsedSoftwarePackage.SelfService p))]>
      (<["url" := newOnly (parser.ParsedSoftwarePackage.URL p)]> ∅) in
  let fields :=
    setIf (strNe (parser.ParsedSoftwarePackage.HashSHA256 p) "") "hash_sha256"
      (newOnly (parser.ParsedSoftwarePackage.HashSHA256 p)) fields in
  mkResourceChange (normalizeSoftwarePath key) fields 0 "".

Definition pkgModified (key : string) (cur : api.TeamSoftwarePackage.t)
    (p : parser.ParsedSoftwarePackage.t) : option ResourceChange :=
  let fields : gmap string FieldDiff := ∅ in
  let fields :=
    setIf (strNe (api.TeamSoftwarePackage.URL cur) (parser.ParsedSoftwarePackage.URL p))
      "url"
      (mkFieldDiff (api.TeamSoftwarePackage.URL cur) (parser.ParsedSoftwarePackage.URL p))
      fields in
  let fields :=
    setIf (strNe (api.TeamSoftwarePackage.HashSHA256 cur)
                 (parser.ParsedSoftwarePackage.HashSHA256 p))
      "hash_sha256"
      (mkFieldDiff (api.TeamSoftwarePackage.HashSHA256 cur)
                   (parser.ParsedSoftwarePackage.HashSHA256 p)) fields in
  let fields :=
    setIf (negb (Bool.eqb (api.TeamSoftwarePackage.SelfService cur)
                          (parser.ParsedSoftwarePackage.SelfService p)))
      "self_service"
      (mkFieldDiff (sprintBool (api.TeamSoftwarePackage.SelfService cur))
                   (sprintBool (parser.ParsedSoftwarePackage.SelfService p))) fields in
  if decide (0 < size fields)
  then Some (mkResourceChange (normalizeSoftwarePath key) fields 0 "") else None.

Definition pkgDeleted (key : string) : ResourceChange :=
  mkResourceChange (normalizeSoftwarePath key) ∅ 0 "".

Definition selfServiceChange (cur new : bool) : gmap string FieldDiff :=
  <["self_service" := mkFieldDiff (sprintBool cur) (sprintBool new)]> ∅.

Definition fleetAdded (slug : string) (a : parser.ParsedFleetApp.t) : ResourceChange :=
  mkResourceChange ("fleet app " +:+ slug)
    (<["self_service" := newOnly (sprintBool (parser.ParsedFleetApp.SelfService a))]>
       (<["slug" := newOnly (parser.ParsedFleetApp.Slug a)]> ∅)) 0 "".

Definition fleetModified (slug : string) (cur : api.TeamFleetApp.t)
    (a : parser.ParsedFleetApp.t) : option ResourceChange :=
  if Bool.eqb (api.TeamFleetApp.SelfService cur) (parser.ParsedFleetApp.SelfService a)
  then None
  else Some (mkResourceChange ("fleet app " +:+ slug)
               (selfServiceChange (api.TeamFleetApp.SelfService cur)
                                  (parser.ParsedFleetApp.SelfService a)) 0 "").

Definition fleetDeleted (slug : string) : ResourceChange :=
  mkResourceChange ("fleet app " +:+ slug) ∅ 0 "".

Definition storeAdded (id : string) (a : parser.ParsedAppStoreApp.t) : ResourceChange :=
  mkResourceChange ("app store app " +:+ id)
    (<["self_service" := newOnly (sprintBool (parser.ParsedAppStoreApp.SelfService a))]>
       (<["app_store_id" := newOnly (parser.ParsedAppStoreApp.AppStoreID a)]> ∅)) 0 "".

Definition storeModified (id : string) (cur : api.TeamAppStoreApp.t)
    (a : parser.ParsedAppStoreApp.t) : option ResourceChange :=
  if Bool.eqb (api.TeamAppStoreApp.SelfService cur) (parser.ParsedAppStoreApp.SelfService a)
  then None
  else Some (mkResourceChange ("app store app " +:+ id)
               (selfServiceChange (api.TeamAppStoreApp.SelfService cur)
                                  (parser.ParsedAppStoreApp.SelfService a)) 0 "").

Definition storeDeleted (id : string) : ResourceChange :=
  mkResourceChange ("app store app " +:+ id) ∅ 0 "".

(** The order [a.Name < b.Name] of [sortResourceChanges], as [<=] on
    bytes. *)
Definition byName (a b : ResourceChange) : Prop := String.le (Name a) (Name b).

#[local] Instance byName_dec : RelDecision byName.
Proof. intros a b. unfold byName. apply _. Defined.

(** [sort.Slice] is not stable and leaves the order of entries with equal
    names open; [merge_sort] fixes one. *)
Definition sortResourceChanges (rd : ResourceDiff) : ResourceDiff :=
  mkResourceDiff (merge_sort byName (Added rd)) (merge_sort byName (Modified rd))
                 (merge_sort byName (Deleted rd)).

Definition currentFleetMap (l : list api.TeamFleetApp.t) : gmap string api.TeamFleetApp.t :=
  foldl (fun m a => insertKeyed (normalizeSoftwarePath (api.TeamFleetApp.Slug a)) a m) ∅ l.

Definition proposedFleetMap (l : list parser.ParsedFleetApp.t)
    : gmap string parser.ParsedFleetApp.t :=
  foldl (fun m a => insertKeyed (normalizeSoftwarePath (parser.ParsedFleetApp.Slug a)) a m) ∅ l.

Definition diffSoftware (current : api.TeamSoftware.t) (proposed : parser.ParsedSoftware.t)
    : ResourceDiff :=
  let rd := emptyDiff in
  let currentPkgs : gmap string api.TeamSoftwarePackage.t :=
    foldl (fun m p => insertKeyed (currentPkgKey p) p m) ∅
      (api.TeamSoftware.Packages current) in
  let proposedPkgs : gmap string parser.ParsedSoftwarePackage.t :=
    foldl (fun m p => insertKeyed (proposedPkgKey p) p m) ∅
      (parser.ParsedSoftware.Packages proposed) in
  let rd := diffKeyed currentPkgs proposedPkgs pkgAdded pkgModified pkgDeleted rd in
  let currentFleet :=
    currentFleetMap (default [] (api.TeamSoftware.FleetMaintained current)) in
  let proposedFleet := proposedFleetMap (parser.ParsedSoftware.FleetMaintained proposed) in
  let rd := diffKeyed currentFleet proposedFleet fleetAdded fleetModified fleetDeleted rd in
  let currentApps : gmap string api.TeamAppStoreApp.t :=
    foldl (fun m a => insertKeyed (TrimSpace (api.TeamAppStoreApp.AppStoreID a)) a m) ∅
      (api.TeamSoftware.AppStoreApps current) in
  let proposedApps : gmap string parser.ParsedAppStoreApp.t :=
    foldl (fun m a => insertKeyed (TrimSpace (parser.ParsedAppStoreApp.AppStoreID a)) a m) ∅
      (parser.ParsedSoftware.AppStoreApps proposed) in
  let rd := diffKeyed currentApps proposedApps storeAdded storeModified storeDeleted rd in
  sortResourceChanges rd.

(** *** Inference of the fleet-maintained apps *)

Definition normalizeFleetPlatform (platform : string) : string :=
  let p := TrimSpace (ToLower platform) in
  if String.eqb p "macos" then "darwin" else p.

Definition fleetCatalogKey (name platform : string) : string :=
  let name := TrimSpace (ToLower name) in
  let platform := normalizeFleetPlatform platform in
  if String.eqb name "" || String.eqb platform "" then ""
  else name +:+ "|" +:+ platform.

Definition customPackageURLs (pkgs : list api.TeamSoftwarePackage.t) : gset string :=
  foldl (fun s p =>
           let u := normalizeSoftwarePath (api.TeamSoftwarePackage.URL p) in
           if String.eqb u "" then s else {[u]} ∪ s) ∅ pkgs.

Definition catalogByNamePlatform (catalog : list api.FleetMaintainedApp.t)
    : gmap string (list api.FleetMaintainedApp.t) :=
  foldl (fun m app =>
           let key := fleetCatalogKey (api.FleetMaintainedApp.Name app)
                                      (api.FleetMaintainedApp.Platform app) in
           if String.eqb key "" then m
           else <[key := default [] (m !! key) ++ [app]]> m) ∅ catalog.

(** One iteration of the loop over the software titles; [None] is
    [continue]. *)
Definition inferTitle (custom : gset string)
    (byKey : gmap string (list api.FleetMaintainedApp.t))
    (title : api.SoftwareTitle.t) : option api.TeamFleetApp.t :=
  if negb (EqualFold (TrimSpace (api.SoftwareTitle.Source title)) "apps") then None
  else match api.SoftwareTitle.AppStoreApp title with
  | Some _ => None
  | None =>
  match api.SoftwareTitle.SoftwarePackage title with
  | None => None
  | Some pkg =>
      let packageURL := normalizeSoftwarePath (api.SoftwareTitlePackageMeta.PackageURL pkg) in
      if strNe packageURL "" && bool_decide (packageURL ∈ custom) then None
      else
        let key := fleetCatalogKey (api.SoftwareTitle.Name title)
                                   (api.SoftwareTitlePackageMeta.Platform pkg) in
        match default [] (byKey !! key) with
        | [m] =>
            let slug := normalizeSoftwarePath (api.FleetMaintainedApp.Slug m) in
            if String.eqb slug "" then None
            else Some (api.TeamFleetApp.mk slug (api.SoftwareTitlePackageMeta.SelfService pkg))
        | _ => None
        end
  end end.

Definition inferredMap (team : api.Team.t) (catalog : list api.FleetMaintainedApp.t)
    : gmap string api.TeamFleetApp.t :=
  let custom := customPackageURLs (api.TeamSoftware.Packages (api.Team.Software team)) in
  let byKey := catalogByNamePlatform catalog in
  foldl (fun inferred title =>
           match inferTitle custom byKey title with
           | Some app => <[api.TeamFleetApp.Slug app := app]> inferred
           | None => inferred
           end) ∅ (api.Team.SoftwareTitles team).

(** [None] is the nil slice. *)
Definition inferFleetMaintainedApps (team : api.Team.t)
    (catalog : list api.FleetMaintainedApp.t) : option (list api.TeamFleetApp.t) :=
  match api.Team.SoftwareTitles team, catalog with
  | [], _ | _, [] => None
  | _, _ =>
      let inferred := inferredMap team catalog in
      if decide (size inferred = 0) then None
      else Some (map_to_list inferred).*2
  end.

(** *** Label validation *)

Record LabelRef := mkLabelRef {
  LabelName : string; LabelHostCount : N; ReferencedBy : string }.

Record LabelValidation := mkLabelValidation {
  Valid : list LabelRef; Missing : list LabelRef }.

Definition changedNames (d : ResourceDiff) : gset string :=
  list_to_set (Name <$> Added d) ∪ list_to_set (Name <$> Modified d)
  ∪ list_to_set (Name <$> Deleted d).

Definition checkLabel (labelMap : gmap string api.Label.t) (referencedBy : string)
    (st : LabelValidation * gset string) (name : string)
    : LabelValidation * gset string :=
  let '(validation, seen) := st in
  if decide (name ∈ seen) then st
  else
    let seen := {[name]} ∪ seen in
    match labelMap !! name with
    | Some l =>
        (mkLabelValidation
           (Valid validation ++ [mkLabelRef name (api.Label.HostCount l) referencedBy])
           (Missing validation), seen)
    | None =>
        (mkLabelValidation (Valid validation)
           (Missing validation ++ [mkLabelRef name 0 referencedBy]), seen)
    end.

Definition validateLabels (team : parser.ParsedTeam.t)
    (labelMap : gmap string api.Label.t) (changed : gset string) : LabelValidation :=
  fst (foldl (fun st p =>
           if decide (parser.ParsedPolicy.Name p ∈ changed) then
             let st := foldl (checkLabel labelMap (parser.ParsedPolicy.Name p)) st
                         (parser.ParsedPolicy.LabelsIncludeAny p) in
             foldl (checkLabel labelMap (parser.ParsedPolicy.Name p)) st
               (parser.ParsedPolicy.LabelsExcludeAny p)
           else st)
         (mkLabelValidation [] [], ∅) (parser.ParsedTeam.Policies team)).

(** *** Global configuration *)


(** [fmt.Sprint] of a map value. *)
Variable sprintMap : cfgmap -> string.

Definition Sprint (v : any) : string :=
  match v with AVal s => s | AMap m => sprintMap m end.

(** [m[k]]. *)
Fixpoint cfgLookup (k : string) (m : cfgmap) : option any :=
  match m with
  | [] => None
  | (k', v) :: rest => if String.eqb k k' then Some v else cfgLookup k rest
  end.

Definition joinKey (prefix k : string) : string :=
  if String.eqb prefix "" then k else prefix +:+ "." +:+ k.

(** [flattenMap]: the calls [fn(key, val)], in order. *)
Fixpoint flattenAny (fullKey : string) (v : any) : list (string * string) :=
  match v with
  | AVal s => [(fullKey, s)]
  | AMap nested =>
      (fix go (m : cfgmap) : list (string * string) :=
         match m with
         | [] => []
         | (k, v') :: rest => flattenAny (joinKey fullKey k) v' ++ go rest
         end) nested
  end.

Definition flattenMap (m : cfgmap) (prefix : string) : list (string * string) :=
  flat_map (fun kv => flattenAny (joinKey prefix kv.1) kv.2) m.

(** [strings.Split(key, ".")]. *)
Fixpoint splitDot (cur : bytes) (s : bytes) : list string :=
  match s with
  | [] => [l2s cur]
  | c :: r =>
      if Ascii.eqb c "."%char then l2s cur :: splitDot [] r
      else splitDot (cur ++ [c]) r
  end.

Fixpoint getNestedParts (current : cfgmap) (parts : list string) : string :=
  match parts with
  | [] => ""
  | part :: rest =>
      match cfgLookup part current with
      | None => ""
      | Some v =>
          match rest with
          | [] => Sprint v
          | _ =>
              match v with
              | AMap next => getNestedParts next rest
              | AVal _ => ""
              end
          end
      end
  end.

Definition getNestedValue (m : cfgmap) (key : string) : string :=
  getNestedParts m (splitDot [] (s2l key)).

(** [strings.Contains(s, "$")]. *)
Definition containsEnvVar (s : string) : bool :=
  existsb (fun c => Ascii.eqb c "$"%char) (s2l s).

Record ConfigChange := mkConfigChange {
  CfgSection : string; Key : string; CfgOld : string; CfgNew : string }.

(** Where a section lives in the API response; [None] is a nil map. *)
Definition apiSectionOf (apiConfig : option cfgmap) (section : string) : option cfgmap :=
  if String.eqb section "org_settings" then apiConfig
  else if String.eqb section "agent_options" then
    match apiConfig ≫= cfgLookup "agent_options" with
    | Some (AMap m) => Some m
    | _ => None
    end
  else if String.eqb section "controls" then apiConfig
  else None.

(** The body of the loop over the sections. *)
Definition diffSection (apiConfig : option cfgmap) (changes : list ConfigChange)
    (sp : string * option cfgmap) : list ConfigChange :=
  let '(section, proposedMap) := sp in
  match proposedMap with
  | None => changes
  | Some proposedMap =>
      match apiSectionOf apiConfig section with
      | None =>
          foldl (fun changes kv =>
                   if negb (containsEnvVar kv.2)
                   then changes ++ [mkConfigChange section kv.1 "" kv.2]
                   else changes)
            changes (flattenMap proposedMap "")
      | Some apiSection =>
          foldl (fun changes kv =>
                   if containsEnvVar kv.2 then changes
                   else
                     let apiVal := getNestedValue apiSection kv.1 in
                     if strNe apiVal kv.2
                     then changes ++ [mkConfigChange section kv.1 apiVal kv.2]
                     else changes)
            changes (flattenMap proposedMap "")
      end
  end.

(** Go leaves the order of the three sections open; they are taken in the
    order of the map literal. *)
Definition diffConfig (apiConfig : option cfgmap) (proposed : parser.ParsedGlobal.t)
    : list ConfigChange :=
  foldl (diffSection apiConfig) []
    [("org_settings", parser.ParsedGlobal.OrgSettings proposed);
     ("agent_options", parser.ParsedGlobal.AgentOptions proposed);
     ("controls", parser.ParsedGlobal.Controls proposed)].

(** *** The engine *)

Record DiffResult := mkDiffResult {
  Team : string;
  Policies : ResourceDiff;
  Queries : ResourceDiff;
  Software : ResourceDiff;
  Profiles : ResourceDiff;
  Labels : LabelValidation;
  Config : list ConfigChange;
  Errors : list string }.

Definition labelIndex (labels : list api.Label.t) : gmap string api.Label.t :=
  foldl (fun m l => <[api.Label.Name l := l]> m) ∅ labels.

Definition teamIndex (teams : list api.Team.t) : gmap string api.Team.t :=
  foldl (fun m t => <[api.Team.Name t := t]> m) ∅ teams.

Definition noTeamMessage (pCount qCount : nat) : string :=
  sprintUint (N.of_nat pCount) +:+ " policies, " +:+ sprintUint (N.of_nat qCount)
  +:+ " queries configured (no API diff available for " +:+ dq +:+ "No team"
  +:+ dq +:+ ")".

Definition newTeamMessage (name : string) : string :=
  "info: team " +:+ Quote name +:+ " does not exist in Fleet yet (will be created)".

(** The global result, when [proposed.Global != nil && teamFilter == ""]. *)
Definition globalResult (current : api.FleetState.t) (g : parser.ParsedGlobal.t)
    : DiffResult :=
  mkDiffResult "(global)"
    (diffPolicies (api.FleetState.GlobalPolicies current) (parser.ParsedGlobal.Policies g))
    (diffQueries (api.FleetState.GlobalQueries current) (parser.ParsedGlobal.Queries g))
    emptyDiff emptyDiff (mkLabelValidation [] [])
    (match api.FleetState.Config current with
     | Some _ => diffConfig (api.FleetState.Config current) g
     | None => []
     end)
    [].

(** The body of the loop over the proposed teams, after the filter. *)
Definition teamResult (current : api.FleetState.t)
    (currentTeams : gmap string api.Team.t) (labelMap : gmap string api.Label.t)
    (proposedTeam : parser.ParsedTeam.t) : DiffResult :=
  let name := parser.ParsedTeam.Name proposedTeam in
  let result :=
    match currentTeams !! name with
    | None =>
        if EqualFold name "No team" then
          let pCount := length (parser.ParsedTeam.Policies proposedTeam) in
          let qCount := length (parser.ParsedTeam.Queries proposedTeam) in
          mkDiffResult name emptyDiff emptyDiff emptyDiff emptyDiff
            (mkLabelValidation [] []) []
            (if Nat.ltb 0 pCount || Nat.ltb 0 qCount
             then [noTeamMessage pCount qCount] else [])
        else
          mkDiffResult name
            (mkResourceDiff
               ((fun p => mkResourceChange (parser.ParsedPolicy.Name p) ∅ 0 "")
                  <$> parser.ParsedTeam.Policies proposedTeam) [] [])
            (mkResourceDiff
               ((fun q => mkResourceChange (parser.ParsedQuery.Name q) ∅ 0 "")
                  <$> parser.ParsedTeam.Queries proposedTeam) [] [])
            emptyDiff emptyDiff (mkLabelValidation [] []) []
            [newTeamMessage name]
    | Some currentTeam =>
        let currentSoftware := api.Team.Software currentTeam in
        let currentSoftware :=
          match api.TeamSoftware.FleetMaintained currentSoftware with
          | None =>
              if Nat.ltb 0 (length (parser.ParsedSoftware.FleetMaintained
                                (parser.ParsedTeam.Software proposedTeam)))
              then api.TeamSoftware.mk
                     (api.TeamSoftware.Packages currentSoftware)
                     (inferFleetMaintainedApps currentTeam
                        (api.FleetState.FleetMaintainedCatalog current))
                     (api.TeamSoftware.AppStoreApps currentSoftware)
              else currentSoftware
          | Some _ => currentSoftware
          end in
        let '(profiles, profileWarnings) :=
          diffProfiles (api.Team.Profiles currentTeam)
                       (parser.ParsedTeam.Profiles proposedTeam) in
        mkDiffResult name
          (diffPolicies (api.Team.Policies currentTeam)
                        (parser.ParsedTeam.Policies proposedTeam))
          (diffQueries (api.Team.Queries currentTeam)
                       (parser.ParsedTeam.Queries proposedTeam))
          (diffSoftware currentSoftware (parser.ParsedTeam.Software proposedTeam))
          profiles (mkLabelValidation [] []) [] profileWarnings
    end in
  mkDiffResult (Team result) (Policies result) (Queries result) (Software result)
    (Profiles result)
    (validateLabels proposedTeam labelMap (changedNames (Policies result)))
    (Config result) (Errors result).

Definition Diff (current : api.FleetState.t) (proposed : parser.ParsedRepo.t)
    (teamFilter : string) : list DiffResult :=
  let labelMap := labelIndex (api.FleetState.Labels current) in
  let results :=
    match parser.ParsedRepo.Global proposed with
    | Some g => if String.eqb teamFilter "" then [globalResult current g] else []
    | None => []
    end in
  let currentTeams := teamIndex (api.FleetState.Teams current) in
  foldl (fun results proposedTeam =>
           if strNe teamFilter ""
              && negb (EqualFold (parser.ParsedTeam.Name proposedTeam) teamFilter)
           then results
           else results ++ [teamResult current currentTeams labelMap proposedTeam])
    results (parser.ParsedRepo.Teams proposed).

End Engine.

(** ** The loader ([internal/parser])

    The file system and the YAML decoder are the loader's environment.  A
    call either succeeds or fails with the text of its error. *)

Inductive result (A : Type) :=
| Ok (a : A)
| Err (msg : string).
Arguments Ok {A} a.
Arguments Err {A} msg.

Inductive readDirResult :=
| DirEntries (entries : list (string * bool))
| DirNotExist
| DirError (msg : string).

Record World := mkWorld {
  Abs : string -> result string;
  EvalSymlinks : string -> result string;
  ReadFile : string -> result string;
  StatSize : string -> result N;
  ReadDir : string -> readDirResult;
  Join : string -> string -> string;
  Dir : string -> string;
  Rel : string -> string -> result string;
  Clean : string -> string;
  decodeTopLevelKeys : string -> result (list string);
  decodeTeamFile : string -> result parser.rawTeamFile.t;
  decodePolicyList : string -> result (list parser.ParsedPolicy.t);
  decodePolicy : string -> result parser.ParsedPolicy.t;
  decodeQueryList : string -> result (list parser.ParsedQuery.t);
  decodeQuery : string -> result parser.ParsedQuery.t;
  decodePackage : string -> result parser.ParsedSoftwarePackage.t;
  decodeLabelList : string -> result (list parser.ParsedLabel.t);
  decodeDefaultMap : string -> result cfgmap;
  decodeDefaultRefs : string -> result (list string * list string * list string) }.

(** The loader runs in a state monad whose state is the list of the paths
    handed to [os.ReadFile] so far. *)
Definition IO (A : Type) : Type := list string -> A * list string.

#[local] Instance IO_ret : MRet IO := fun A a log => (a, log).
#[local] Instance IO_bind : MBind IO :=
  fun A B k m log => let '(a, log') := m log in k a log'.

(** A [for] loop over a slice, threading the loop state. *)
Fixpoint forEach {A S : Type} (body : S -> A -> IO S) (l : list A) (s : S) : IO S :=
  match l with
  | [] => mret s
  | x :: rest => s' ← body s x; forEach body rest s'
  end.

(** [filepath.Base], with [/] as the separator; the two loops run on the
    reversed path. *)
Fixpoint stripSlashes (r : bytes) : bytes :=
  match r with
  | "/"%char :: r' => stripSlashes r'
  | _ => r
  end.

Fixpoint lastElement (r : bytes) : bytes :=
  match r with
  | [] => []
  | c :: r' => if Ascii.eqb c "/"%char then [] else c :: lastElement r'
  end.

Definition Base (path : string) : string :=
  if String.eqb path "" then "."
  else
    let name := rev (lastElement (stripSlashes (rev (s2l path)))) in
    match name with
    | [] => "/"
    | _ => l2s name
    end.

Definition profileNameFromFilename (filePath : string) : string :=
  foldl TrimSuffix (Base filePath) [".mobileconfig"; ".json"; ".xml"].

Definition needle : string := "<key>PayloadDisplayName</key>".

(** What one round of the loop of [extractMobileconfigName] assigns to
    [last], given the text after the marker; [None] leaves it as it is. *)
Definition valueAfter (after : bytes) : option bytes :=
  let after := Text.trimSpace after in
  if Text.hasPrefix after (s2l "<string>") then
    let after := drop (String.length "<string>") after in
    match Text.index after (s2l "</string>") with
    | Some e => Some (Text.trimSpace (take e after))
    | None => None
    end
  else None.

(** The loop; every round drops at least the marker from [remaining],
    so [length data] rounds are enough (see [extractLoop_fuel]). *)
Fixpoint extractLoop (fuel : nat) (remaining last : bytes) : bytes :=
  match fuel with
  | 0 => last
  | S fuel =>
      match Text.index remaining (s2l needle) with
      | None => last
      | Some idx =>
          let after := drop (idx + String.length needle) remaining in
          extractLoop fuel after (default last (valueAfter after))
      end
  end.

Definition extractMobileconfigName (data : string) : string :=
  l2s (extractLoop (String.length data) (s2l data) []).

Definition maxProfileSize : N := 10 * 2 ^ 20.

Definition newParseError (file msg : string) : parser.ParseError.t :=
  parser.ParseError.mk file 0 msg.

Section Loader.

Variable ToLower : string -> string.
Variable EqualFold : string -> string -> bool.
Variable Quote : string -> string.
Variable w : World.

(** The package-level variable [repoRoot], set by [ParseRepo]. *)
Variable repoRoot : string.

Definition readFile (path : string) : IO (result string) :=
  fun log => (ReadFile w path, log ++ [path]).

Definition escapeMessage (root resolved : string) : string :=
  "path " +:+ Quote resolved +:+ " escapes repository root " +:+ Quote root.

(** The real path that [safePath] compares: the symlink-evaluated one, or
    the absolute one when [filepath.EvalSymlinks] fails. *)
Definition realPath (abs : string) : string :=
  match EvalSymlinks w abs with Ok real => real | Err _ => abs end.

(** [Some msg] is the error, [None] is nil. *)
Definition safePath (root resolved : string) : option string :=
  match Abs w root with
  | Err e => Some ("resolving repo root: " +:+ e)
  | Ok absRoot =>
      match Abs w resolved with
      | Err e => Some ("resolving path: " +:+ e)
      | Ok absResolved =>
          let absResolved := realPath absResolved in
          let absRoot := realPath absRoot in
          if negb (HasPrefix absResolved (absRoot +:+ "/"))
             && strNe absResolved absRoot
          then Some (escapeMessage root resolved)
          else None
      end
  end.

(** The result is the error list, or the bytes and the resolved path. *)
Definition readYAMLRef (baseDir refPath parentFile label : string)
    : IO (list parser.ParseError.t + string * string) :=
  if String.eqb refPath "" then
    mret (inl [newParseError parentFile ("empty " +:+ label +:+ "path: reference")])
  else
    let resolved := Join w baseDir refPath in
    match (if strNe repoRoot "" then safePath repoRoot resolved else None) with
    | Some err => mret (inl [newParseError parentFile err])
    | None =>
        data ← readFile resolved;
        match data with
        | Err err =>
            mret (inl [newParseError parentFile
                         (label +:+ "path reference " +:+ Quote refPath +:+ ": " +:+ err)])
        | Ok data => mret (inr (data, resolved))
        end
    end.

Definition setPolicySource (resolved : string) (p : parser.ParsedPolicy.t)
    : parser.ParsedPolicy.t :=
  parser.ParsedPolicy.mk
    (parser.ParsedPolicy.Name p) (parser.ParsedPolicy.Description p)
    (parser.ParsedPolicy.Resolution p) (parser.ParsedPolicy.Query p)
    (parser.ParsedPolicy.Platform p) (parser.ParsedPolicy.Critical p)
    (parser.ParsedPolicy.LabelsIncludeAny p) (parser.ParsedPolicy.LabelsExcludeAny p)
    resolved.

Definition resolvePolicyRef (baseDir refPath parentFile : string)
    : IO (list parser.ParsedPolicy.t * list parser.ParseError.t) :=
  r ← readYAMLRef baseDir refPath parentFile "";
  match r with
  | inl errs => mret ([], errs)
  | inr (data, resolved) =>
      match decodePolicyList w data with
      | Ok items => mret (setPolicySource resolved <$> items, [])
      | Err err =>
          match decodePolicy w data with
          | Ok item => mret ([setPolicySource resolved item], [])
          | Err _ => mret ([], [newParseError resolved ("YAML parse error: " +:+ err)])
          end
      end
  end.

Definition setQuerySource (resolved : string) (q : parser.ParsedQuery.t)
    : parser.ParsedQuery.t :=
  parser.ParsedQuery.mk
    (parser.ParsedQuery.Name q) (parser.ParsedQuery.Query q)
    (parser.ParsedQuery.Interval q) (parser.ParsedQuery.Platform q)
    (parser.ParsedQuery.Logging q) resolved.

Definition resolveQueryRef (baseDir refPath parentFile : string)
    : IO (list parser.ParsedQuery.t * list parser.ParseError.t) :=
  r ← readYAMLRef baseDir refPath parentFile "";
  match r with
  | inl errs => mret ([], errs)
  | inr (data, resolved) =>
      match decodeQueryList w data with
      | Ok items => mret (setQuerySource resolved <$> items, [])
      | Err err =>
          match decodeQuery w data with
          | Ok item => mret ([setQuerySource resolved item], [])
          | Err _ => mret ([], [newParseError resolved ("YAML parse error: " +:+ err)])
          end
      end
  end.

Definition resolveSoftwareRef (baseDir refPath parentFile : string)
    : IO (list parser.ParsedSoftwarePackage.t * list parser.ParseError.t) :=
  r ← readYAMLRef baseDir refPath parentFile "software ";
  match r with
  | inl errs => mret ([], errs)
  | inr (data, resolved) =>
      match decodePackage w data with
      | Err err => mret ([], [newParseError resolved ("YAML parse error: " +:+ err)])
      | Ok pkg =>
          mret ([parser.ParsedSoftwarePackage.mk
                   (parser.ParsedSoftwarePackage.URL pkg)
                   (parser.ParsedSoftwarePackage.HashSHA256 pkg)
                   (parser.ParsedSoftwarePackage.SelfService pkg)
                   resolved
                   (parser.ParsedSoftwarePackage.RefPath pkg)], [])
      end
  end.

(** [filepath.ToSlash] is the identity where the separator is [/]. *)
Definition normalizeSoftwareRefPath (p : string) : string :=
  let p := TrimSpace p in
  if String.eqb p "" then ""
  else
    let p := Clean w p in
    let p := TrimPrefix p "./" in
    let p := l2s (stripDotDot (s2l p)) in
    TrimPrefix p "/".

Definition extractProfileName (filePath : string) : IO string :=
  let lower := ToLower filePath in
  if negb (HasSuffix lower ".mobileconfig") then mret ""
  else
    match StatSize w filePath with
    | Err _ => mret ""
    | Ok size =>
        if (maxProfileSize <? size)%N then mret ""
        else
          data ← readFile filePath;
          match data with
          | Err _ => mret ""
          | Ok data => mret (extractMobileconfigName data)
          end
    end.

Definition ValidTopLevelKeys : list string :=
  ["name"; "team_settings"; "org_settings"; "agent_options"; "controls";
   "policies"; "queries"; "software"; "labels"].

Definition unknownKeyErrors (path : string) (keys : list string)
    : list parser.ParseError.t :=
  (fun key => newParseError path ("unknown top-level key: " +:+ Quote key))
    <$> filter (fun key => key ∉ ValidTopLevelKeys) keys.

Definition policyRefStep (dir path : string)
    (st : list parser.ParsedPolicy.t * list parser.ParseError.t) (ref : string)
    : IO (list parser.ParsedPolicy.t * list parser.ParseError.t) :=
  r ← resolvePolicyRef dir ref path;
  mret (st.1 ++ r.1, st.2 ++ r.2).

Definition queryRefStep (dir path : string)
    (st : list parser.ParsedQuery.t * list parser.ParseError.t) (ref : string)
    : IO (list parser.ParsedQuery.t * list parser.ParseError.t) :=
  r ← resolveQueryRef dir ref path;
  mret (st.1 ++ r.1, st.2 ++ r.2).

Definition canonicalRefOf (refPath : string) (pkg : parser.ParsedSoftwarePackage.t)
    : string :=
  let canonicalRef :=
    if strNe repoRoot "" && strNe (parser.ParsedSoftwarePackage.SourceFile pkg) "" then
      match Rel w repoRoot (parser.ParsedSoftwarePackage.SourceFile pkg) with
      | Ok rel => normalizeSoftwareRefPath rel
      | Err _ => ""
      end
    else "" in
  orElse canonicalRef (normalizeSoftwareRefPath refPath).

Definition duplicatePackageError (path canonicalRef : string) : parser.ParseError.t :=
  newParseError path ("duplicate software package reference: " +:+ Quote canonicalRef).

(** The state of the loop over the package references: the packages kept,
    the errors and [seenSoftwareRefs]. *)
Definition packageState : Type :=
  list parser.ParsedSoftwarePackage.t * list parser.ParseError.t * gset string.

(** The inner loop body, for one resolved package. *)
Definition packageStep (path : string) (ref : parser.rawSoftwareRef.t)
    (st : packageState) (pkg : parser.ParsedSoftwarePackage.t) : packageState :=
  let '(pkgs, errs, seen) := st in
  let canonicalRef := canonicalRefOf (parser.rawSoftwareRef.Path ref) pkg in
  let pkg :=
    parser.ParsedSoftwarePackage.mk
      (parser.ParsedSoftwarePackage.URL pkg)
      (parser.ParsedSoftwarePackage.HashSHA256 pkg)
      (default (parser.ParsedSoftwarePackage.SelfService pkg)
               (parser.rawSoftwareRef.SelfService ref))
      (parser.ParsedSoftwarePackage.SourceFile pkg)
      canonicalRef in
  if String.eqb canonicalRef "" then (pkgs ++ [pkg], errs, seen)
  else if decide (canonicalRef ∈ seen)
       then (pkgs, errs ++ [duplicatePackageError path canonicalRef], seen)
       else (pkgs ++ [pkg], errs, {[canonicalRef]} ∪ seen).

Definition packageRefStep (dir path : string) (st : packageState)
    (ref : parser.rawSoftwareRef.t) : IO packageState :=
  r ← resolveSoftwareRef dir (parser.rawSoftwareRef.Path ref) path;
  let '(pkgs, errs, seen) := st in
  mret (foldl (packageStep path ref) (pkgs, errs ++ r.2, seen) r.1).

Definition profileRefStep (dir path platform : string)
    (st : list parser.ParsedProfile.t * list parser.ParseError.t) (ref : string)
    : IO (list parser.ParsedProfile.t * list parser.ParseError.t) :=
  let resolved := Join w dir ref in
  match (if strNe repoRoot "" then safePath repoRoot resolved else None) with
  | Some err => mret (st.1, st.2 ++ [newParseError path err])
  | None =>
      name ← extractProfileName resolved;
      let name := if String.eqb name "" then profileNameFromFilename resolved else name in
      mret (st.1 ++ [parser.ParsedProfile.mk resolved name platform path], st.2)
  end.

(** The part of [parseTeamFile] after the raw file has been decoded and its
    name checked. *)
Definition resolveTeam (path : string) (raw : parser.rawTeamFile.t)
    (errs : list parser.ParseError.t)
    : IO (parser.ParsedTeam.t * list parser.ParseError.t) :=
  let dir := Dir w path in
  '(policies, errs) ←
    forEach (policyRefStep dir path) (parser.rawTeamFile.Policies raw) ([], errs);
  '(queries, errs) ←
    forEach (queryRefStep dir path) (parser.rawTeamFile.Queries raw) ([], errs);
  '(packages, errs, _) ←
    forEach (packageRefStep dir path) (parser.rawTeamFile.Packages raw) ([], errs, ∅);
  '(profiles, errs) ←
    forEach (profileRefStep dir path "darwin")
      (parser.rawTeamFile.MacOSCustomSettings raw) ([], errs);
  '(profiles, errs) ←
    forEach (profileRefStep dir path "windows")
      (parser.rawTeamFile.WindowsCustomSettings raw) (profiles, errs);
  mret (parser.ParsedTeam.mk (parser.rawTeamFile.Name raw) policies queries
          (parser.ParsedSoftware.mk packages
             (parser.rawTeamFile.FleetMaintained raw)
             (parser.rawTeamFile.AppStoreApps raw))
          profiles path, errs).

(** [None] is the nil team. *)
Definition parseTeamFile (path : string)
    : IO (option parser.ParsedTeam.t * list parser.ParseError.t) :=
  data ← readFile path;
  match data with
  | Err err => mret (None, [newParseError path ("could not read: " +:+ err)])
  | Ok data =>
      match decodeTopLevelKeys w data with
      | Err err => mret (None, [newParseError path ("invalid YAML: " +:+ err)])
      | Ok keys =>
          let errs := unknownKeyErrors path keys in
          match decodeTeamFile w data with
          | Err err => mret (None, [newParseError path ("YAML parse error: " +:+ err)])
          | Ok raw =>
              if String.eqb (parser.rawTeamFile.Name raw) "" then
                mret (None, errs ++ [newParseError path "missing required 'name' field"])
              else
                r ← resolveTeam path raw errs;
                mret (Some r.1, r.2)
          end
      end
  end.

Definition setLabelSource (resolved : string) (l : parser.ParsedLabel.t)
    : parser.ParsedLabel.t :=
  parser.ParsedLabel.mk
    (parser.ParsedLabel.Name l) (parser.ParsedLabel.Description l)
    (parser.ParsedLabel.Query l) (parser.ParsedLabel.Platform l)
    (parser.ParsedLabel.LabelMembershipType l) resolved.

Definition labelRefStep (dir path : string)
    (st : list parser.ParsedLabel.t * list parser.ParseError.t) (ref : string)
    : IO (list parser.ParsedLabel.t * list parser.ParseError.t) :=
  if String.eqb ref "" then mret st
  else
    let resolved := Join w dir ref in
    match (if strNe repoRoot "" then safePath repoRoot resolved else None) with
    | Some err => mret (st.1, st.2 ++ [newParseError path err])
    | None =>
        fileData ← readFile resolved;
        match fileData with
        | Err err =>
            mret (st.1, st.2 ++ [newParseError path
                    ("label path reference " +:+ Quote ref +:+ ": " +:+ err)])
        | Ok fileData =>
            match decodeLabelList w fileData with
            | Err err =>
                mret (st.1, st.2 ++ [newParseError resolved ("YAML parse error: " +:+ err)])
            | Ok items => mret (st.1 ++ (setLabelSource resolved <$> items), st.2)
            end
        end
    end.

(** [rawMap[key]] asserted to be a map. *)
Definition sectionOf (rawMap : cfgmap) (key : string) : option cfgmap :=
  match cfgLookup key rawMap with
  | Some (AMap m) => Some m
  | _ => None
  end.

(** [None] is the nil result. *)
Definition parseDefaultFile (path : string)
    : IO (option (parser.ParsedGlobal.t * list parser.ParsedLabel.t)
          * list parser.ParseError.t) :=
  data ← readFile path;
  match data with
  | Err err => mret (None, [newParseError path ("could not read: " +:+ err)])
  | Ok data =>
      match decodeDefaultMap w data with
      | Err err => mret (None, [newParseError path ("YAML parse error: " +:+ err)])
      | Ok rawMap =>
          match decodeDefaultRefs w data with
          | Err err => mret (None, [newParseError path ("YAML parse error: " +:+ err)])
          | Ok (labelRefs, policyRefs, queryRefs) =>
              let dir := Dir w path in
              '(policies, errs) ← forEach (policyRefStep dir path) policyRefs ([], []);
              '(queries, errs) ← forEach (queryRefStep dir path) queryRefs ([], errs);
              '(labels, errs) ← forEach (labelRefStep dir path) labelRefs ([], errs);
              mret (Some (parser.ParsedGlobal.mk
                            (sectionOf rawMap "org_settings")
                            (sectionOf rawMap "agent_options")
                            (sectionOf rawMap "controls")
                            policies queries path, labels), errs)
          end
      end
  end.

(** The body of the loop over the entries of [teams/]. *)
Definition teamEntryStep (teamsDir teamFilter : string) (repo : parser.ParsedRepo.t)
    (entry : string * bool) : IO parser.ParsedRepo.t :=
  let '(name, isDir) := entry in
  if isDir || negb (HasSuffix name ".yml") then mret repo
  else
    r ← parseTeamFile (Join w teamsDir name);
    let repo :=
      parser.ParsedRepo.mk (parser.ParsedRepo.Teams repo) (parser.ParsedRepo.Labels repo)
        (parser.ParsedRepo.Global repo) (parser.ParsedRepo.Errors repo ++ r.2) in
    match r.1 with
    | None => mret repo
    | Some team =>
        if strNe teamFilter "" && negb (EqualFold (parser.ParsedTeam.Name team) teamFilter)
        then mret repo
        else mret (parser.ParsedRepo.mk (parser.ParsedRepo.Teams repo ++ [team])
                     (parser.ParsedRepo.Labels repo) (parser.ParsedRepo.Global repo)
                     (parser.ParsedRepo.Errors repo))
    end.

(** [ParseRepo(root, teamFilter, defaultFile)], for [root = repoRoot]. *)
Definition ParseRepo (teamFilter defaultFile : string) : IO (result parser.ParsedRepo.t) :=
  let repo := parser.ParsedRepo.mk [] [] None [] in
  let teamsDir := Join w repoRoot "teams" in
  match ReadDir w teamsDir with
  | DirNotExist =>
      mret (Ok (parser.ParsedRepo.mk [] [] None
                  [newParseError teamsDir
                     "teams/ directory not found. Are you in a fleet-gitops repo?"]))
  | DirError err => mret (Err ("reading teams directory: " +:+ err))
  | DirEntries entries =>
      repo ← forEach (teamEntryStep teamsDir teamFilter) entries repo;
      let resolvedDefault :=
        if String.eqb defaultFile "" then Join w repoRoot "default.yml" else defaultFile in
      match StatSize w resolvedDefault with
      | Err _ => mret (Ok repo)
      | Ok _ =>
          r ← parseDefaultFile resolvedDefault;
          let errors := parser.ParsedRepo.Errors repo ++ r.2 in
          match r.1 with
          | Some (g, labels) =>
              mret (Ok (parser.ParsedRepo.mk (parser.ParsedRepo.Teams repo) labels
                          (Some g) errors))
          | None =>
              mret (Ok (parser.ParsedRepo.mk (parser.ParsedRepo.Teams repo)
                          (parser.ParsedRepo.Labels repo) (parser.ParsedRepo.Global repo)
                          errors))
          end
      end
  end.

End Loader.

(** ** Instances of the library functions for ASCII text

    Used to run the engine on concrete inputs: on ASCII text they agree
    with [strings.ToLower] and [strings.EqualFold]; [plainQuote] is [%q] on
    text that needs no escaping. *)

Definition asciiLowerByte (c : ascii) : ascii :=
  let n := nat_of_ascii c in
  if Nat.leb 65 n && Nat.leb n 90 then ascii_of_nat (n + 32) else c.

Definition asciiToLower (s : string) : string := l2s (map asciiLowerByte (s2l s)).

Definition asciiEqualFold (a b : string) : bool :=
  String.eqb (asciiToLower a) (asciiToLower b).

Definition plainQuote (s : string) : string := dq +:+ s +:+ dq.

Definition noMapPrinter (m : cfgmap) : string := "map[]".

(** The key sets of the claims. *)
Definition bucketKeys (l : list ResourceChange) : gset string :=
  list_to_set (Name <$> l).

Definition policyKeys (l : list api.Policy.t) : gset string :=
  list_to_set (api.Policy.Name <$> l).

Definition proposedPolicyKeys (l : list parser.ParsedPolicy.t) : gset string :=
  list_to_set (parser.ParsedPolicy.Name <$> l).

Definition queryKeys (l : list api.Query.t) : gset string :=
  list_to_set (api.Query.Name <$> l).

Definition proposedQueryKeys (l : list parser.ParsedQuery.t) : gset string :=
  list_to_set (parser.ParsedQuery.Name <$> l).

Definition profileKeys (l : list api.Profile.t) : gset string :=
  list_to_set (api.Profile.Name <$> l).

Definition proposedProfileKeys (l : list parser.ParsedProfile.t) : gset string :=
  list_to_set (parser.ParsedProfile.Name <$> l).

(** ** The buckets in closed form

    What each loop appends for one element; the buckets are these, mapped
    over the input lists. *)

Definition addedPolicy (currentMap : gmap string api.Policy.t)
    (p : parser.ParsedPolicy.t) : option ResourceChange :=
  match currentMap !! parser.ParsedPolicy.Name p with
  | None => Some (mkResourceChange (parser.ParsedPolicy.Name p) (policyAddedFields p) 0 "")
  | Some _ => None
  end.

Definition modifiedPolicy (currentMap : gmap string api.Policy.t)
    (p : parser.ParsedPolicy.t) : option ResourceChange :=
  match currentMap !! parser.ParsedPolicy.Name p with
  | None => None
  | Some cur =>
      if decide (0 < size (policyChangedFields cur p))
      then Some (mkResourceChange (parser.ParsedPolicy.Name p)
                   (policyChangedFields cur p) (policyHosts cur) "")
      else None
  end.

Definition deletedPolicy (proposedNames : gset string) (cur : api.Policy.t)
    : option ResourceChange :=
  if decide (api.Policy.Name cur ∈ proposedNames) then None
  else Some (mkResourceChange (api.Policy.Name cur) ∅ (policyHosts cur)
               (deleteWarning (policyHosts cur))).

Definition addedQuery (currentMap : gmap string api.Query.t)
    (q : parser.ParsedQuery.t) : option ResourceChange :=
  match currentMap !! parser.ParsedQuery.Name q with
  | None => Some (mkResourceChange (parser.ParsedQuery.Name q) (queryAddedFields q) 0 "")
  | Some _ => None
  end.

Definition modifiedQuery (currentMap : gmap string api.Query.t)
    (q : parser.ParsedQuery.t) : option ResourceChange :=
  match currentMap !! parser.ParsedQuery.Name q with
  | None => None
  | Some cur =>
      if decide (0 < size (queryChangedFields cur q))
      then Some (mkResourceChange (parser.ParsedQuery.Name q)
                   (queryChangedFields cur q) 0 "")
      else None
  end.

Definition deletedQuery (proposedNames : gset string) (cur : api.Query.t)
    : option ResourceChange :=
  if decide (api.Query.Name cur ∈ proposedNames) then None
  else Some (mkResourceChange (api.Query.Name cur) ∅ 0 "").

Definition addedProfile (currentMap : gmap string api.Profile.t)
    (p : parser.ParsedProfile.t) : option ResourceChange :=
  match currentMap !! parser.ParsedProfile.Name p with
  | None => Some (mkResourceChange (parser.ParsedProfile.Name p) (profileAddedFields p) 0 "")
  | Some _ => None
  end.

Definition deletedProfile (proposedNames : gset string) (cur : api.Profile.t)
    : option ResourceChange :=
  if decide (api.Profile.Name cur ∈ proposedNames) then None
  else Some (mkResourceChange (api.Profile.Name cur) ∅ 0 "").

(** The warnings of [diffProfiles], given the names seen so far. *)
Fixpoint profileWarnings (Quote : string -> string) (seen : gset string)
    (l : list parser.ParsedProfile.t) : list string :=
  match l with
  | [] => []
  | p :: rest =>
      (if decide (parser.ParsedProfile.Name p ∈ seen)
       then [duplicateProfileWarning Quote p] else [])
      ++ profileWarnings Quote ({[parser.ParsedProfile.Name p]} ∪ seen) rest
  end.

(** The partition of the keys of one collection: [R] are the remote keys,
    [P] the proposed ones. *)
Definition partitions (R P : gset string) (d : ResourceDiff) : Prop :=
  bucketKeys (Added d) ## bucketKeys (Modified d)
  /\ bucketKeys (Added d) ## bucketKeys (Deleted d)
  /\ bucketKeys (Modified d) ## bucketKeys (Deleted d)
  /\ bucketKeys (Added d) = P ∖ R
  /\ bucketKeys (Deleted d) = R ∖ P
  /\ bucketKeys (Modified d) ⊆ R ∩ P.

Definition allKeys (d : ResourceDiff) : gset string :=
  bucketKeys (Added d) ∪ bucketKeys (Modified d) ∪ bucketKeys (Deleted d).

(** ** Concrete inputs *)


Definition mkProposedPolicy (name query : string) : parser.ParsedPolicy.t :=
  parser.ParsedPolicy.mk name "" "" query "darwin" false [] [] "".



(** Two new policies, declared in the order [B], [A]. *)
Definition exUnsortedPolicies : list parser.ParsedPolicy.t :=
  [mkProposedPolicy "B" "SELECT 1;"; mkProposedPolicy "A" "SELECT 1;"].

(** ** Free-text fields *)



















(** ** Configuration changes in closed form *)

(** The record that the loop body of [diffConfig] appends for one leaf, if
    any. *)
Definition leafChange (sprintMap : cfgmap -> string) (section : string)
    (apiSection : option cfgmap) (kv : string * string) : option ConfigChange :=
  if containsEnvVar kv.2 then None
  else
    match apiSection with
    | None => Some (mkConfigChange section kv.1 "" kv.2)
    | Some apiSection =>
        let apiVal := getNestedValue sprintMap apiSection kv.1 in
        if strNe apiVal kv.2 then Some (mkConfigChange section kv.1 apiVal kv.2)
        else None
    end.

(** The proposed sections, as [diffConfig] lists them. *)
Definition proposedSections (g : parser.ParsedGlobal.t) : list (string * option cfgmap) :=
  [("org_settings", parser.ParsedGlobal.OrgSettings g);
   ("agent_options", parser.ParsedGlobal.AgentOptions g);
   ("controls", parser.ParsedGlobal.Controls g)].

(** A record comes from a leaf of a proposed section. *)
Definition fromLeaf (g : parser.ParsedGlobal.t) (c : ConfigChange) : Prop :=
  exists m, (CfgSection c, Some m) ∈ proposedSections g
            /\ (Key c, CfgNew c) ∈ flattenMap m "".

(** A proposed server URL that is a placeholder, and an organization name
    that differs from the remote one. *)
Definition exProposedGlobal : parser.ParsedGlobal.t :=
  parser.ParsedGlobal.mk
    (Some [("org_info", AMap [("org_name", AVal "Acme")]);
           ("server_settings", AMap [("server_url", AVal "$FLEET_URL")])])
    None None [] [] "default.yml".

Definition exApiConfig : option cfgmap :=
  Some [("org_info", AMap [("org_name", AVal "Old")]);
        ("server_settings", AMap [("server_url", AVal "https://fleet.example.com")])].

(** A proposed section in which two leaves flatten to the key [a.b]: the
    one of the key [a.b] itself, a placeholder, and the one of the key [b]
    of the map [a]. *)
Definition exDottedGlobal : parser.ParsedGlobal.t :=
  parser.ParsedGlobal.mk
    (Some [("a.b", AVal "$SECRET"); ("a", AMap [("b", AVal "v")])])
    None None [] [] "default.yml".

Definition exDottedApiConfig : option cfgmap :=
  Some [("a", AMap [("b", AVal "old")])].

(** A proposed team that the remote side does not have, with one resource
    of every kind. *)
Definition exNewTeam : parser.ParsedTeam.t :=
  parser.ParsedTeam.mk "Mobile"
    [mkProposedPolicy "Passcode" "SELECT 1;"]
    [parser.ParsedQuery.mk "Battery" "SELECT 2;" 3600 "darwin" "snapshot" ""]
    (parser.ParsedSoftware.mk
       [parser.ParsedSoftwarePackage.mk "https://example.com/agent.pkg" "" false
          "/repo/software/agent.yml" "software/agent.yml"]
       [parser.ParsedFleetApp.mk "zoom/darwin" true]
       [parser.ParsedAppStoreApp.mk "111" true])
    [parser.ParsedProfile.mk "/repo/profiles/wifi.mobileconfig" "wifi" "darwin"
       "/repo/teams/mobile.yml"]
    "/repo/teams/mobile.yml".

Definition exNoTeams : api.FleetState.t := api.FleetState.mk [] [] [] None [] [].

Definition exNewTeamRepo : parser.ParsedRepo.t :=
  parser.ParsedRepo.mk [exNewTeam] [] None [].

(** What the two loops of [diffKeyed] append for one map entry. *)
Definition keyedAdded {C P : Type} (current : gmap string C)
    (added : string -> P -> ResourceChange) (kp : string * P) : option ResourceChange :=
  match current !! kp.1 with
  | None => Some (added kp.1 kp.2)
  | Some _ => None
  end.

Definition keyedModified {C P : Type} (current : gmap string C)
    (modified : string -> C -> P -> option ResourceChange) (kp : string * P)
    : option ResourceChange :=
  match current !! kp.1 with
  | None => None
  | Some cur => modified kp.1 cur kp.2
  end.

Definition keyedDeleted {C P : Type} (proposed : gmap string P)
    (deleted : string -> ResourceChange) (kc : string * C) : option ResourceChange :=
  match proposed !! kc.1 with
  | Some _ => None
  | None => Some (deleted kc.1)
  end.

(** The inference yields a record whose key is [k]. *)
Definition reconstructs (ToLower : string -> string) (EqualFold : string -> string -> bool)
    (team : api.Team.t) (catalog : list api.FleetMaintainedApp.t) (k : string) : Prop :=
  exists title app,
    title ∈ api.Team.SoftwareTitles team
    /\ inferTitle ToLower EqualFold
         (customPackageURLs ToLower (api.TeamSoftware.Packages (api.Team.Software team)))
         (catalogByNamePlatform ToLower catalog) title = Some app
    /\ normalizeSoftwarePath ToLower (api.TeamFleetApp.Slug app) = k.

(** A remote team whose fleet-maintained list is null, with two software
    titles: Zoom, which two catalog entries match, and Slack, which one
    entry matches. *)
Definition mkTitle (name : string) : api.SoftwareTitle.t :=
  api.SoftwareTitle.mk 0 name "apps" 0 None
    (Some (api.SoftwareTitlePackageMeta.mk (name +:+ ".pkg") "" false "darwin")).

Definition exInferTeam : api.Team.t :=
  api.Team.mk 1 "Workstations" (api.TeamSoftware.mk [] None []) [] [] []
    [mkTitle "Zoom"; mkTitle "Slack"].

Definition exCatalog : list api.FleetMaintainedApp.t :=
  [api.FleetMaintainedApp.mk 1 0 "zoom/darwin" "Zoom" "darwin";
   api.FleetMaintainedApp.mk 2 0 "zoom-alt/darwin" "Zoom" "darwin";
   api.FleetMaintainedApp.mk 3 0 "slack/darwin" "Slack" "darwin"].

Definition exInferState : api.FleetState.t :=
  api.FleetState.mk [exInferTeam] [] exCatalog None [] [].

Definition exInferProposed : parser.ParsedTeam.t :=
  parser.ParsedTeam.mk "Workstations" [] []
    (parser.ParsedSoftware.mk []
       [parser.ParsedFleetApp.mk "zoom/darwin" true;
        parser.ParsedFleetApp.mk "slack/darwin" false] [])
    [] "/repo/teams/workstations.yml".

Definition exInferResult : DiffResult :=
  teamResult asciiToLower asciiEqualFold plainQuote exInferState
    (teamIndex [exInferTeam]) ∅ exInferProposed.

(** ** A small file system for the examples

    Paths are absolute and there are no symbolic links; [filepath.Join]
    cleans the joined path as Go does for such paths. *)

Fixpoint splitOn (sep : ascii) (cur : bytes) (s : bytes) : list string :=
  match s with
  | [] => [l2s cur]
  | c :: r =>
      if Ascii.eqb c sep then l2s cur :: splitOn sep [] r
      else splitOn sep (cur ++ [c]) r
  end.

Definition cleanAbs (p : string) : string :=
  let step (stack : list string) (comp : string) : list string :=
    if String.eqb comp "" || String.eqb comp "." then stack
    else if String.eqb comp ".." then tail stack
    else comp :: stack in
  let comps := rev (foldl step [] (splitOn "/" [] (s2l p))) in
  match comps with
  | [] => "/"
  | _ => foldl (fun acc comp => acc +:+ "/" +:+ comp) "" comps
  end.

Definition dirOf (p : string) : string :=
  cleanAbs (p +:+ "/..").

Fixpoint lookupFile (files : list (string * string)) (p : string) : result string :=
  match files with
  | [] => Err ("open " +:+ p +:+ ": no such file or directory")
  | (name, content) :: rest =>
      if String.eqb name p then Ok content else lookupFile rest p
  end.

Definition unsupported {A : Type} (data : string) : result A := Err "cannot unmarshal".

(** The world of the examples: its files, and what the YAML decoder makes
    of the team file, of a policy file and of a package file. *)
Definition exampleWorld (files : list (string * string))
    (teamOf : string -> result parser.rawTeamFile.t)
    (policiesOf : string -> result (list parser.ParsedPolicy.t))
    (packageOf : string -> result parser.ParsedSoftwarePackage.t) : World :=
  mkWorld
    (fun p => Ok (cleanAbs p))
    (fun p => match lookupFile files p with Ok _ => Ok p | Err e => Err e end)
    (lookupFile files)
    (fun p => match lookupFile files p with
              | Ok c => Ok (N.of_nat (String.length c))
              | Err e => Err e
              end)
    (fun _ => DirNotExist)
    (fun dir ref => cleanAbs (dir +:+ "/" +:+ ref))
    dirOf
    (fun root p => Ok (TrimPrefix p (root +:+ "/")))
    (fun p => p)
    (fun _ => Ok ["name"; "policies"; "software"; "controls"])
    teamOf policiesOf unsupported unsupported unsupported packageOf
    unsupported unsupported unsupported.

Definition exRawTeam (policies : list string) (packages : list parser.rawSoftwareRef.t)
    (profiles : list string) : parser.rawTeamFile.t :=
  parser.rawTeamFile.mk "Workstations" policies [] packages [] [] profiles [] [].

(** The canonical references, other than the empty one, of a package
    list. *)
Definition refPaths (pkgs : list parser.ParsedSoftwarePackage.t) : list string :=
  filter (fun r => r <> "") (parser.ParsedSoftwarePackage.RefPath <$> pkgs).

(** The invariant of the loop over the package references: the
    references kept are pairwise distinct and [seenSoftwareRefs] is their
    set. *)
Definition packageInv (st : packageState) : Prop :=
  NoDup (refPaths st.1.1) /\ st.2 = list_to_set (refPaths st.1.1).

(** A team file whose one policy file declares two policies named [X]. *)
Definition exDuplicateWorld : World :=
  exampleWorld
    [("/repo/teams/t.yml", "team"); ("/repo/policies/p.yml", "policies")]
    (fun _ => Ok (exRawTeam ["../policies/p.yml"] [] []))
    (fun _ => Ok [mkProposedPolicy "X" "SELECT 1;"; mkProposedPolicy "X" "SELECT 2;"])
    unsupported.

(** A team file that refers twice to one package file, as in
    [TestParseRepoDuplicateSoftwareRefs]. *)
Definition exDupRef (selfService : bool) : parser.rawSoftwareRef.t :=
  parser.rawSoftwareRef.mk "../software/app.yml" (Some selfService).

Definition exPackage : parser.ParsedSoftwarePackage.t :=
  parser.ParsedSoftwarePackage.mk "https://downloads.example.com/app.msi" "" false "" "".

Definition exDupSoftwareWorld : World :=
  exampleWorld
    [("/repo/teams/t.yml", "team"); ("/repo/software/app.yml", "package")]
    (fun _ => Ok (exRawTeam [] [exDupRef true; exDupRef false] []))
    unsupported
    (fun _ => Ok exPackage).

(** The state of the package loop after the first of the two references,
    and the package that the second one resolves to. *)
Definition exAfterFirstRef : packageState :=
  (forEach (packageRefStep plainQuote exDupSoftwareWorld "/repo" "/repo/teams"
              "/repo/teams/t.yml") [exDupRef true] ([], [], ∅) []).1.

Definition exResolvedPackage : parser.ParsedSoftwarePackage.t :=
  parser.ParsedSoftwarePackage.mk "https://downloads.example.com/app.msi" "" false
    "/repo/software/app.yml" "".

(** [path] is the root or lies below it. *)
Definition descendant (root path : string) : Prop :=
  path = root \/ exists rest, path = root +:+ "/" +:+ rest.

(** A repository at [/repo] whose team file refers to a file outside of
    it, which exists, and to a policy file inside of it. *)
Definition exEscapeWorld : World :=
  exampleWorld
    [("/repo/teams/t.yml", "team"); ("/etc/passwd", "root:x:0:0");
     ("/repo/policies/p.yml", "policies")]
    (fun _ => Ok (exRawTeam ["../../etc/passwd"; "../policies/p.yml"] [] []))
    (fun _ => Ok [mkProposedPolicy "X" "SELECT 1;"])
    unsupported.

(** ** The display-name marker, position by position *)

(** The values that [valueAfter] finds after the textual occurrences of
    the marker, from left to right. *)
Fixpoint markerValues (s : bytes) : list bytes :=
  match s with
  | [] => []
  | _ :: r =>
      (if Text.hasPrefix s (s2l needle)
       then option_list (valueAfter (drop (String.length needle) s)) else [])
      ++ markerValues r
  end.

(** The text after the last textual occurrence of the marker. *)
Fixpoint afterLastMarker (s : bytes) : option bytes :=
  match s with
  | [] => None
  | _ :: r =>
      match afterLastMarker r with
      | Some rest => Some rest
      | None =>
          if Text.hasPrefix s (s2l needle)
          then Some (drop (String.length needle) s) else None
      end
  end.

(** A profile whose top-level display name is separated from its key by
    an XML comment. *)
Definition exCommentedPlist : string :=
  "<plist><dict><key>PayloadContent</key><array><dict>"
  +:+ "<key>PayloadDisplayName</key><string>Inner</string></dict></array>"
  +:+ "<key>PayloadDisplayName</key><!-- label --><string>Top</string>"
  +:+ "</dict></plist>".

Definition exProfileWorld : World :=
  exampleWorld
    [("/repo/teams/t.yml", "team"); ("/repo/profiles/wifi.mobileconfig", exCommentedPlist)]
    (fun _ => Ok (exRawTeam [] [] ["../profiles/wifi.mobileconfig"]))
    unsupported unsupported.

(** A remote team with a null list, no titles and no catalog, and a
    proposed team that declares one app with a blank slug. *)
Definition exBlankTeam : api.Team.t :=
  api.Team.mk 1 "Workstations" (api.TeamSoftware.mk [] None []) [] [] [] [].

Definition exBlankState : api.FleetState.t :=
  api.FleetState.mk [exBlankTeam] [] [] None [] [].

Definition exBlankProposed : parser.ParsedTeam.t :=
  parser.ParsedTeam.mk "Workstations" [] []
    (parser.ParsedSoftware.mk [] [parser.ParsedFleetApp.mk "" true] [])
    [] "/repo/teams/workstations.yml".

Definition exBlankResult : DiffResult :=
  teamResult asciiToLower asciiEqualFold plainQuote exBlankState
    (teamIndex [exBlankTeam]) ∅ exBlankProposed.

(** ** Inputs of the repository's tests *)

Definition nl : string := String "010" "".
Definition tab : string := String "009" "".

Definition remoteTeam (software : api.TeamSoftware.t) (policies : list api.Policy.t)
    (titles : list api.SoftwareTitle.t) : api.Team.t :=
  api.Team.mk 1 "Workstations" software policies [] [] titles.

Definition proposedTeam (software : parser.ParsedSoftware.t)
    (policies : list parser.ParsedPolicy.t) : parser.ParsedTeam.t :=
  parser.ParsedTeam.mk "Workstations" policies [] software [] "".

(** [Diff] with the ASCII instances, for one team on each side. *)
Definition diffOneTeam (current : api.Team.t)
    (catalog : list api.FleetMaintainedApp.t) (proposed : parser.ParsedTeam.t)
    : list DiffResult :=
  Diff asciiToLower asciiEqualFold plainQuote noMapPrinter
    (api.FleetState.mk [current] [] catalog None [] [])
    (parser.ParsedRepo.mk [proposed] [] None []) "".

(** [Diff] with the ASCII instances, for the [org_settings] section alone. *)
Definition diffOrgSettings (apiConfig proposedOrg : cfgmap) : list (list ConfigChange) :=
  Config <$>
    Diff asciiToLower asciiEqualFold plainQuote noMapPrinter
      (api.FleetState.mk [] [] [] (Some apiConfig) [] [])
      (parser.ParsedRepo.mk [] []
         (Some (parser.ParsedGlobal.mk (Some proposedOrg) None None [] [] "")) [])
      "".


(** ** Whitespace of a normalized text *)

(** No byte of the class [\s] other than single spaces: [prev] says that
    the byte before [s] is a space. *)
Fixpoint collapsed (prev : bool) (s : bytes) : bool :=
  match s with
  | [] => true
  | c :: r =>
      if Text.reSpace c
      then Ascii.eqb c " " && negb prev && collapsed true r
      else collapsed false r
  end.

(** The methods [IsEmpty] and [Total] of [ResourceDiff]. *)
Module ResourceDiffs.

Definition IsEmpty (d : ResourceDiff) : bool :=
  Nat.eqb (length (Added d)) 0 && Nat.eqb (length (Modified d)) 0
  && Nat.eqb (length (Deleted d)) 0.

Definition Total (d : ResourceDiff) : nat :=
  length (Added d) + length (Modified d) + length (Deleted d).

End ResourceDiffs.
(** ** A resource that is the same on both sides *)

(** The comparisons of [diffPolicies] for a matched pair all come out
    equal. *)
Definition policyUnchanged (cur : api.Policy.t) (p : parser.ParsedPolicy.t) : Prop :=
  normalizeWS (api.Policy.Query cur) = normalizeWS (parser.ParsedPolicy.Query p)
  /\ normalizeWS (api.Policy.Description cur)
     = normalizeWS (parser.ParsedPolicy.Description p)
  /\ normalizeWS (api.Policy.Resolution cur)
     = normalizeWS (parser.ParsedPolicy.Resolution p)
  /\ api.Policy.Platform cur = parser.ParsedPolicy.Platform p
  /\ api.Policy.Critical cur = parser.ParsedPolicy.Critical p.

(** The same for [diffQueries]: a proposed query that leaves [logging]
    unset is not compared on it. *)
Definition queryUnchanged (cur : api.Query.t) (q : parser.ParsedQuery.t) : Prop :=
  normalizeWS (api.Query.Query cur) = normalizeWS (parser.ParsedQuery.Query q)
  /\ api.Query.Interval cur = parser.ParsedQuery.Interval q
  /\ api.Query.Platform cur = parser.ParsedQuery.Platform q
  /\ (api.Query.Logging cur = parser.ParsedQuery.Logging q
      \/ parser.ParsedQuery.Logging q = "").

(** ** The teams that [Diff] reports *)

(** The test of the loop over the proposed teams: no filter, or a name
    that matches it. *)
Definition teamSelected (EqualFold : string -> string -> bool) (teamFilter : string)
    (t : parser.ParsedTeam.t) : bool :=
  negb (strNe teamFilter "" && negb (EqualFold (parser.ParsedTeam.Name t) teamFilter)).

(** The labels that the policy [p] refers to, in the order in which
    [validateLabels] checks them. *)
Definition policyLabels (p : parser.ParsedPolicy.t) : list string :=
  parser.ParsedPolicy.LabelsIncludeAny p ++ parser.ParsedPolicy.LabelsExcludeAny p.

Definition labelNames (v : LabelValidation) : list string :=
  LabelName <$> (Valid v ++ Missing v).

(** The invariant of the loops of [validateLabels]: [seen] holds the
    names reported so far, no name is reported twice, and every entry is
    right; [ok name referencedBy] is what an entry is checked against. *)
Definition labelInv (labelMap : gmap string api.Label.t) (ok : string -> string -> Prop)
    (st : LabelValidation * gset string) : Prop :=
  st.2 = list_to_set (labelNames st.1)
  /\ NoDup (labelNames st.1)
  /\ Forall (fun r => exists l, labelMap !! LabelName r = Some l
                                /\ LabelHostCount r = api.Label.HostCount l) (Valid st.1)
  /\ Forall (fun r => labelMap !! LabelName r = None /\ LabelHostCount r = 0%N)
       (Missing st.1)
  /\ Forall (fun r => ok (LabelName r) (ReferencedBy r)) (Valid st.1 ++ Missing st.1).

(** The label is referred to by a changed policy of the team. *)
Definition labelOf (team : parser.ParsedTeam.t) (changed : gset string)
    (name referencedBy : string) : Prop :=
  exists p, p ∈ parser.ParsedTeam.Policies team
            /\ parser.ParsedPolicy.Name p = referencedBy
            /\ referencedBy ∈ changed
            /\ name ∈ policyLabels p.
(** ** Configuration trees with plain keys *)

(** A key that [flattenMap] joins and [getNestedValue] splits again
    without loss: it is not empty and holds no dot. *)
Definition plainKey (k : string) : bool :=
  strNe k "" && negb (existsb (fun c => Ascii.eqb c "."%char) (s2l k)).

(** Every map of the tree has plain keys, each of them once (as a Go map
    has). *)
Fixpoint plainKeys (v : any) : bool :=
  match v with
  | AVal _ => true
  | AMap m =>
      bool_decide (NoDup m.*1)
      && (fix go (m : cfgmap) : bool :=
            match m with
            | [] => true
            | (k, v') :: rest => plainKey k && plainKeys v' && go rest
            end) m
  end.

(** ** Validation helpers of the loader *)

(** The keys of the map [ValidPlatforms]. *)
Definition ValidPlatforms : list string := ["darwin"; "windows"; "linux"; "chrome"].

(** The keys of the map [ValidLogging]. *)
Definition ValidLogging : list string :=
  ["snapshot"; "differential"; "differential_ignore_removals"].

(** [strings.Split(s, ",")]. *)
Definition splitComma (s : string) : list string := splitOn ","%char [] (s2l s).

(** One round of the loop of [ValidatePlatform]. *)
Definition platformStep (invalid : list string) (p : string) : list string :=
  let p := TrimSpace p in
  if strNe p "" && negb (bool_decide (p ∈ ValidPlatforms)) then invalid ++ [p]
  else invalid.

Definition ValidatePlatform (platform : string) : list string :=
  if String.eqb platform "" then []
  else foldl platformStep [] (splitComma platform).

Definition ValidateLogging (logging : string) : bool :=
  if String.eqb logging "" then true else bool_decide (logging ∈ ValidLogging).

(** [ParseError.Error]. *)
Module ParseErrors.

Definition Error (e : parser.ParseError.t) : string :=
  if Nat.ltb 0 (parser.ParseError.Line e)
  then parser.ParseError.File e +:+ ":"
       +:+ sprintUint (N.of_nat (parser.ParseError.Line e)) +:+ ": "
       +:+ parser.ParseError.Message e
  else parser.ParseError.File e +:+ ": " +:+ parser.ParseError.Message e.

End ParseErrors.

(** The extensions that [profileNameFromFilename] strips, in its order. *)
Definition profileExtensions : list string := [".mobileconfig"; ".json"; ".xml"].

(** What resolving one [path:] reference comes to: the items of the file
    [resolved], which has been read, each with that file as its source;
    or no item and one error, against the referring file or against
    [resolved], after at most that one read. *)
Definition refOutcome {A : Type} (src : A -> string) (parentFile resolved : string)
    (log : list string) (r : (list A * list parser.ParseError.t) * list string) : Prop :=
  (r.1.2 = [] /\ Forall (fun x => src x = resolved) r.1.1 /\ r.2 = log ++ [resolved])
  \/ (r.1.1 = []
      /\ (exists e, r.1.2 = [e] /\ parser.ParseError.Line e = 0
                    /\ (parser.ParseError.File e = parentFile
                        \/ parser.ParseError.File e = resolved))
      /\ (r.2 = log \/ r.2 = log ++ [resolved])).

(** An error without a line number. *)
Definition noLine (e : parser.ParseError.t) : Prop := parser.ParseError.Line e = 0.

(** A team that [ParseRepo] keeps: it has a name, the name passes the
    team filter, and the team comes from a [.yml] entry of [teams/]. *)
Definition keptTeam (EqualFold : string -> string -> bool) (w : World)
    (repoRoot teamFilter : string) (entries : list (string * bool))
    (t : parser.ParsedTeam.t) : Prop :=
  parser.ParsedTeam.Name t <> ""
  /\ (teamFilter = "" \/ EqualFold (parser.ParsedTeam.Name t) teamFilter = true)
  /\ exists entry,
       (entry, false) ∈ entries
       /\ HasSuffix entry ".yml" = true
       /\ parser.ParsedTeam.SourceFile t = Join w (Join w repoRoot "teams") entry.

(** A repository whose [teams/] directory lists a team file, a [.yaml]
    file and a directory; the team file refers to a policy file that
    exists and to one that does not. *)
Definition exTeamsWorld : World :=
  let w := exampleWorld
             [("/repo/teams/a.yml", "team"); ("/repo/teams/notes.yaml", "team");
              ("/repo/policies/p.yml", "policies")]
             (fun _ => Ok (exRawTeam ["../policies/p.yml"; "../policies/missing.yml"] [] []))
             (fun _ => Ok [mkProposedPolicy "X" "SELECT 1;"])
             unsupported in
  mkWorld (Abs w) (EvalSymlinks w) (ReadFile w) (StatSize w)
    (fun dir =>
       if String.eqb dir "/repo/teams"
       then DirEntries [("a.yml", false); ("notes.yaml", false); ("sub.yml", true)]
       else DirNotExist)
    (Join w) (Dir w) (Rel w) (Clean w) (decodeTopLevelKeys w) (decodeTeamFile w)
    (decodePolicyList w) (decodePolicy w) (decodeQueryList w) (decodeQuery w)
    (decodePackage w) (decodeLabelList w) (decodeDefaultMap w) (decodeDefaultRefs w).

(** A profile with a nested and a top-level display name. *)
Definition exTwoNames : string :=
  "<plist><dict><key>PayloadContent</key><array><dict>"
  +:+ "<key>PayloadDisplayName</key><string>Inner</string></dict></array>"
  +:+ "<key>PayloadDisplayName</key>" +:+ nl +:+ tab +:+ "<string> Top </string>"
  +:+ "</dict></plist>".

(** ** Authentication ([internal/config]) *)

Module config.

Definition EnvURL : string := "FLEET_PLAN_URL".
Definition EnvToken : string := "FLEET_PLAN_TOKEN".
Definition ConfigRelPath : string := ".config/fleet-plan.json".

Module ResolvedAuth.
Record t := mk { URL : string; Token : string }.
End ResolvedAuth.

Module configFileContext.
Record t := mk { URL : string; Token : string }.
End configFileContext.

Module configFile.
Record t := mk {
  URL : string; Token : string;
  Contexts : gmap string configFileContext.t;
  DefaultContext : string }.
End configFile.

(** The zero value [configFile{}]. *)
Definition zeroConfig : configFile.t := configFile.mk "" "" ∅ "".

(** What [ResolveAuth] asks of its host: the environment, the home
    directory, the file system and the JSON decoder. *)
Module host.
Record t := mk {
  Getenv : string -> string;
  UserHomeDir : result string;
  ReadFile : string -> result string;
  Join : string -> string -> string;
  Unmarshal : string -> result configFile.t }.
End host.

(** [configFile.resolve]. *)
Definition resolve (c : configFile.t) : string * string :=
  if strNe (configFile.URL c) "" || strNe (configFile.Token c) ""
  then (configFile.URL c, configFile.Token c)
  else
    if strNe (configFile.DefaultContext c) "" then
      match configFile.Contexts c !! configFile.DefaultContext c with
      | Some ctx => (configFileContext.URL ctx, configFileContext.Token ctx)
      | None => ("", "")
      end
    else ("", "").

(** The read is logged, as the loader's reads are. *)
Definition loadConfigFile (h : host.t) (root : string) : IO configFile.t :=
  fun log =>
    let path := host.Join h root ConfigRelPath in
    (match host.ReadFile h path with
     | Err _ => zeroConfig
     | Ok data =>
         match host.Unmarshal h data with
         | Err _ => zeroConfig
         | Ok cfg => cfg
         end
     end, log ++ [path]).

(** The fallback of [findConfigAuth] to the home directory. *)
Definition homeConfigAuth (h : host.t) : IO (string * string) :=
  match host.UserHomeDir h with
  | Ok home => cfg ← loadConfigFile h home; mret (resolve cfg)
  | Err _ => mret ("", "")
  end.

(** [repoRoot] is the variadic parameter. *)
Definition findConfigAuth (h : host.t) (repoRoot : list string) : IO (string * string) :=
  match repoRoot with
  | root :: _ =>
      if strNe root "" then
        cfg ← loadConfigFile h root;
        let '(u, t) := resolve cfg in
        if strNe u "" || strNe t "" then mret (u, t) else homeConfigAuth h
      else homeConfigAuth h
  | [] => homeConfigAuth h
  end.

Definition urlRequired : string :=
  "Fleet server URL required (--url or $" +:+ EnvURL +:+ ")".

Definition tokenRequired : string :=
  "API token required (--token or $" +:+ EnvToken +:+ ")".

Definition ResolveAuth (h : host.t) (flagURL flagToken : string) (repoRoot : list string)
    : IO (result ResolvedAuth.t) :=
  let url := flagURL in
  let token := flagToken in
  let url := if String.eqb url "" then host.Getenv h EnvURL else url in
  let token := if String.eqb token "" then host.Getenv h EnvToken else token in
  '(url, token) ←
    (if String.eqb url "" || String.eqb token "" then
       '(cfgURL, cfgToken) ← findConfigAuth h repoRoot;
       mret (if String.eqb url "" then cfgURL else url,
             if String.eqb token "" then cfgToken else token)
     else mret (url, token));
  if String.eqb url "" then mret (Err urlRequired)
  else if String.eqb token "" then mret (Err tokenRequired)
  else mret (Ok (ResolvedAuth.mk url token)).

End config.

(** A host with a repository configuration that holds a URL only and a
    home configuration that holds both a URL and a token. *)
Definition exHost (env : string -> string) : config.host.t :=
  config.host.mk env (Ok "/home/u")
    (fun p => if String.eqb p "/repo/.config/fleet-plan.json" then Ok "repo"
              else if String.eqb p "/home/u/.config/fleet-plan.json" then Ok "home"
              else Err "no such file")
    (fun dir p => dir +:+ "/" +:+ p)
    (fun data =>
       if String.eqb data "repo"
       then Ok (config.configFile.mk "https://repo.example.com" "" ∅ "")
       else Ok (config.configFile.mk "" ""
                  (<["prod" := config.configFileContext.mk "https://home.example.com" "t0k"]> ∅)
                  "prod")).

Definition noEnv (name : string) : string := "".

Definition exEnv (name : string) : string :=
  if String.eqb name "FLEET_PLAN_TOKEN" then "env-token" else "".
(** ** Snippets of the terminal output

    A Go [int] is a [Z]: the sums below are bounded by twice the length of
    a string.  A slice expression that is out of range panics: [None]. *)

Module output.

Definition len (s : string) : Z := Z.of_nat (String.length s).

(** [s[lo:hi]]. *)
Definition slice (s : string) (lo hi : Z) : option string :=
  if (0 <=? lo)%Z && (lo <=? hi)%Z && (hi <=? len s)%Z
  then Some (l2s (take (Z.to_nat (hi - lo)) (drop (Z.to_nat lo) (s2l s))))
  else None.

Definition truncateToFit (s : string) (maxLen : Z) : option string :=
  let maxLen := if (maxLen <? 4)%Z then 4%Z else maxLen in
  if (len s <=? maxLen)%Z then Some s
  else chunk ← slice s 0 (maxLen - 3); Some (chunk +:+ "...").

(** The ellipsis that stands for a part of the text that is cut. *)
Definition ellipsis (cut : bool) : string := if cut then "..." else "".

(** The loop of [diffContext] that finds the first differing byte; the
    bound [minLen] is the end of the shorter list. *)
Fixpoint firstDiff (old new : bytes) : nat :=
  match old, new with
  | a :: old', b :: new' => if Ascii.eqb a b then S (firstDiff old' new') else 0
  | _, _ => 0
  end.

(** The closure [extract] of [diffContext]; [maxLen] and [start] are the
    variables that it captures. *)
Definition extract (maxLen start : Z) (s : string) : option string :=
  if (len s <=? maxLen)%Z then Some s
  else
    let end_ := (start + maxLen)%Z in
    let end_ := if (len s <? end_)%Z then len s else end_ in
    chunk ← slice s start end_;
    let prefix := if (0 <? start)%Z then "..." else "" in
    let suffix := if (end_ <? len s)%Z then "..." else "" in
    let avail := (maxLen - len prefix - len suffix)%Z in
    let avail := if (avail <? 4)%Z then 4%Z else avail in
    if (avail <? len chunk)%Z then
      chunk ← slice chunk 0 avail;
      let suffix := if (end_ <? len s)%Z then "..." else suffix in
      Some (prefix +:+ chunk +:+ suffix)
    else Some (prefix +:+ chunk +:+ suffix).

(** The start of the window of [diffContext], for the [maxLen] in force. *)
Definition windowStart (old new : string) (maxLen : Z) : Z :=
  let diffAt := Z.of_nat (firstDiff (s2l old) (s2l new)) in
  let contextBefore := (maxLen `quot` 4)%Z in
  let contextBefore := if (contextBefore <? 4)%Z then 4%Z else contextBefore in
  let start := (diffAt - contextBefore)%Z in
  if (start <? 0)%Z then 0%Z else start.

Definition diffContext (old new : string) (maxLen : Z) : option (string * string) :=
  let maxLen := if (maxLen <? 8)%Z then 8%Z else maxLen in
  if (len old <=? maxLen)%Z && (len new <=? maxLen)%Z then Some (old, new)
  else
    let start := windowStart old new maxLen in
    o ← extract maxLen start old;
    n ← extract maxLen start new;
    Some (o, n).

End output.
(** ** The paginated requests of the API client ([internal/api])

    [c.get] is the client's environment: for a path and a query it gives
    the decoded response, or fails with the text of its error. *)

Module client.

(** [url.Values]. *)
Definition Values : Type := gmap string (list string).

Module softwareResponse.
Record t := mk { SoftwareTitles : list api.SoftwareTitle.t; HasNextResults : bool }.
End softwareResponse.

Module Transport.
Record t := mk {
  getPolicies : string -> Values -> result (list api.Policy.t);
  getSoftware : string -> Values -> result softwareResponse.t }.
End Transport.

(** [strconv.Itoa] of a page number. *)
Definition Itoa (page : nat) : string := sprintUint (N.of_nat page).

(** The [for] loop of a paginated request.  [fetch page] is the request
    for one page, with its error already wrapped; [more] is the negation
    of the test of the first [break], and [maxPage] the bound of the
    second one.  The loop runs at most [maxPage + 1] times, which is the
    value that [fuel] starts from. *)
Fixpoint fetchPages {R A : Type} (fetch : nat -> result R) (items : R -> list A)
    (more : R -> bool) (maxPage : nat) (fuel page : nat) (all : list A) : result (list A) :=
  match fuel with
  | 0 => Ok all
  | S fuel =>
      match fetch page with
      | Err msg => Err msg
      | Ok resp =>
          let all := all ++ items resp in
          if negb (more resp) then Ok all
          else
            let page := S page in
            if (maxPage <? page)%nat then Ok all
            else fetchPages fetch items more maxPage fuel page all
      end
  end.

Definition wrapError {R : Type} (context : string) (r : result R) : result R :=
  match r with
  | Ok resp => Ok resp
  | Err msg => Err (context +:+ ": " +:+ msg)
  end.

Definition policiesPath (teamID : N) : string :=
  if (0 <? teamID)%N then "/api/v1/fleet/teams/" +:+ sprintUint teamID +:+ "/policies"
  else "/api/v1/fleet/global/policies".

(** The query [q] of [GetPolicies]. *)
Definition policiesQuery (page : nat) : Values :=
  {[ "per_page" := ["250"]; "page" := [Itoa page] ]}.

(** One pass of the loop of [GetPolicies], up to the error check. *)
Definition policiesPage (c : Transport.t) (teamID : N) (page : nat)
    : result (list api.Policy.t) :=
  wrapError ("fetching policies (team " +:+ sprintUint teamID +:+ ")")
    (Transport.getPolicies c (policiesPath teamID) (policiesQuery page)).

Definition GetPolicies (c : Transport.t) (teamID : N) : result (list api.Policy.t) :=
  fetchPages (policiesPage c teamID) id (fun resp => negb (length resp <? 250)%nat) 100 101 0 [].

(** The query [q] of [GetSoftware]. *)
Definition softwareQuery (teamID : N) (page : nat) : Values :=
  let q : Values :=
    {[ "per_page" := ["250"]; "page" := [Itoa page]; "available_for_install" := ["true"] ]} in
  if (0 <? teamID)%N then <["team_id" := [sprintUint teamID]]> q else q.

(** One pass of the loop of [GetSoftware], up to the error check. *)
Definition softwarePage (c : Transport.t) (teamID : N) (page : nat)
    : result softwareResponse.t :=
  wrapError ("fetching software (team " +:+ sprintUint teamID +:+ ")")
    (Transport.getSoftware c "/api/v1/fleet/software/titles" (softwareQuery teamID page)).

Definition GetSoftware (c : Transport.t) (teamID : N) : result (list api.SoftwareTitle.t) :=
  fetchPages (softwarePage c teamID) softwareResponse.SoftwareTitles
    (fun resp => softwareResponse.HasNextResults resp
                 && negb (length (softwareResponse.SoftwareTitles resp) =? 0)%nat)
    400 401 0 [].

(** The items of the pages [0] to [last] of a request, in order; a page
    that failed has none. *)
Definition pagesUpTo {R A : Type} (get : nat -> result R) (items : R -> list A)
    (last : nat) : list A :=
  flat_map (fun page => match get page with Ok resp => items resp | Err _ => [] end)
    (seq 0 (S last)).

End client.

(** A server with [total] policies, 250 to a page, and a server whose
    software titles end with an empty page that announces a next one. *)
Definition exPolicy (i : nat) : api.Policy.t :=
  api.Policy.mk (N.of_nat i) (client.Itoa i) "SELECT 1;" "" "" "" false 0 0 [] [].

Definition exPageOf (q : client.Values) : option nat :=
  match q !! "page" with
  | Some [p] => List.find (fun i => String.eqb (client.Itoa i) p) (seq 0 8)
  | _ => None
  end.

Definition exTitle (name : string) : api.SoftwareTitle.t :=
  api.SoftwareTitle.mk 1 name "apps" 0 None None.

Definition exServer (total : nat) : client.Transport.t :=
  client.Transport.mk
    (fun path q =>
       match exPageOf q with
       | Some page => Ok (exPolicy <$> seq (250 * page) (Nat.min 250 (total - 250 * page)))
       | None => Err "HTTP 400"
       end)
    (fun path q =>
       match exPageOf q with
       | Some 0 => Ok (client.softwareResponse.mk [exTitle "Zoom"] true)
       | Some 1 => Ok (client.softwareResponse.mk [] true)
       | Some _ => Ok (client.softwareResponse.mk [exTitle "Slack"] false)
       | None => Err "HTTP 400"
       end).

(** * Properties *)

(** ** Indexes built by a loop of map assignments *)

Section Index.

Context {A : Type} (key : A -> string).


Lemma index_lookup_None (l : list A) (m0 : gmap string A) k :
  foldl (fun m a => <[key a := a]> m) m0 l !! k = None <->
  (k ∉ key <$> l) /\ m0 !! k = None.
Proof.
  revert m0. induction l as [|a l IH]; intros m0; simpl.
  - split; [intros H; split; [apply not_elem_of_nil | done] | by intros [_ ?]].
  - rewrite IH, not_elem_of_cons. split.
    + intros [Hl Hm]. destruct (decide (key a = k)) as [<-|Hne].
      * by rewrite lookup_insert_eq in Hm.
      * rewrite lookup_insert_ne in Hm by done.
        split; [split; [congruence | done] | done].
    + intros [[Hne Hl] Hm]. split; [done|].
      rewrite lookup_insert_ne by done. done.
Qed.

Lemma index_is_Some (l : list A) k :
  is_Some (foldl (fun m a => <[key a := a]> m) (∅ : gmap string A) l !! k)
  <-> k ∈ key <$> l.
Proof.
  rewrite <- not_eq_None_Some, index_lookup_None, lookup_empty.
  split.
  - intros H. destruct (decide (k ∈ key <$> l)); [done|]. exfalso. by apply H.
  - intros H [Hn _]. done.
Qed.

End Index.

(** ** The loops of [diffPolicies], [diffQueries] and [diffProfiles] *)

Lemma policy_proposed_loop currentMap l d s :
  foldl (policyProposedStep currentMap) (d, s) l =
  (mkResourceDiff (Added d ++ omap (addedPolicy currentMap) l)
                  (Modified d ++ omap (modifiedPolicy currentMap) l)
                  (Deleted d),
   proposedPolicyKeys l ∪ s).
Proof.
  revert d s. induction l as [|p l IH]; intros d s.
  - simpl. rewrite !app_nil_r. destruct d. f_equal.
    unfold proposedPolicyKeys. simpl. set_solver.
  - cbn [foldl].
    destruct (policyProposedStep currentMap (d, s) p) as [d' s'] eqn:Hstep.
    rewrite IH. unfold policyProposedStep in Hstep.
    cbn [omap list_omap]. unfold addedPolicy, modifiedPolicy.
    assert (Hs : proposedPolicyKeys (p :: l) ∪ s
                 = proposedPolicyKeys l ∪ ({[parser.ParsedPolicy.Name p]} ∪ s)).
    { unfold proposedPolicyKeys. simpl. set_solver. }
    rewrite Hs.
    destruct (currentMap !! parser.ParsedPolicy.Name p) as [cur|].
    + destruct (decide (0 < size (policyChangedFields cur p)));
        injection Hstep as <- <-; simpl; by rewrite <- ?app_assoc.
    + injection Hstep as <- <-; simpl; by rewrite <- ?app_assoc.
Qed.

Lemma policy_deleted_loop names l d :
  foldl (policyDeletedStep names) d l =
  mkResourceDiff (Added d) (Modified d) (Deleted d ++ omap (deletedPolicy names) l).
Proof.
  revert d. induction l as [|c l IH]; intros d.
  - simpl. rewrite app_nil_r. by destruct d.
  - cbn [foldl omap list_omap]. rewrite IH. unfold deletedPolicy, policyDeletedStep.
    destruct (decide (api.Policy.Name c ∈ names)); simpl; [done|].
    by rewrite <- app_assoc.
Qed.

Lemma diffPolicies_closed current proposed :
  diffPolicies current proposed =
  mkResourceDiff
    (omap (addedPolicy (policyIndex current)) proposed)
    (omap (modifiedPolicy (policyIndex current)) proposed)
    (omap (deletedPolicy (proposedPolicyKeys proposed)) current).
Proof.
  unfold diffPolicies. rewrite policy_proposed_loop, policy_deleted_loop. simpl.
  by rewrite (right_id_L ∅ (∪)).
Qed.
Lemma query_proposed_loop currentMap l d s :
  foldl (queryProposedStep currentMap) (d, s) l =
  (mkResourceDiff (Added d ++ omap (addedQuery currentMap) l)
                  (Modified d ++ omap (modifiedQuery currentMap) l)
                  (Deleted d),
   proposedQueryKeys l ∪ s).
Proof.
  revert d s. induction l as [|q l IH]; intros d s.
  - simpl. rewrite !app_nil_r. destruct d. f_equal.
    unfold proposedQueryKeys. simpl. set_solver.
  - cbn [foldl].
    destruct (queryProposedStep currentMap (d, s) q) as [d' s'] eqn:Hstep.
    rewrite IH. unfold queryProposedStep in Hstep.
    cbn [omap list_omap]. unfold addedQuery, modifiedQuery.
    assert (Hs : proposedQueryKeys (q :: l) ∪ s
                 = proposedQueryKeys l ∪ ({[parser.ParsedQuery.Name q]} ∪ s)).
    { unfold proposedQueryKeys. simpl. set_solver. }
    rewrite Hs.
    destruct (currentMap !! parser.ParsedQuery.Name q) as [cur|].
    + destruct (decide (0 < size (queryChangedFields cur q)));
        injection Hstep as <- <-; simpl; by rewrite <- ?app_assoc.
    + injection Hstep as <- <-; simpl; by rewrite <- ?app_assoc.
Qed.

Lemma query_deleted_loop names l d :
  foldl (queryDeletedStep names) d l =
  mkResourceDiff (Added d) (Modified d) (Deleted d ++ omap (deletedQuery names) l).
Proof.
  revert d. induction l as [|c l IH]; intros d.
  - simpl. rewrite app_nil_r. by destruct d.
  - cbn [foldl omap list_omap]. rewrite IH. unfold deletedQuery, queryDeletedStep.
    destruct (decide (api.Query.Name c ∈ names)); simpl; [done|].
    by rewrite <- app_assoc.
Qed.

Lemma diffQueries_closed current proposed :
  diffQueries current proposed =
  mkResourceDiff
    (omap (addedQuery (queryIndex current)) proposed)
    (omap (modifiedQuery (queryIndex current)) proposed)
    (omap (deletedQuery (proposedQueryKeys proposed)) current).
Proof.
  unfold diffQueries. rewrite query_proposed_loop, query_deleted_loop. simpl.
  by rewrite (right_id_L ∅ (∪)).
Qed.

Lemma profile_proposed_loop Quote currentMap l d ws s :
  foldl (profileProposedStep Quote currentMap) (d, ws, s) l =
  (mkResourceDiff (Added d ++ omap (addedProfile currentMap) l) (Modified d) (Deleted d),
   ws ++ profileWarnings Quote s l,
   proposedProfileKeys l ∪ s).
Proof.
  revert d ws s. induction l as [|p l IH]; intros d ws s.
  - simpl. rewrite !app_nil_r. destruct d. f_equal.
    unfold proposedProfileKeys. simpl. set_solver.
  - cbn [foldl].
    destruct (profileProposedStep Quote currentMap (d, ws, s) p) as [[d' ws'] s'] eqn:Hstep.
    rewrite IH. unfold profileProposedStep in Hstep.
    cbn [omap list_omap profileWarnings]. unfold addedProfile.
    assert (Hs : proposedProfileKeys (p :: l) ∪ s
                 = proposedProfileKeys l ∪ ({[parser.ParsedProfile.Name p]} ∪ s)).
    { unfold proposedProfileKeys. simpl. set_solver. }
    rewrite Hs.
    destruct (currentMap !! parser.ParsedProfile.Name p) as [cur|];
      destruct (decide (parser.ParsedProfile.Name p ∈ s));
      injection Hstep as <- <- <-; simpl; by rewrite <- ?app_assoc.
Qed.

Lemma profile_deleted_loop names l d :
  foldl (profileDeletedStep names) d l =
  mkResourceDiff (Added d) (Modified d) (Deleted d ++ omap (deletedProfile names) l).
Proof.
  revert d. induction l as [|c l IH]; intros d.
  - simpl. rewrite app_nil_r. by destruct d.
  - cbn [foldl omap list_omap]. rewrite IH. unfold deletedProfile, profileDeletedStep.
    destruct (decide (api.Profile.Name c ∈ names)); simpl; [done|].
    by rewrite <- app_assoc.
Qed.

Lemma diffProfiles_closed Quote current proposed :
  diffProfiles Quote current proposed =
  (mkResourceDiff
     (omap (addedProfile (profileIndex current)) proposed)
     []
     (omap (deletedProfile (proposedProfileKeys proposed)) current),
   profileWarnings Quote ∅ proposed).
Proof.
  unfold diffProfiles. rewrite profile_proposed_loop, profile_deleted_loop. simpl.
  by rewrite (right_id_L ∅ (∪)).
Qed.

(** ** The loops of [diffSoftware] *)

Lemma keyed_proposed_loop {C P : Type} (current : gmap string C)
    (fa : string -> P -> ResourceChange) (fm : string -> C -> P -> option ResourceChange)
    (l : list (string * P)) rd :
  foldl (keyedProposedStep current fa fm) rd l =
  mkResourceDiff (Added rd ++ omap (keyedAdded current fa) l)
                 (Modified rd ++ omap (keyedModified current fm) l)
                 (Deleted rd).
Proof.
  revert rd. induction l as [|kp l IH]; intros rd.
  - simpl. rewrite !app_nil_r. by destruct rd.
  - cbn [foldl omap list_omap]. rewrite IH.
    unfold keyedProposedStep, keyedAdded, keyedModified.
    destruct (current !! kp.1) as [cur|]; simpl.
    + destruct (fm kp.1 cur kp.2); simpl; by rewrite <- ?app_assoc.
    + by rewrite <- app_assoc.
Qed.

Lemma keyed_deleted_loop {C P : Type} (proposed : gmap string P)
    (fd : string -> ResourceChange) (l : list (string * C)) rd :
  foldl (keyedDeletedStep proposed fd) rd l =
  mkResourceDiff (Added rd) (Modified rd) (Deleted rd ++ omap (keyedDeleted proposed fd) l).
Proof.
  revert rd. induction l as [|kc l IH]; intros rd.
  - simpl. rewrite app_nil_r. by destruct rd.
  - cbn [foldl omap list_omap]. rewrite IH.
    unfold keyedDeletedStep, keyedDeleted.
    destruct (proposed !! kc.1); simpl; [done|]. by rewrite <- app_assoc.
Qed.

Lemma diffKeyed_closed {C P : Type} (current : gmap string C) (proposed : gmap string P)
    fa fm fd rd :
  diffKeyed current proposed fa fm fd rd =
  mkResourceDiff
    (Added rd ++ omap (keyedAdded current fa) (map_to_list proposed))
    (Modified rd ++ omap (keyedModified current fm) (map_to_list proposed))
    (Deleted rd ++ omap (keyedDeleted proposed fd) (map_to_list current)).
Proof. unfold diffKeyed. by rewrite keyed_proposed_loop, keyed_deleted_loop. Qed.

Lemma insertKeyed_lookup {V : Type} (key : string) (v : V) (m : gmap string V) k :
  insertKeyed key v m !! k
  = if decide (key <> "" /\ key = k) then Some v else m !! k.
Proof.
  unfold insertKeyed. destruct (String.eqb_spec key "") as [->|Hne].
  - destruct (decide _) as [[? _]|]; done.
  - destruct (decide _) as [[_ <-]|Hn].
    + by rewrite lookup_insert_eq.
    + rewrite lookup_insert_ne; [done|]. intros <-. by apply Hn.
Qed.

(** A map filled by the guarded assignments [m[key x] = x]. *)
Lemma keyed_map_lookup_Some {A : Type} (key : A -> string) (l : list A)
    (m0 : gmap string A) k x :
  foldl (fun m a => insertKeyed (key a) a m) m0 l !! k = Some x ->
  (x ∈ l /\ key x = k /\ k <> "") \/ m0 !! k = Some x.
Proof.
  revert m0. induction l as [|a l IH]; intros m0 H; simpl in H; [by right|].
  destruct (IH _ H) as [(Hin & Hk & Hne)|Hm].
  - left. split; [apply elem_of_cons; by right | done].
  - rewrite insertKeyed_lookup in Hm. destruct (decide _) as [[Hne <-]|_].
    + injection Hm as ->. left. split; [apply elem_of_cons; by left | done].
    + by right.
Qed.

Lemma keyed_map_is_Some_mono {A : Type} (key : A -> string) (l : list A)
    (m1 : gmap string A) k :
  is_Some (m1 !! k) ->
  is_Some (foldl (fun m a => insertKeyed (key a) a m) m1 l !! k).
Proof.
  revert m1. induction l as [|b l IH]; intros m1 H; simpl; [done|].
  apply IH. rewrite insertKeyed_lookup. by destruct (decide _).
Qed.

Lemma keyed_map_is_Some {A : Type} (key : A -> string) (l : list A)
    (m0 : gmap string A) k x :
  x ∈ l -> key x = k -> k <> "" ->
  is_Some (foldl (fun m a => insertKeyed (key a) a m) m0 l !! k).
Proof.
  revert m0. induction l as [|a l IH]; intros m0 Hin Hk Hne.
  - by apply elem_of_nil in Hin.
  - simpl. apply elem_of_cons in Hin as [->|Hin]; [|by apply IH].
    apply keyed_map_is_Some_mono.
    rewrite insertKeyed_lookup, decide_True; [by eexists|]. by rewrite Hk.
Qed.




(** ** Key sets of the buckets *)

Lemma partitions_intro (R P : gset string) d :
  bucketKeys (Added d) = P ∖ R ->
  bucketKeys (Deleted d) = R ∖ P ->
  bucketKeys (Modified d) ⊆ R ∩ P ->
  partitions R P d.
Proof.
  intros HA HD HM. unfold partitions. rewrite HA, HD.
  split; [|split; [|split; [|split; [|split]]]]; [set_solver..|done|done|done].
Qed.

Lemma elem_of_bucketKeys k l :
  k ∈ bucketKeys l <-> exists c, c ∈ l /\ Name c = k.
Proof.
  unfold bucketKeys. rewrite elem_of_list_to_set, list_elem_of_fmap.
  split; intros (c & H1 & H2); exists c; by split.
Qed.









Lemma profile_added_keys current proposed :
  bucketKeys (omap (addedProfile (profileIndex current)) proposed)
  = proposedProfileKeys proposed ∖ profileKeys current.
Proof.
  apply set_eq. intros k.
  rewrite elem_of_bucketKeys, elem_of_difference.
  unfold proposedProfileKeys, profileKeys. rewrite !elem_of_list_to_set.
  rewrite <- (index_is_Some api.Profile.Name current k), list_elem_of_fmap.
  fold (profileIndex current). split.
  - intros (c & Hc & <-). apply list_elem_of_omap in Hc as (p & Hp & Hf).
    unfold addedProfile in Hf.
    destruct (profileIndex current !! parser.ParsedProfile.Name p) eqn:E; [done|].
    injection Hf as <-. simpl. split; [by exists p|]. rewrite E. by intros [? ?].
  - intros [(p & -> & Hp) Hn].
    exists (mkResourceChange (parser.ParsedProfile.Name p) (profileAddedFields p) 0 "").
    split; [|done]. apply list_elem_of_omap. exists p. split; [done|].
    unfold addedProfile.
    destruct (profileIndex current !! parser.ParsedProfile.Name p) eqn:E; [|done].
    exfalso. apply Hn. by eexists.
Qed.

Lemma profile_deleted_keys current proposed :
  bucketKeys (omap (deletedProfile (proposedProfileKeys proposed)) current)
  = profileKeys current ∖ proposedProfileKeys proposed.
Proof.
  apply set_eq. intros k.
  rewrite elem_of_bucketKeys, elem_of_difference.
  unfold profileKeys at 1. rewrite elem_of_list_to_set, list_elem_of_fmap. split.
  - intros (c & Hc & <-). apply list_elem_of_omap in Hc as (p & Hp & Hf).
    unfold deletedProfile in Hf.
    destruct (decide (api.Profile.Name p ∈ proposedProfileKeys proposed)); [done|].
    injection Hf as <-. simpl. split; [by exists p | done].
  - intros [(p & -> & Hp) Hn].
    exists (mkResourceChange (api.Profile.Name p) ∅ 0 "").
    split; [|done]. apply list_elem_of_omap. exists p. split; [done|].
    unfold deletedProfile.
    by destruct (decide (api.Profile.Name p ∈ proposedProfileKeys proposed)).
Qed.

Lemma diffProfiles_partitions Quote current proposed :
  partitions (profileKeys current) (proposedProfileKeys proposed)
    (diffProfiles Quote current proposed).1.
Proof.
  rewrite diffProfiles_closed. apply partitions_intro; simpl.
  - apply profile_added_keys.
  - apply profile_deleted_keys.
  - unfold bucketKeys. simpl. set_solver.
Qed.

(** ** The partition of the keys (claim C1) *)

Lemma partitions_bounds (R P : gset string) d :
  partitions R P d ->
  (R ∖ P) ∪ (P ∖ R) ⊆ allKeys d /\ allKeys d ⊆ R ∪ P.
Proof.
  unfold partitions, allKeys. intros (_ & _ & _ & -> & -> & HM). set_solver.
Qed.



(** ** Profiles are added or deleted, never modified (claim C10) *)

(** C10: the Modified bucket of the profile diff is empty, whatever the
    two lists are; the Added names are the proposed names with no remote
    profile, the Deleted names the remote names with no proposed profile,
    and a name on both sides is in no bucket, whatever the platforms and
    paths are. *)
Theorem diffProfiles_no_modified (Quote : string -> string)
    (current : list api.Profile.t) (proposed : list parser.ParsedProfile.t) :
  Modified (diffProfiles Quote current proposed).1 = []
  /\ bucketKeys (Added (diffProfiles Quote current proposed).1)
     = proposedProfileKeys proposed ∖ profileKeys current
  /\ bucketKeys (Deleted (diffProfiles Quote current proposed).1)
     = profileKeys current ∖ proposedProfileKeys proposed
  /\ allKeys (diffProfiles Quote current proposed).1
     ## profileKeys current ∩ proposedProfileKeys proposed.
Proof.
  pose proof (diffProfiles_partitions Quote current proposed) as HP.
  destruct HP as (_ & _ & _ & HA & HD & _).
  assert (HM : Modified (diffProfiles Quote current proposed).1 = [])
    by (by rewrite diffProfiles_closed).
  split; [done|]. split; [done|]. split; [done|].
  unfold allKeys. rewrite HA, HD, HM.
  assert (bucketKeys [] = (∅ : gset string)) as -> by done. set_solver.
Qed.

(** ** The order of the entries (claim C3) *)

#[local] Instance byName_total : Total byName.
Proof. intros a b. unfold byName. apply (total String.le). Qed.

Lemma sortResourceChanges_sorted rd :
  Sorted byName (Added (sortResourceChanges rd))
  /\ Sorted byName (Modified (sortResourceChanges rd))
  /\ Sorted byName (Deleted (sortResourceChanges rd)).
Proof. unfold sortResourceChanges. simpl. repeat split; apply Sorted_merge_sort; apply _. Qed.

Lemma omap_names_sublist {A : Type} (f : A -> option ResourceChange)
    (key : A -> string) (l : list A) :
  (forall x c, f x = Some c -> Name c = key x) ->
  Name <$> omap f l `sublist_of` key <$> l.
Proof.
  intros Hf. induction l as [|x l IH]; simpl; [constructor|].
  destruct (f x) as [c|] eqn:E.
  - simpl. rewrite (Hf _ _ E). by constructor.
  - by constructor.
Qed.

Lemma addedPolicy_name m p c :
  addedPolicy m p = Some c -> Name c = parser.ParsedPolicy.Name p.
Proof. unfold addedPolicy. destruct (m !! _); [done|]. by intros [= <-]. Qed.

Lemma modifiedPolicy_name m p c :
  modifiedPolicy m p = Some c -> Name c = parser.ParsedPolicy.Name p.
Proof.
  unfold modifiedPolicy. destruct (m !! _); [|done].
  destruct (decide _); [|done]. by intros [= <-].
Qed.

Lemma deletedPolicy_name s p c :
  deletedPolicy s p = Some c -> Name c = api.Policy.Name p.
Proof. unfold deletedPolicy. destruct (decide _); [done|]. by intros [= <-]. Qed.

Lemma addedQuery_name m p c :
  addedQuery m p = Some c -> Name c = parser.ParsedQuery.Name p.
Proof. unfold addedQuery. destruct (m !! _); [done|]. by intros [= <-]. Qed.

Lemma modifiedQuery_name m p c :
  modifiedQuery m p = Some c -> Name c = parser.ParsedQuery.Name p.
Proof.
  unfold modifiedQuery. destruct (m !! _); [|done].
  destruct (decide _); [|done]. by intros [= <-].
Qed.

Lemma deletedQuery_name s p c :
  deletedQuery s p = Some c -> Name c = api.Query.Name p.
Proof. unfold deletedQuery. destruct (decide _); [done|]. by intros [= <-]. Qed.

Lemma addedProfile_name m p c :
  addedProfile m p = Some c -> Name c = parser.ParsedProfile.Name p.
Proof. unfold addedProfile. destruct (m !! _); [done|]. by intros [= <-]. Qed.

Lemma deletedProfile_name s p c :
  deletedProfile s p = Some c -> Name c = api.Profile.Name p.
Proof. unfold deletedProfile. destruct (decide _); [done|]. by intros [= <-]. Qed.

(** C3, as stated, fails: two added policies declared as [B], [A] come out
    as [B], [A]. *)
Lemma policies_not_sorted_counterexample :
  Name <$> Added (diffPolicies [] exUnsortedPolicies) = ["B"; "A"]
  /\ ~ Sorted byName (Added (diffPolicies [] exUnsortedPolicies)).
Proof.
  split; [reflexivity|]. intros H.
  apply Sorted_inv in H as [_ H]. apply HdRel_inv in H.
  vm_compute in H. exact H.
Qed.

(** C3, amended: the three buckets of the software diff are sorted by entry
    name, ascending; the buckets of the policy, query and profile diffs
    are not sorted but keep the order of the input lists (Added and
    Modified that of the proposed list, Deleted that of the remote list).
    In both cases the order depends on the inputs alone. *)
Theorem bucket_order
    (ToLower Quote : string -> string)
    (currentSoftware : api.TeamSoftware.t) (proposedSoftware : parser.ParsedSoftware.t)
    (currentPolicies : list api.Policy.t) (proposedPolicies : list parser.ParsedPolicy.t)
    (currentQueries : list api.Query.t) (proposedQueries : list parser.ParsedQuery.t)
    (currentProfiles : list api.Profile.t)
    (proposedProfiles : list parser.ParsedProfile.t) :
  (Sorted byName (Added (diffSoftware ToLower currentSoftware proposedSoftware))
   /\ Sorted byName (Modified (diffSoftware ToLower currentSoftware proposedSoftware))
   /\ Sorted byName (Deleted (diffSoftware ToLower currentSoftware proposedSoftware)))
  /\ (Name <$> Added (diffPolicies currentPolicies proposedPolicies)
        `sublist_of` parser.ParsedPolicy.Name <$> proposedPolicies
      /\ Name <$> Modified (diffPolicies currentPolicies proposedPolicies)
        `sublist_of` parser.ParsedPolicy.Name <$> proposedPolicies
      /\ Name <$> Deleted (diffPolicies currentPolicies proposedPolicies)
        `sublist_of` api.Policy.Name <$> currentPolicies)
  /\ (Name <$> Added (diffQueries currentQueries proposedQueries)
        `sublist_of` parser.ParsedQuery.Name <$> proposedQueries
      /\ Name <$> Modified (diffQueries currentQueries proposedQueries)
        `sublist_of` parser.ParsedQuery.Name <$> proposedQueries
      /\ Name <$> Deleted (diffQueries currentQueries proposedQueries)
        `sublist_of` api.Query.Name <$> currentQueries)
  /\ (Name <$> Added (diffProfiles Quote currentProfiles proposedProfiles).1
        `sublist_of` parser.ParsedProfile.Name <$> proposedProfiles
      /\ Name <$> Deleted (diffProfiles Quote currentProfiles proposedProfiles).1
        `sublist_of` api.Profile.Name <$> currentProfiles).
Proof.
  split; [apply sortResourceChanges_sorted|].
  rewrite diffPolicies_closed, diffQueries_closed, diffProfiles_closed. simpl.
  repeat split; apply omap_names_sublist;
    eauto using addedPolicy_name, modifiedPolicy_name, deletedPolicy_name,
      addedQuery_name, modifiedQuery_name, deletedQuery_name,
      addedProfile_name, deletedProfile_name.
Qed.

(** ** Whitespace normalization *)

Module TextFacts.
Import Text.



Lemma asciiSpace_space_false a : asciiSpace a = false -> a <> " "%char.
Proof. by intros H ->. Qed.









End TextFacts.




Module StoredFacts.
Import Text.







End StoredFacts.















(** ** Placeholders in the global configuration (claim C9) *)

Lemma leaf_loop_new section leaves changes :
  foldl (fun changes (kv : string * string) =>
           if negb (containsEnvVar kv.2)
           then changes ++ [mkConfigChange section kv.1 "" kv.2]
           else changes) changes leaves
  = changes ++ omap (leafChange (fun _ => "") section None) leaves.
Proof.
  revert changes. induction leaves as [|kv l IH]; intros changes; simpl.
  - by rewrite app_nil_r.
  - rewrite IH. unfold leafChange at 2.
    destruct (containsEnvVar kv.2); simpl; [done|]. by rewrite <- app_assoc.
Qed.

Lemma leafChange_new sprintMap section kv :
  leafChange sprintMap section None kv = leafChange (fun _ => "") section None kv.
Proof. reflexivity. Qed.

Lemma leaf_loop_compare sprintMap section apiSection leaves changes :
  foldl (fun changes (kv : string * string) =>
           if containsEnvVar kv.2 then changes
           else
             let apiVal := getNestedValue sprintMap apiSection kv.1 in
             if strNe apiVal kv.2
             then changes ++ [mkConfigChange section kv.1 apiVal kv.2]
             else changes) changes leaves
  = changes ++ omap (leafChange sprintMap section (Some apiSection)) leaves.
Proof.
  revert changes. induction leaves as [|kv l IH]; intros changes; simpl.
  - by rewrite app_nil_r.
  - rewrite IH. unfold leafChange at 2.
    destruct (containsEnvVar kv.2); simpl; [done|].
    destruct (strNe _ _); simpl; [|done]. by rewrite <- app_assoc.
Qed.

Lemma diffSection_closed sprintMap apiConfig changes section m :
  diffSection sprintMap apiConfig changes (section, Some m)
  = changes ++ omap (leafChange sprintMap section (apiSectionOf apiConfig section))
                 (flattenMap m "").
Proof.
  unfold diffSection. destruct (apiSectionOf apiConfig section).
  - apply leaf_loop_compare.
  - rewrite leaf_loop_new. f_equal.
Qed.

Lemma leafChange_spec sprintMap section apiSection kv c :
  leafChange sprintMap section apiSection kv = Some c ->
  containsEnvVar (CfgNew c) = false
  /\ CfgSection c = section /\ Key c = kv.1 /\ CfgNew c = kv.2.
Proof.
  unfold leafChange. destruct (containsEnvVar kv.2) eqn:E; [done|].
  destruct apiSection.
  - simpl. destruct (strNe _ _); [|done]. by intros [= <-].
  - by intros [= <-].
Qed.

Lemma diffSection_records sprintMap apiConfig (g : parser.ParsedGlobal.t)
    (secs : list (string * option cfgmap)) changes :
  secs ⊆ proposedSections g ->
  Forall (fun c => containsEnvVar (CfgNew c) = false /\ fromLeaf g c) changes ->
  Forall (fun c => containsEnvVar (CfgNew c) = false /\ fromLeaf g c)
    (foldl (diffSection sprintMap apiConfig) changes secs).
Proof.
  revert changes. induction secs as [|[section [m|]] secs IH]; intros changes Hsub Hc.
  - done.
  - cbn [foldl]. apply IH; [set_solver|].
    rewrite diffSection_closed. apply Forall_app. split; [done|].
    apply Forall_forall. intros c Hin.
    apply list_elem_of_omap in Hin as (kv & Hkv & Hf).
    apply leafChange_spec in Hf as (Hno & Hs & Hk & Hn).
    split; [done|]. exists m. rewrite Hs, Hk, Hn. split.
    + apply Hsub. apply elem_of_cons. by left.
    + by destruct kv.
  - cbn [foldl]. apply IH; [set_solver|]. done.
Qed.

(** ** A team that does not exist remotely (claim C2) *)

(** What the engine does for a team that is absent from the snapshot and
    is not the reserved [No team]: its policies and its queries are Added,
    by name, one informational message is attached, and the software and
    profile diffs are left empty. *)
Lemma new_team_result ToLower EqualFold Quote current currentTeams labelMap team :
  currentTeams !! parser.ParsedTeam.Name team = None ->
  EqualFold (parser.ParsedTeam.Name team) "No team" = false ->
  let r := teamResult ToLower EqualFold Quote current currentTeams labelMap team in
  Name <$> Added (Policies r) = parser.ParsedPolicy.Name <$> parser.ParsedTeam.Policies team
  /\ Name <$> Added (Queries r) = parser.ParsedQuery.Name <$> parser.ParsedTeam.Queries team
  /\ Software r = emptyDiff /\ Profiles r = emptyDiff
  /\ Errors r = [newTeamMessage Quote (parser.ParsedTeam.Name team)].
Proof.
  intros Hnone Hfold. unfold teamResult. rewrite Hnone, Hfold. simpl.
  rewrite <- !list_fmap_compose. by repeat split.
Qed.

(** C2 at the failing input: the new team [Mobile] declares one policy, one
    query, three software entries and one profile; the engine reports the
    policy and the query as Added and attaches the one informational
    message, but the software and profile buckets stay empty. *)
Lemma new_team_software_profiles_not_added :
  exists r,
    Diff asciiToLower asciiEqualFold plainQuote noMapPrinter exNoTeams exNewTeamRepo "" = [r]
    /\ Name <$> Added (Policies r) = ["Passcode"]
    /\ Name <$> Added (Queries r) = ["Battery"]
    /\ Added (Software r) = []
    /\ Added (Profiles r) = []
    /\ Errors r = ["info: team " +:+ dq +:+ "Mobile" +:+ dq
                   +:+ " does not exist in Fleet yet (will be created)"].
Proof. eexists. split; [reflexivity|]. by repeat split. Qed.

(** ** The inferred fleet-maintained apps *)

Lemma inferred_fold_lookup {T : Type} (f : T -> option api.TeamFleetApp.t)
    (l : list T) (m0 : gmap string api.TeamFleetApp.t) s app :
  foldl (fun inferred title =>
           match f title with
           | Some app => <[api.TeamFleetApp.Slug app := app]> inferred
           | None => inferred
           end) m0 l !! s = Some app ->
  (exists title, title ∈ l /\ f title = Some app) \/ m0 !! s = Some app.
Proof.
  revert m0. induction l as [|t l IH]; intros m0 H; simpl in H; [by right|].
  destruct (IH _ H) as [(title & Hin & Hf)|Hm].
  - left. exists title. split; [apply elem_of_cons; by right | done].
  - destruct (f t) as [a|] eqn:E; [|by right].
    destruct (decide (api.TeamFleetApp.Slug a = s)) as [<-|Hne].
    + rewrite lookup_insert_eq in Hm. injection Hm as ->.
      left. exists t. split; [apply elem_of_cons; by left | done].
    + rewrite lookup_insert_ne in Hm by done. by right.
Qed.

Lemma inferFleetMaintainedApps_elem ToLower EqualFold team catalog l x :
  inferFleetMaintainedApps ToLower EqualFold team catalog = Some l ->
  x ∈ l ->
  exists title,
    title ∈ api.Team.SoftwareTitles team
    /\ inferTitle ToLower EqualFold
         (customPackageURLs ToLower (api.TeamSoftware.Packages (api.Team.Software team)))
         (catalogByNamePlatform ToLower catalog) title = Some x.
Proof.
  unfold inferFleetMaintainedApps.
  destruct (api.Team.SoftwareTitles team) as [|t ts] eqn:Et; [done|].
  destruct catalog as [|c cs] eqn:Ec; [done|].
  destruct (decide _); [done|]. intros [= <-] Hin.
  apply list_elem_of_fmap in Hin as ([s a] & -> & Hin). simpl.
  apply elem_of_map_to_list in Hin. unfold inferredMap in Hin. rewrite Et in Hin.
  apply inferred_fold_lookup in Hin as [H|H]; [done | by rewrite lookup_empty in H].
Qed.

Lemma inferred_key_absent ToLower EqualFold team catalog k :
  api.Team.SoftwareTitles team = [] \/ catalog = []
    \/ ~ reconstructs ToLower EqualFold team catalog k ->
  currentFleetMap ToLower
    (default [] (inferFleetMaintainedApps ToLower EqualFold team catalog)) !! k = None.
Proof.
  intros H. apply eq_None_not_Some. intros [x Hx].
  unfold currentFleetMap in Hx.
  apply keyed_map_lookup_Some in Hx as [(Hin & Hk & _)|Hx];
    [|by rewrite lookup_empty in Hx].
  destruct (inferFleetMaintainedApps ToLower EqualFold team catalog) as [l|] eqn:E;
    [|by apply elem_of_nil in Hin].
  simpl in Hin.
  destruct H as [H|[H|H]].
  - unfold inferFleetMaintainedApps in E. by rewrite H in E.
  - unfold inferFleetMaintainedApps in E. rewrite H in E.
    by destruct (api.Team.SoftwareTitles team).
  - apply H. destruct (inferFleetMaintainedApps_elem _ _ _ _ _ _ E Hin) as (t & Ht & Hf).
    by exists t, x.
Qed.

Lemma elem_of_merge_sort (c : ResourceChange) l :
  c ∈ merge_sort byName l <-> c ∈ l.
Proof. by rewrite merge_sort_Permutation. Qed.

(** An app of the proposed slug map whose key the remote map lacks is in
    the Added bucket of the software diff. *)
Lemma diffSoftware_fleet_added ToLower current proposed k a :
  proposedFleetMap ToLower (parser.ParsedSoftware.FleetMaintained proposed) !! k = Some a ->
  currentFleetMap ToLower (default [] (api.TeamSoftware.FleetMaintained current)) !! k = None ->
  fleetAdded k a ∈ Added (diffSoftware ToLower current proposed).
Proof.
  intros Hp Hc. unfold diffSoftware. rewrite !diffKeyed_closed. simpl.
  apply elem_of_merge_sort. apply elem_of_app. left. apply elem_of_app. right.
  apply list_elem_of_omap. exists (k, a). split.
  - by apply elem_of_map_to_list.
  - unfold keyedAdded. simpl. by rewrite Hc.
Qed.

(** ** A null list of fleet-maintained apps (claim C8) *)

(** C8, as stated, fails: the remote list is null, there is neither a
    catalog nor a title inventory, and the proposed side declares one
    fleet-maintained app, whose slug is blank; the app is skipped and
    nothing is reported as Added. *)
Lemma blank_slug_counterexample :
  api.TeamSoftware.FleetMaintained (api.Team.Software exBlankTeam) = None
  /\ api.Team.SoftwareTitles exBlankTeam = []
  /\ api.FleetState.FleetMaintainedCatalog exBlankState = []
  /\ length (parser.ParsedSoftware.FleetMaintained
               (parser.ParsedTeam.Software exBlankProposed)) = 1
  /\ Added (Software exBlankResult) = [].
Proof. by vm_compute. Qed.

(** The reconstruction works title by title: here the catalog has an
    ambiguous double match for Zoom and a unique match for Slack; Zoom is
    reported as Added, and Slack is reconstructed, compared, and found
    unchanged. *)
Example inference_mixed :
  api.TeamSoftware.FleetMaintained (api.Team.Software exInferTeam) = None
  /\ length (default [] (catalogByNamePlatform asciiToLower exCatalog !! "zoom|darwin")) = 2
  /\ parser.ParsedFleetApp.Slug
       <$> parser.ParsedSoftware.FleetMaintained (parser.ParsedTeam.Software exInferProposed)
     = ["zoom/darwin"; "slack/darwin"]
  /\ Name <$> Added (Software exInferResult) = ["fleet app zoom/darwin"]
  /\ Modified (Software exInferResult) = []
  /\ Deleted (Software exInferResult) = [].
Proof. by vm_compute. Qed.

(** C8, amended: when the remote list of fleet-maintained apps of a group
    is null and the proposed side declares an app whose canonical slug is
    not empty, and the reconstruction yields no record for that slug
    (there are no software titles, there is no catalog, or no title has a
    unique catalog match with that slug), the app is reported as an Added
    entry named [fleet app] followed by the canonical slug, with new values
    only; the messages of the result are the duplicate-profile warnings
    alone, so the inference adds no error and no message. *)
Theorem null_fleet_apps_reported_added
    (ToLower : string -> string) (EqualFold : string -> string -> bool)
    (Quote : string -> string) (current : api.FleetState.t)
    (currentTeams : gmap string api.Team.t) (labelMap : gmap string api.Label.t)
    (team : parser.ParsedTeam.t) (currentTeam : api.Team.t)
    (a : parser.ParsedFleetApp.t) :
  currentTeams !! parser.ParsedTeam.Name team = Some currentTeam ->
  api.TeamSoftware.FleetMaintained (api.Team.Software currentTeam) = None ->
  a ∈ parser.ParsedSoftware.FleetMaintained (parser.ParsedTeam.Software team) ->
  normalizeSoftwarePath ToLower (parser.ParsedFleetApp.Slug a) <> "" ->
  api.Team.SoftwareTitles currentTeam = []
    \/ api.FleetState.FleetMaintainedCatalog current = []
    \/ ~ reconstructs ToLower EqualFold currentTeam
           (api.FleetState.FleetMaintainedCatalog current)
           (normalizeSoftwarePath ToLower (parser.ParsedFleetApp.Slug a)) ->
  (exists a',
      a' ∈ parser.ParsedSoftware.FleetMaintained (parser.ParsedTeam.Software team)
      /\ normalizeSoftwarePath ToLower (parser.ParsedFleetApp.Slug a')
         = normalizeSoftwarePath ToLower (parser.ParsedFleetApp.Slug a)
      /\ fleetAdded (normalizeSoftwarePath ToLower (parser.ParsedFleetApp.Slug a)) a'
         ∈ Added (Software (teamResult ToLower EqualFold Quote current currentTeams
                              labelMap team)))
  /\ Errors (teamResult ToLower EqualFold Quote current currentTeams labelMap team)
     = profileWarnings Quote ∅ (parser.ParsedTeam.Profiles team).
Proof.
  intros Hteam Hnull Ha Hk Hrec.
  set (k := normalizeSoftwarePath ToLower (parser.ParsedFleetApp.Slug a)) in *.
  unfold teamResult. rewrite Hteam, Hnull, diffProfiles_closed.
  assert (Hlen : Nat.ltb 0 (length (parser.ParsedSoftware.FleetMaintained
                                      (parser.ParsedTeam.Software team))) = true).
  { destruct (parser.ParsedSoftware.FleetMaintained (parser.ParsedTeam.Software team));
      [by apply elem_of_nil in Ha | done]. }
  rewrite Hlen. cbn [Software Errors]. split; [|done].
  destruct (keyed_map_is_Some
              (fun a => normalizeSoftwarePath ToLower (parser.ParsedFleetApp.Slug a))
              _ ∅ k a Ha eq_refl Hk) as [a' Ha'].
  pose proof Ha' as Hin.
  apply keyed_map_lookup_Some in Hin as [(Hin & Hka & _)|Hin];
    [|by rewrite lookup_empty in Hin].
  exists a'. split; [done|]. split; [done|].
  apply diffSoftware_fleet_added; [exact Ha'|].
  simpl. by apply inferred_key_absent.
Qed.

(** Zoom, at the input above: its slug is not reconstructed, since its title
    has two catalog matches, and it is reported as Added. *)
Lemma null_fleet_apps_reported_added_witness :
  exists a',
    fleetAdded "zoom/darwin" a' ∈ Added (Software exInferResult)
    /\ Errors exInferResult = [].
Proof.
  destruct (null_fleet_apps_reported_added asciiToLower asciiEqualFold plainQuote
              exInferState (teamIndex [exInferTeam]) ∅ exInferProposed exInferTeam
              (parser.ParsedFleetApp.mk "zoom/darwin" true))
    as [(a' & _ & _ & Hin) Herr].
  - reflexivity.
  - reflexivity.
  - apply list_elem_of_here.
  - vm_compute. discriminate.
  - right. right. intros (title & app & Hin & Hf & Hk).
    simpl in Hin. apply elem_of_cons in Hin as [->|Hin].
    + vm_compute in Hf. discriminate.
    + apply list_elem_of_singleton in Hin as ->.
      vm_compute in Hf. injection Hf as <-. vm_compute in Hk. discriminate.
  - exists a'. split; [exact Hin | exact Herr].
Defined.

(** ** Duplicate identity keys in a team file (claim C7) *)

(** C7, as stated, fails: a policy file that declares two policies named
    [X] yields a team with both of them and no error. *)
Lemma duplicate_policies_counterexample :
  exists team log,
    parseTeamFile asciiToLower plainQuote exDuplicateWorld "/repo" "/repo/teams/t.yml" []
      = ((Some team, []), log)
    /\ parser.ParsedPolicy.Name <$> parser.ParsedTeam.Policies team = ["X"; "X"]
    /\ parser.ParsedPolicy.Query <$> parser.ParsedTeam.Policies team
       = ["SELECT 1;"; "SELECT 2;"].
Proof. eexists _, _. split; [by vm_compute|]. by split. Qed.

Lemma refPaths_snoc pkgs pkg :
  refPaths (pkgs ++ [pkg])
  = refPaths pkgs ++ (if decide (parser.ParsedSoftwarePackage.RefPath pkg <> "")
                      then [parser.ParsedSoftwarePackage.RefPath pkg] else []).
Proof.
  unfold refPaths. by rewrite fmap_app, filter_app.
Qed.

Lemma packageStep_cases Quote w repoRoot path ref st pkg :
  packageInv st ->
  let c := canonicalRefOf w repoRoot (parser.rawSoftwareRef.Path ref) pkg in
  packageInv (packageStep Quote w repoRoot path ref st pkg)
  /\ (c <> "" -> c ∈ refPaths st.1.1 ->
      packageStep Quote w repoRoot path ref st pkg
      = (st.1.1, st.1.2 ++ [duplicatePackageError Quote path c], st.2))
  /\ (c = "" \/ c ∉ refPaths st.1.1 ->
      exists pkg',
        parser.ParsedSoftwarePackage.RefPath pkg' = c
        /\ packageStep Quote w repoRoot path ref st pkg
           = (st.1.1 ++ [pkg'], st.1.2,
              if decide (c <> "") then {[c]} ∪ st.2 else st.2)).
Proof.
  destruct st as [[pkgs errs] seen]. intros [Hnd Hseen] c. simpl in *.
  unfold packageStep. fold c.
  destruct (String.eqb_spec c "") as [Hc|Hc].
  - split; [|split].
    + split; simpl.
      * rewrite refPaths_snoc. simpl. rewrite decide_False by (by intros ?).
        by rewrite app_nil_r.
      * rewrite refPaths_snoc. simpl. rewrite decide_False by (by intros ?).
        by rewrite app_nil_r.
    + done.
    + intros _. eexists. split; [|rewrite decide_False by (by intros ?); reflexivity].
      done.
  - destruct (decide (c ∈ seen)) as [Hin|Hin].
    + split; [done|]. split; [done|].
      intros [?|Hn]; [done|]. exfalso. apply Hn. subst seen.
      by apply elem_of_list_to_set in Hin.
    + assert (Hn : c ∉ refPaths pkgs).
      { intros H. apply Hin. subst seen. by apply elem_of_list_to_set. }
      split; [|split].
      * split; simpl; rewrite refPaths_snoc; simpl; rewrite decide_True by done.
        -- apply NoDup_app. split; [done|]. split; [|apply NoDup_singleton].
           intros x Hx Hx'. apply list_elem_of_singleton in Hx'. by subst.
        -- subst seen. rewrite list_to_set_app_L. simpl. set_solver.
      * done.
      * intros _. eexists. split; [|rewrite decide_True by done; reflexivity]. done.
Qed.

Lemma packageStep_fold_inv Quote w repoRoot path ref pkgs st :
  packageInv st -> packageInv (foldl (packageStep Quote w repoRoot path ref) st pkgs).
Proof.
  revert st. induction pkgs as [|pkg pkgs IH]; intros st H; simpl; [done|].
  apply IH. by apply packageStep_cases.
Qed.

Lemma packageRefStep_inv Quote w repoRoot dir path st ref log :
  packageInv st ->
  packageInv (packageRefStep Quote w repoRoot dir path st ref log).1.
Proof.
  intros H. unfold packageRefStep, mbind, IO_bind, mret, IO_ret.
  destruct (resolveSoftwareRef Quote w repoRoot dir (parser.rawSoftwareRef.Path ref) path log)
    as [r log'].
  destruct st as [[pkgs errs] seen]. simpl.
  apply packageStep_fold_inv. exact H.
Qed.

Lemma forEach_inv {A S : Type} (P : S -> Prop) (body : S -> A -> IO S) l :
  (forall s x log, P s -> P (body s x log).1) ->
  forall s log, P s -> P (forEach body l s log).1.
Proof.
  intros Hbody. induction l as [|x l IH]; intros s log Hs; simpl; [done|].
  unfold mbind, IO_bind. pose proof (Hbody s x log Hs) as H.
  destruct (body s x log) as [s' log']. by apply IH.
Qed.

(** C7, amended: uniqueness is enforced for the software packages of a team
    file only, on their canonical references.  The packages kept by the
    loop over the package references have pairwise distinct non-empty
    canonical references; a resolved package whose non-empty canonical
    reference is already kept is dropped, not merged, and one
    duplicate-reference error is recorded for it; any other package is
    appended.  The policies and the queries that a reference resolves to
    are all appended, with the errors of the resolution and no others:
    there is no uniqueness check on them. *)
Theorem package_references_unique
    (Quote : string -> string) (w : World) (repoRoot dir path : string)
    (refs : list parser.rawSoftwareRef.t) (errs : list parser.ParseError.t)
    (log : list string) :
  packageInv (forEach (packageRefStep Quote w repoRoot dir path) refs ([], errs, ∅) log).1
  /\ (forall st ref pkg,
        packageInv st ->
        let c := canonicalRefOf w repoRoot (parser.rawSoftwareRef.Path ref) pkg in
        (c <> "" -> c ∈ refPaths st.1.1 ->
         packageStep Quote w repoRoot path ref st pkg
         = (st.1.1, st.1.2 ++ [duplicatePackageError Quote path c], st.2))
        /\ (c = "" \/ c ∉ refPaths st.1.1 ->
            exists pkg',
              parser.ParsedSoftwarePackage.RefPath pkg' = c
              /\ (packageStep Quote w repoRoot path ref st pkg).1
                 = (st.1.1 ++ [pkg'], st.1.2)))
  /\ (forall st ref,
        (policyRefStep Quote w repoRoot dir path st ref log).1
        = (st.1 ++ (resolvePolicyRef Quote w repoRoot dir ref path log).1.1,
           st.2 ++ (resolvePolicyRef Quote w repoRoot dir ref path log).1.2))
  /\ (forall st ref,
        (queryRefStep Quote w repoRoot dir path st ref log).1
        = (st.1 ++ (resolveQueryRef Quote w repoRoot dir ref path log).1.1,
           st.2 ++ (resolveQueryRef Quote w repoRoot dir ref path log).1.2)).
Proof.
  split; [|split; [|split]].
  - apply (forEach_inv packageInv).
    + intros s x l Hs. by apply packageRefStep_inv.
    + split; [constructor | done].
  - intros st ref pkg Hinv c.
    destruct (packageStep_cases Quote w repoRoot path ref st pkg Hinv) as (_ & Hd & Hf).
    split; [exact Hd|]. intros H. destruct (Hf H) as (pkg' & Hr & Hs).
    exists pkg'. split; [done|]. fold c in Hs. by rewrite Hs.
  - intros st ref. unfold policyRefStep, mbind, IO_bind, mret, IO_ret.
    by destruct (resolvePolicyRef Quote w repoRoot dir ref path log).
  - intros st ref. unfold queryRefStep, mbind, IO_bind, mret, IO_ret.
    by destruct (resolveQueryRef Quote w repoRoot dir ref path log).
Qed.

(** The second reference to [software/app.yml] is dropped with an error;
    the package kept is the one of the first reference. *)
Lemma package_references_unique_witness :
  refPaths exAfterFirstRef.1.1 = ["software/app.yml"]
  /\ packageInv exAfterFirstRef
  /\ packageStep plainQuote exDupSoftwareWorld "/repo" "/repo/teams/t.yml"
       (exDupRef false) exAfterFirstRef exResolvedPackage
     = (exAfterFirstRef.1.1,
        exAfterFirstRef.1.2
          ++ [duplicatePackageError plainQuote "/repo/teams/t.yml" "software/app.yml"],
        exAfterFirstRef.2).
Proof.
  destruct (package_references_unique plainQuote exDupSoftwareWorld "/repo" "/repo/teams"
              "/repo/teams/t.yml" [exDupRef true] [] []) as (Hinv & Hstep & _).
  split; [reflexivity|]. split; [exact Hinv|].
  apply (Hstep exAfterFirstRef (exDupRef false) exResolvedPackage Hinv).
  - vm_compute. discriminate.
  - vm_compute. apply list_elem_of_here.
Defined.

(** The whole team file: one package is kept, with the override of the
    first reference, and the duplicate is reported. *)
Example duplicate_package_refs :
  exists team errs log,
    parseTeamFile asciiToLower plainQuote exDupSoftwareWorld "/repo" "/repo/teams/t.yml" []
      = ((Some team, errs), log)
    /\ parser.ParsedSoftwarePackage.RefPath
         <$> parser.ParsedSoftware.Packages (parser.ParsedTeam.Software team)
       = ["software/app.yml"]
    /\ parser.ParsedSoftwarePackage.SelfService
         <$> parser.ParsedSoftware.Packages (parser.ParsedTeam.Software team)
       = [true]
    /\ errs = [duplicatePackageError plainQuote "/repo/teams/t.yml" "software/app.yml"].
Proof. eexists _, _, _. split; [by vm_compute|]. by repeat split. Qed.

(** ** Path containment (claim C5) *)

Lemma s2l_app a b : s2l (a +:+ b) = s2l a ++ s2l b.
Proof. induction a as [|c a IH]; simpl; [done|]. by rewrite IH. Qed.

Lemma string_app_assoc (a b c : string) : (a +:+ b) +:+ c = a +:+ b +:+ c.
Proof.
  induction a as [|x a IH]; [done|].
  change (String x ((a +:+ b) +:+ c) = String x (a +:+ b +:+ c)). by rewrite IH.
Qed.

Lemma hasPrefix_true s p : Text.hasPrefix s p = true -> exists rest, s = p ++ rest.
Proof.
  revert s. induction p as [|x p IH]; intros s H.
  - by exists s.
  - destruct s as [|y s]; [done|]. simpl in H.
    destruct (Ascii.eqb_spec x y) as [->|]; [|done].
    destruct (IH _ H) as [rest ->]. by exists rest.
Qed.

Lemma HasPrefix_true s p : HasPrefix s p = true -> exists rest, s = p +:+ rest.
Proof.
  unfold HasPrefix. intros H. apply hasPrefix_true in H as [rest H].
  exists (l2s rest). rewrite <- (string_of_list_ascii_of_string s), H.
  rewrite <- (list_ascii_of_string_of_list_ascii rest) at 1.
  by rewrite <- s2l_app, string_of_list_ascii_of_string.
Qed.

Lemma safePath_escape Quote w root resolved absRoot absResolved :
  Abs w root = Ok absRoot ->
  Abs w resolved = Ok absResolved ->
  ~ descendant (realPath w absRoot) (realPath w absResolved) ->
  safePath Quote w root resolved = Some (escapeMessage Quote root resolved).
Proof.
  intros Hr Hp Hn. unfold safePath. rewrite Hr, Hp.
  destruct (HasPrefix (realPath w absResolved) (realPath w absRoot +:+ "/")) eqn:E.
  - exfalso. apply Hn. right. apply HasPrefix_true in E as [rest E].
    exists rest. by rewrite E, string_app_assoc.
  - simpl. unfold strNe.
    destruct (String.eqb_spec (realPath w absResolved) (realPath w absRoot)) as [E'|]; [|done].
    exfalso. apply Hn. by left.
Qed.

Lemma readYAMLRef_escape Quote w repoRoot baseDir refPath parentFile label
    absRoot absResolved log :
  repoRoot <> "" -> refPath <> "" ->
  Abs w repoRoot = Ok absRoot ->
  Abs w (Join w baseDir refPath) = Ok absResolved ->
  ~ descendant (realPath w absRoot) (realPath w absResolved) ->
  readYAMLRef Quote w repoRoot baseDir refPath parentFile label log
  = (inl [newParseError parentFile
            (escapeMessage Quote repoRoot (Join w baseDir refPath))], log).
Proof.
  intros Hroot Href Hr Hp Hn. unfold readYAMLRef.
  destruct (String.eqb_spec refPath "") as [?|_]; [done|].
  unfold strNe. destruct (String.eqb_spec repoRoot "") as [?|_]; [done|]. simpl.
  by rewrite (safePath_escape Quote w _ _ _ _ Hr Hp Hn).
Qed.

(** C5: when the repository root is set, a reference whose resolved path
    (made absolute, and with its symbolic links evaluated whenever the
    evaluation succeeds) is neither the root nor below it yields one
    path-escape error against the referring file, reads no file, and leaves
    the loop state otherwise as it is: the policy, query, package, profile
    and label loops go on with the next reference. *)
Theorem path_escape_skipped
    (ToLower Quote : string -> string) (w : World)
    (repoRoot baseDir refPath parentFile absRoot absResolved : string)
    (log : list string) :
  repoRoot <> "" -> refPath <> "" ->
  Abs w repoRoot = Ok absRoot ->
  Abs w (Join w baseDir refPath) = Ok absResolved ->
  ~ descendant (realPath w absRoot) (realPath w absResolved) ->
  let err := newParseError parentFile
               (escapeMessage Quote repoRoot (Join w baseDir refPath)) in
  (forall label,
      readYAMLRef Quote w repoRoot baseDir refPath parentFile label log = (inl [err], log))
  /\ (forall st rest,
        forEach (policyRefStep Quote w repoRoot baseDir parentFile) (refPath :: rest) st log
        = forEach (policyRefStep Quote w repoRoot baseDir parentFile) rest
            (st.1, st.2 ++ [err]) log)
  /\ (forall st rest,
        forEach (queryRefStep Quote w repoRoot baseDir parentFile) (refPath :: rest) st log
        = forEach (queryRefStep Quote w repoRoot baseDir parentFile) rest
            (st.1, st.2 ++ [err]) log)
  /\ (forall st selfService rest,
        forEach (packageRefStep Quote w repoRoot baseDir parentFile)
          (parser.rawSoftwareRef.mk refPath selfService :: rest) st log
        = forEach (packageRefStep Quote w repoRoot baseDir parentFile) rest
            (st.1.1, st.1.2 ++ [err], st.2) log)
  /\ (forall st platform rest,
        forEach (profileRefStep ToLower Quote w repoRoot baseDir parentFile platform)
          (refPath :: rest) st log
        = forEach (profileRefStep ToLower Quote w repoRoot baseDir parentFile platform) rest
            (st.1, st.2 ++ [err]) log)
  /\ (forall st rest,
        forEach (labelRefStep Quote w repoRoot baseDir parentFile) (refPath :: rest) st log
        = forEach (labelRefStep Quote w repoRoot baseDir parentFile) rest
            (st.1, st.2 ++ [err]) log).
Proof.
  intros Hroot Href Hr Hp Hn err.
  pose proof (fun label => readYAMLRef_escape Quote w repoRoot baseDir refPath parentFile
                label absRoot absResolved log Hroot Href Hr Hp Hn) as Hread.
  pose proof (safePath_escape Quote w _ _ _ _ Hr Hp Hn) as Hsafe.
  assert (Hne : strNe repoRoot "" = true).
  { unfold strNe. by destruct (String.eqb_spec repoRoot ""). }
  split; [exact Hread|].
  split; [|split; [|split; [|split]]]; intros st; intros.
  - cbn [forEach]. unfold mbind, IO_bind, policyRefStep, resolvePolicyRef, mbind, IO_bind.
    rewrite Hread. cbn. by rewrite app_nil_r.
  - cbn [forEach]. unfold mbind, IO_bind, queryRefStep, resolveQueryRef, mbind, IO_bind.
    rewrite Hread. cbn. by rewrite app_nil_r.
  - cbn [forEach]. unfold mbind, IO_bind, packageRefStep, resolveSoftwareRef, mbind, IO_bind.
    cbn [parser.rawSoftwareRef.Path]. rewrite Hread. cbn. by destruct st as [[? ?] ?].
  - cbn [forEach]. unfold mbind, IO_bind, profileRefStep. rewrite Hne, Hsafe. done.
  - cbn [forEach]. unfold mbind, IO_bind, labelRefStep.
    destruct (String.eqb_spec refPath "") as [?|_]; [done|].
    rewrite Hne, Hsafe. done.
Qed.

(** The reference [../../etc/passwd] from [/repo/teams/t.yml]: the file
    exists and is readable, and it is not read. *)
Lemma path_escape_skipped_witness :
  ReadFile exEscapeWorld "/etc/passwd" = Ok "root:x:0:0"
  /\ readYAMLRef plainQuote exEscapeWorld "/repo" "/repo/teams" "../../etc/passwd"
       "/repo/teams/t.yml" "" []
     = (inl [newParseError "/repo/teams/t.yml"
               (escapeMessage plainQuote "/repo" "/etc/passwd")], []).
Proof.
  split; [reflexivity|].
  refine (proj1 (path_escape_skipped asciiToLower plainQuote exEscapeWorld
                   "/repo" "/repo/teams" "../../etc/passwd" "/repo/teams/t.yml"
                   "/repo" "/etc/passwd" [] _ _ _ _ _) "").
  - discriminate.
  - discriminate.
  - reflexivity.
  - reflexivity.
  - intros [H|[rest H]]; vm_compute in H; discriminate.
Defined.

(** The whole team file: the policy of the second reference is loaded, the
    escape is reported, and only the team file and the policy file are
    read. *)
Example escaping_reference_skipped :
  exists team,
    parseTeamFile asciiToLower plainQuote exEscapeWorld "/repo" "/repo/teams/t.yml" []
      = ((Some team,
          [newParseError "/repo/teams/t.yml"
             (escapeMessage plainQuote "/repo" "/etc/passwd")]),
         ["/repo/teams/t.yml"; "/repo/policies/p.yml"])
    /\ parser.ParsedPolicy.Name <$> parser.ParsedTeam.Policies team = ["X"].
Proof. eexists. split; [by vm_compute|]. done. Qed.

(** ** Profile identity (claim C6) *)

Lemma index_None_markerValues s :
  Text.index s (s2l needle) = None -> markerValues s = [].
Proof.
  induction s as [|c r IH]; [done|]. cbn [Text.index markerValues].
  destruct (Text.hasPrefix (c :: r) (s2l needle)); [done|].
  destruct (Text.index r (s2l needle)); [done|]. intros _. by rewrite IH.
Qed.

Lemma index_Some_markerValues s idx :
  Text.index s (s2l needle) = Some idx ->
  Text.hasPrefix (drop idx s) (s2l needle) = true
  /\ markerValues s
     = option_list (valueAfter (drop (idx + String.length needle) s))
       ++ markerValues (drop (S idx) s).
Proof.
  revert idx. induction s as [|c r IH]; intros idx; [done|].
  cbn [Text.index markerValues].
  destruct (Text.hasPrefix (c :: r) (s2l needle)) eqn:E.
  - intros [= <-]. by split.
  - destruct (Text.index r (s2l needle)) as [i|] eqn:Ei; [|done].
    intros [= <-]. destruct (IH i eq_refl) as [H1 H2]. by split.
Qed.

(** The marker does not overlap itself: after an occurrence, the next one
    starts behind it. *)
Lemma markerValues_skip t :
  markerValues (drop 1 (s2l needle ++ t)) = markerValues t.
Proof. reflexivity. Qed.

Lemma markerValues_after_occurrence s :
  Text.hasPrefix s (s2l needle) = true ->
  markerValues (drop 1 s) = markerValues (drop (String.length needle) s).
Proof.
  intros H. apply hasPrefix_true in H as [t ->].
  rewrite markerValues_skip. by rewrite drop_app_length'.
Qed.

Lemma extractLoop_spec fuel : forall s d,
  length s <= fuel ->
  extractLoop fuel s d = default d (last (markerValues s)).
Proof.
  induction fuel as [|fuel IH]; intros s d Hlen.
  - destruct s; [done | simpl in Hlen; lia].
  - cbn [extractLoop].
    destruct (Text.index s (s2l needle)) as [idx|] eqn:E.
    + destruct (index_Some_markerValues s idx E) as [Hocc ->].
      rewrite IH by (rewrite length_drop; simpl; lia).
      pose proof (markerValues_after_occurrence (drop idx s) Hocc) as Hskip.
      rewrite !drop_drop in Hskip. replace (idx + 1) with (S idx) in Hskip by lia.
      rewrite Hskip, last_app.
      destruct (last (markerValues (drop (idx + String.length needle) s))); [done|].
      by destruct (valueAfter _).
    + by rewrite index_None_markerValues.
Qed.

Lemma length_s2l s : length (s2l s) = String.length s.
Proof. induction s; simpl; [done|]. by f_equal. Qed.

(** The fuel of [extractMobileconfigName] is enough, and the name it
    returns is the last value that directly follows an occurrence of the
    marker, or the empty string when there is none. *)
Lemma extractMobileconfigName_last_value data :
  extractMobileconfigName data = l2s (default [] (last (markerValues (s2l data)))).
Proof.
  unfold extractMobileconfigName. rewrite extractLoop_spec; [done|].
  by rewrite length_s2l.
Qed.

Lemma extractLoop_fuel fuel1 fuel2 s d :
  length s <= fuel1 -> length s <= fuel2 ->
  extractLoop fuel1 s d = extractLoop fuel2 s d.
Proof. intros H1 H2. by rewrite !extractLoop_spec. Qed.

Lemma afterLastMarker_None s : afterLastMarker s = None -> markerValues s = [].
Proof.
  induction s as [|c r IH]; [done|]. cbn [afterLastMarker markerValues].
  destruct (afterLastMarker r); [done|].
  destruct (Text.hasPrefix (c :: r) (s2l needle)); [done|]. intros _. by rewrite IH.
Qed.

Lemma afterLastMarker_value s rest v :
  afterLastMarker s = Some rest -> valueAfter rest = Some v ->
  last (markerValues s) = Some v.
Proof.
  induction s as [|c r IH]; [done|]. cbn [afterLastMarker markerValues].
  destruct (afterLastMarker r) as [rest'|] eqn:E.
  - intros [= ->] Hv. rewrite last_app, (IH eq_refl Hv). done.
  - destruct (Text.hasPrefix (c :: r) (s2l needle)); [|done].
    intros Heq Hv.
    assert (rest = drop (String.length needle) (c :: r)) as -> by congruence.
    by rewrite (afterLastMarker_None r E), app_nil_r, Hv.
Qed.

(** Where the claim and the code agree: when the last textual occurrence
    of the marker is directly followed (after whitespace) by a complete
    [<string>] element, the name is the trimmed text of that element. *)
(** X21: where a [<string>] value directly follows the last occurrence of
    the marker [<key>PayloadDisplayName</key>] (whitespace apart), the name
    extracted from a [.mobileconfig] file is that value, trimmed: the
    names of the nested payloads before it are overwritten. *)
Lemma extractMobileconfigName_last_occurrence data rest v :
  afterLastMarker (s2l data) = Some rest ->
  valueAfter rest = Some v ->
  extractMobileconfigName data = l2s v.
Proof.
  intros Hrest Hv.
  by rewrite extractMobileconfigName_last_value, (afterLastMarker_value _ _ _ Hrest Hv).
Qed.

(** C6 at the failing input: the last textual occurrence of the marker is
    followed by a comment and then by the string [Top], the top-level
    display name; the loop finds no [<string>] right after that occurrence,
    keeps the value of the earlier, nested occurrence, and the profile is
    identified as [Inner]: neither the value that follows the last
    occurrence nor the file name [wifi]. *)
Lemma display_name_after_comment_missed :
  afterLastMarker (s2l exCommentedPlist)
    = Some (s2l "<!-- label --><string>Top</string></dict></plist>")
  /\ extractMobileconfigName exCommentedPlist = "Inner"
  /\ profileNameFromFilename "/repo/profiles/wifi.mobileconfig" = "wifi"
  /\ exists team log,
       parseTeamFile asciiToLower plainQuote exProfileWorld "/repo" "/repo/teams/t.yml" []
         = ((Some team, []), log)
       /\ parser.ParsedProfile.Name <$> parser.ParsedTeam.Profiles team = ["Inner"].
Proof.
  split; [by vm_compute|]. split; [by vm_compute|]. split; [by vm_compute|].
  eexists _, _. split; [by vm_compute|]. done.
Qed.

(** The cases of [TestExtractMobileconfigName] and of
    [TestExtractProfileNameFallback]. *)
Example extract_top_level_name :
  extractMobileconfigName
    ("<plist version=" +:+ dq +:+ "1.0" +:+ dq +:+ "><dict><key>PayloadContent</key>"
     +:+ "<array><dict><key>PayloadDisplayName</key>" +:+ String "010" ""
     +:+ "<string>Inner Profile</string></dict></array>"
     +:+ "<key>PayloadDisplayName</key>" +:+ String "010" (String "009" "")
     +:+ "<string>Top Level Name</string></dict></plist>")
  = "Top Level Name".
Proof. by vm_compute. Qed.

Example extract_no_marker :
  extractMobileconfigName
    "<plist><dict><key>PayloadType</key><string>Configuration</string></dict></plist>"
  = "".
Proof. by vm_compute. Qed.

Example filename_fallbacks :
  profileNameFromFilename "/path/to/my-profile.mobileconfig" = "my-profile"
  /\ profileNameFromFilename "/path/to/declaration.json" = "declaration"
  /\ profileNameFromFilename "/path/to/windows-policy.xml" = "windows-policy"
  /\ profileNameFromFilename "simple.mobileconfig" = "simple".
Proof. by vm_compute. Qed.

(** ** The repository's tests, on the model *)

(** Scenario A of the specification, and a text with tabs and a carriage
    return. *)
Example normalizeWS_scenarioA :
  normalizeWS ("SELECT   1;" +:+ String "010" "") = "SELECT 1;".
Proof. reflexivity. Qed.

Example normalizeWS_tabs :
  normalizeWS (String "009" " a  b" +:+ String "013" (String "010" "c ")) = "a b c".
Proof. reflexivity. Qed.

(** [TestNormalizeWS]. *)
Example test_normalizeWS :
  normalizeWS "hello" = "hello"
  /\ normalizeWS "  hello  " = "hello"
  /\ normalizeWS ("hello" +:+ nl +:+ "world") = "hello world"
  /\ normalizeWS ("hello" +:+ nl +:+ "  world" +:+ nl +:+ tab +:+ "tab") = "hello world tab"
  /\ normalizeWS ("SELECT 1" +:+ nl +:+ "   FROM table" +:+ nl +:+ "   WHERE x = 1;")
     = "SELECT 1 FROM table WHERE x = 1;"
  /\ normalizeWS "" = ""
  /\ normalizeWS ("  " +:+ nl +:+ tab +:+ "  ") = "".
Proof. by vm_compute. Qed.

(** [TestContainsEnvVar]. *)
Example test_containsEnvVar :
  containsEnvVar "$FLEET_SECRET_WIFI" = true
  /\ containsEnvVar "https://example.com" = false
  /\ containsEnvVar "plain text" = false
  /\ containsEnvVar "value with $VAR inside" = true
  /\ containsEnvVar "" = false.
Proof. by vm_compute. Qed.

(** [TestFlattenMap]. *)
Example test_flattenMap :
  flattenMap
    [("a", AVal "1"); ("b", AMap [("c", AVal "2"); ("d", AMap [("e", AVal "3")])])] ""
  = [("a", "1"); ("b.c", "2"); ("b.d.e", "3")].
Proof. reflexivity. Qed.

(** [TestDiffGlobalConfig]: a new key, a modified value, a placeholder, no
    change. *)
Example test_diffGlobalConfig :
  diffOrgSettings
    [("org_info", AMap [("org_name", AVal "Acme Corp")])]
    [("org_info", AMap [("org_name", AVal "Acme Corp");
                        ("org_logo_url", AVal "https://example.com/logo.png")])]
  = [[mkConfigChange "org_settings" "org_info.org_logo_url" ""
        "https://example.com/logo.png"]]
  /\ diffOrgSettings
       [("server_settings", AMap [("server_url", AVal "https://fleet.old.com");
                                  ("live_query_disabled", AVal "false")])]
       [("server_settings", AMap [("server_url", AVal "https://fleet.new.com");
                                  ("live_query_disabled", AVal "false")])]
     = [[mkConfigChange "org_settings" "server_settings.server_url"
           "https://fleet.old.com" "https://fleet.new.com"]]
  /\ diffOrgSettings
       [("integrations", AMap [("jira", AMap [("api_token", AVal "actual-token")])])]
       [("integrations", AMap [("jira", AMap [("api_token", AVal "$JIRA_API_TOKEN")])])]
     = [[]]
  /\ diffOrgSettings
       [("org_info", AMap [("org_name", AVal "Same Corp")])]
       [("org_info", AMap [("org_name", AVal "Same Corp")])]
     = [[]].
Proof. by vm_compute. Qed.

(** [TestDiffPolicyScenarios]: added, modified (query and critical),
    deleted with hosts, no changes. *)
Example test_diffPolicyScenarios :
  (let d := diffPolicies
              [api.Policy.mk 0 "Existing" "" "" "" "darwin" false 0 0 [] []]
              [parser.ParsedPolicy.mk "Existing" "" "" "" "darwin" false [] [] "";
               parser.ParsedPolicy.mk "New Policy" "" "" "" "windows" false [] [] ""] in
   Name <$> Added d = ["New Policy"] /\ Modified d = [] /\ Deleted d = [])
  /\ (let d := diffPolicies
                 [api.Policy.mk 0 "Disk Encryption" "SELECT 1 FROM old;" "" "" "darwin"
                    false 0 0 [] []]
                 [parser.ParsedPolicy.mk "Disk Encryption" "" "" "SELECT 1 FROM new;"
                    "darwin" true [] [] ""] in
      Added d = [] /\ Deleted d = []
      /\ (fun c => (Name c, dom (Fields c))) <$> Modified d
         = [("Disk Encryption", {["query"; "critical"]})])
  /\ (let d := diffPolicies
                 [api.Policy.mk 0 "Keep" "" "" "" "darwin" false 0 0 [] [];
                  api.Policy.mk 0 "Delete This" "" "" "" "darwin" false 50 0 [] []]
                 [parser.ParsedPolicy.mk "Keep" "" "" "" "darwin" false [] [] ""] in
      Added d = [] /\ Modified d = []
      /\ (fun c => (Name c, HostCount c, Warning c)) <$> Deleted d
         = [("Delete This", 50%N, "will delete policy affecting 50 hosts")])
  /\ diffPolicies
       [api.Policy.mk 0 "P1" "SELECT 1;" "" "" "darwin" false 0 0 [] []]
       [parser.ParsedPolicy.mk "P1" "" "" "SELECT 1;" "darwin" false [] [] ""]
     = emptyDiff.
Proof. by vm_compute. Qed.

(** [TestDiffSoftwarePackageAddedDeleted] and
    [TestDiffSoftwarePackageModified]. *)
Example test_diffSoftwarePackages :
  (let d := diffSoftware asciiToLower
              (api.TeamSoftware.mk
                 [api.TeamSoftwarePackage.mk "https://example.com/old.pkg" "" false
                    "software/mac/old/old.yml";
                  api.TeamSoftwarePackage.mk "https://example.com/keep.pkg" "" false
                    "software/mac/keep/keep.yml"] (Some []) [])
              (parser.ParsedSoftware.mk
                 [parser.ParsedSoftwarePackage.mk "https://example.com/keep.pkg" "" false ""
                    "software/mac/keep/keep.yml";
                  parser.ParsedSoftwarePackage.mk "https://example.com/new.pkg" "" false ""
                    "software/mac/new/new.yml"] [] []) in
   Name <$> Added d = ["software/mac/new/new.yml"]
   /\ Modified d = []
   /\ Name <$> Deleted d = ["software/mac/old/old.yml"])
  /\ (let d := diffSoftware asciiToLower
                 (api.TeamSoftware.mk
                    [api.TeamSoftwarePackage.mk "https://example.com/slack-1.pkg" "abc123"
                       false "software/mac/slack/slack.yml"] (Some []) [])
                 (parser.ParsedSoftware.mk
                    [parser.ParsedSoftwarePackage.mk "https://example.com/slack-2.pkg"
                       "def456" true "" "software/mac/slack/slack.yml"] [] []) in
      (fun c => (Name c, dom (Fields c))) <$> Modified d
      = [("software/mac/slack/slack.yml", {["url"; "hash_sha256"; "self_service"]})]).
Proof. by vm_compute. Qed.

(** [TestDiffFleetMaintainedAppsNullAPIShowsAdded] (scenario C of the
    specification): a null list, no catalog and no titles. *)
Example test_nullFleetMaintainedShowsAdded :
  (fun r => (Name <$> Added (Software r), Modified (Software r), Deleted (Software r),
             Errors r))
    <$> diffOneTeam
          (remoteTeam (api.TeamSoftware.mk [] None [api.TeamAppStoreApp.mk "111" true]) [] [])
          []
          (proposedTeam
             (parser.ParsedSoftware.mk [] [parser.ParsedFleetApp.mk "zoom/darwin" true]
                [parser.ParsedAppStoreApp.mk "111" true]) [])
  = [(["fleet app zoom/darwin"], [], [], [])].
Proof. by vm_compute. Qed.

(** [TestDiffFleetMaintainedAppsInferenceFromTitles]: the title of Google
    Chrome is reconstructed with [self_service] true and compared; the
    title whose package URL is a custom package is left out. *)
Example test_inferenceFromTitles :
  (fun r => (Added (Software r),
             (fun c => (Name c, Fields c !! "self_service")) <$> Modified (Software r),
             Name <$> Deleted (Software r), Errors r))
    <$> diffOneTeam
          (remoteTeam
             (api.TeamSoftware.mk
                [api.TeamSoftwarePackage.mk "https://downloads.example.com/custom-agent.pkg"
                   "" false ""] None [])
             []
             [api.SoftwareTitle.mk 0 "Google Chrome" "apps" 0 None
                (Some (api.SoftwareTitlePackageMeta.mk ""
                         "https://fleet-maintained.example/google-chrome.pkg" true "darwin"));
              api.SoftwareTitle.mk 0 "Custom Agent" "apps" 0 None
                (Some (api.SoftwareTitlePackageMeta.mk ""
                         "https://downloads.example.com/custom-agent.pkg" true "darwin"))])
          [api.FleetMaintainedApp.mk 0 0 "google-chrome/darwin" "Google Chrome" "darwin"]
          (proposedTeam
             (parser.ParsedSoftware.mk []
                [parser.ParsedFleetApp.mk "google-chrome/darwin" false] []) [])
  = [([], [("fleet app google-chrome/darwin", Some (mkFieldDiff "true" "false"))],
      ["https://downloads.example.com/custom-agent.pkg"], [])].
Proof. by vm_compute. Qed.

(** [TestDiffProfilesMatchByContentName] and
    [TestDiffProfilesDetectsRealChanges]. *)
Example test_diffProfiles :
  diffProfiles plainQuote
    [api.Profile.mk "" "fleet_orbit-allowfulldiskaccess" "";
     api.Profile.mk "" "wifi-corporate" ""]
    [parser.ParsedProfile.mk "/repo/profiles/mac/renamed-fulldisk.mobileconfig"
       "fleet_orbit-allowfulldiskaccess" "darwin" "";
     parser.ParsedProfile.mk "/repo/profiles/mac/wifi-corporate.mobileconfig"
       "wifi-corporate" "darwin" ""]
  = (emptyDiff, [])
  /\ (let d := (diffProfiles plainQuote
                  [api.Profile.mk "" "old-profile" ""; api.Profile.mk "" "unchanged-profile" ""]
                  [parser.ParsedProfile.mk "/repo/profiles/mac/unchanged-profile.mobileconfig"
                     "unchanged-profile" "darwin" "";
                   parser.ParsedProfile.mk "/repo/profiles/mac/new-profile.mobileconfig"
                     "new-profile" "darwin" ""]).1 in
      Name <$> Added d = ["new-profile"] /\ Name <$> Deleted d = ["old-profile"]).
Proof. by vm_compute. Qed.

(** * Further properties of the engine *)

Module TrimFacts.
Import Text.

Lemma reSpace_asciiSpace c : reSpace c = true -> asciiSpace c = true.
Proof.
  destruct c as [[] [] [] [] [] [] [] []]; by cbn.
Qed.

(** The left trim drops a prefix, and what is left does not start with a
    space. *)
Lemma trimLeft_spec_aux n : forall s, length s <= n ->
  (exists k, trimLeft s = drop k s) /\ trimLeft (trimLeft s) = trimLeft s
  /\ (forall a r, trimLeft s = a :: r -> asciiSpace a = false).
Proof.
  induction n as [|n IH]; intros s Hlen.
  - destruct s; [|simpl in Hlen; lia]. split; [by exists 0|]. by split.
  - destruct s as [|a r1]; [split; [by exists 0|by split]|].
    simpl in Hlen. cbn [trimLeft].
    destruct (asciiSpace a) eqn:Ea.
    { destruct (IH r1) as ([k Hk] & Hi & Hh); [lia|].
      split; [exists (S k); by rewrite Hk|]. by split. }
    destruct r1 as [|b r2].
    { split; [by exists 0|]. split; [cbn [trimLeft]; by rewrite Ea|].
      by intros ? ? [= <- <-]. }
    simpl in Hlen.
    destruct (isSpace2 a b) eqn:E2.
    { destruct (IH r2) as ([k Hk] & Hi & Hh); [lia|].
      split; [exists (S (S k)); by rewrite Hk|]. by split. }
    destruct r2 as [|c r3].
    { split; [by exists 0|]. split; [cbn [trimLeft]; by rewrite Ea, E2|].
      by intros ? ? [= <- <-]. }
    simpl in Hlen.
    destruct (isSpace3 a b c) eqn:E3.
    { destruct (IH r3) as ([k Hk] & Hi & Hh); [lia|].
      split; [exists (S (S (S k))); by rewrite Hk|]. by split. }
    split; [by exists 0|]. split; [cbn [trimLeft]; by rewrite Ea, E2, E3|].
    by intros ? ? [= <- <-].
Qed.

Lemma trimLeft_drop s : exists k, trimLeft s = drop k s.
Proof. apply (trimLeft_spec_aux (length s)); lia. Qed.

Lemma trimLeft_idemp s : trimLeft (trimLeft s) = trimLeft s.
Proof. apply (trimLeft_spec_aux (length s)); lia. Qed.

Lemma trimLeft_head s a r : trimLeft s = a :: r -> asciiSpace a = false.
Proof. apply (trimLeft_spec_aux (length s)); lia. Qed.

Lemma trimRightRev_spec_aux n : forall s, length s <= n ->
  (exists k, trimRightRev s = drop k s) /\ trimRightRev (trimRightRev s) = trimRightRev s
  /\ (forall a r, trimRightRev s = a :: r -> asciiSpace a = false).
Proof.
  induction n as [|n IH]; intros s Hlen.
  - destruct s; [|simpl in Hlen; lia]. split; [by exists 0|]. by split.
  - destruct s as [|a r1]; [split; [by exists 0|by split]|].
    simpl in Hlen. cbn [trimRightRev].
    destruct (asciiSpace a) eqn:Ea.
    { destruct (IH r1) as ([k Hk] & Hi & Hh); [lia|].
      split; [exists (S k); by rewrite Hk|]. by split. }
    destruct r1 as [|b r2].
    { split; [by exists 0|]. split; [cbn [trimRightRev]; by rewrite Ea|].
      by intros ? ? [= <- <-]. }
    simpl in Hlen.
    destruct (isSpace2 b a) eqn:E2.
    { destruct (IH r2) as ([k Hk] & Hi & Hh); [lia|].
      split; [exists (S (S k)); by rewrite Hk|]. by split. }
    destruct r2 as [|c r3].
    { split; [by exists 0|]. split; [cbn [trimRightRev]; by rewrite Ea, E2|].
      by intros ? ? [= <- <-]. }
    simpl in Hlen.
    destruct (isSpace3 c b a) eqn:E3.
    { destruct (IH r3) as ([k Hk] & Hi & Hh); [lia|].
      split; [exists (S (S (S k))); by rewrite Hk|]. by split. }
    split; [by exists 0|]. split; [cbn [trimRightRev]; by rewrite Ea, E2, E3|].
    by intros ? ? [= <- <-].
Qed.

Lemma trimRightRev_drop s : exists k, trimRightRev s = drop k s.
Proof. apply (trimRightRev_spec_aux (length s)); lia. Qed.

Lemma trimRightRev_idemp s : trimRightRev (trimRightRev s) = trimRightRev s.
Proof. apply (trimRightRev_spec_aux (length s)); lia. Qed.

Lemma trimRightRev_head s a r : trimRightRev s = a :: r -> asciiSpace a = false.
Proof. apply (trimRightRev_spec_aux (length s)); lia. Qed.

Lemma rev_reverse {A : Type} (l : list A) : rev l = reverse l.
Proof. by rewrite rev_alt. Qed.

(** The right trim keeps a prefix. *)
Lemma trimRight_take s : exists k, trimRight s = take k s.
Proof.
  unfold trimRight. destruct (trimRightRev_drop (rev s)) as [k ->].
  exists (length s - k).
  by rewrite !rev_reverse, reverse_drop, reverse_involutive, length_reverse.
Qed.

Lemma trimRight_idemp s : trimRight (trimRight s) = trimRight s.
Proof. unfold trimRight. by rewrite rev_involutive, trimRightRev_idemp. Qed.

Lemma trimRight_last s a : last (trimRight s) = Some a -> asciiSpace a = false.
Proof.
  unfold trimRight. rewrite rev_reverse, last_reverse.
  destruct (trimRightRev (rev s)) as [|b r] eqn:E; [done|].
  intros [= <-]. by eapply trimRightRev_head.
Qed.

Lemma length_trimLeft s : length (trimLeft s) <= length s.
Proof. destruct (trimLeft_drop s) as [k ->]. rewrite length_drop. lia. Qed.

(** A text that does not start with a space keeps this property when it
    is cut on the right. *)
Lemma trimLeft_fixed_prefix p q : trimLeft (p ++ q) = p ++ q -> trimLeft p = p.
Proof.
  intros H. destruct p as [|a p1]; [done|].
  cbn [app trimLeft] in H |- *.
  destruct (asciiSpace a).
  { pose proof (length_trimLeft (p1 ++ q)) as Hl. rewrite H in Hl. simpl in Hl. lia. }
  destruct p1 as [|b p2]; [done|]. cbn [app] in H |- *.
  destruct (isSpace2 a b).
  { pose proof (length_trimLeft (p2 ++ q)) as Hl. rewrite H in Hl. simpl in Hl. lia. }
  destruct p2 as [|c p3]; [done|]. cbn [app] in H |- *.
  destruct (isSpace3 a b c); [|done].
  pose proof (length_trimLeft (p3 ++ q)) as Hl. rewrite H in Hl. simpl in Hl. lia.
Qed.

Lemma trimLeft_trimRight x : trimLeft x = x -> trimLeft (trimRight x) = trimRight x.
Proof.
  intros H. destruct (trimRight_take x) as [k Hk]. rewrite Hk.
  apply (trimLeft_fixed_prefix _ (drop k x)). by rewrite take_drop.
Qed.

Lemma trimSpace_idemp s : trimSpace (trimSpace s) = trimSpace s.
Proof.
  unfold trimSpace.
  rewrite (trimLeft_trimRight (trimLeft s)) by apply trimLeft_idemp.
  apply trimRight_idemp.
Qed.

Lemma trimSpace_head s a r : trimSpace s = a :: r -> asciiSpace a = false.
Proof.
  unfold trimSpace. intros H.
  destruct (trimRight_take (trimLeft s)) as [k Hk]. rewrite Hk in H.
  destruct (trimLeft s) as [|b t] eqn:E; [by destruct k|].
  destruct k; [done|]. simpl in H. injection H as <- _.
  by eapply trimLeft_head.
Qed.

Lemma trimSpace_last s a : last (trimSpace s) = Some a -> asciiSpace a = false.
Proof. apply trimRight_last. Qed.

(** *** Collapsed texts *)

Lemma collapsed_weaken b s : collapsed b s = true -> collapsed false s = true.
Proof.
  destruct s as [|c r]; [done|]. simpl. destruct (reSpace c); [|done].
  destruct b; [|done]. by rewrite andb_false_r.
Qed.

Lemma collapsed_wsReplace s :
  collapsed false (wsReplace false s) = true /\ collapsed true (wsReplace true s) = true.
Proof.
  induction s as [|c r [IHf IHt]]; [done|]. simpl.
  destruct (reSpace c) eqn:Ec; simpl.
  - by rewrite IHt.
  - by rewrite Ec.
Qed.

Lemma wsReplace_collapsed b s : collapsed b s = true -> wsReplace b s = s.
Proof.
  revert b. induction s as [|c r IH]; intros b H; [done|]. simpl in *.
  destruct (reSpace c).
  - apply andb_true_iff in H as [H Hr]. apply andb_true_iff in H as [Hc Hb].
    apply Ascii.eqb_eq in Hc as ->. destruct b; [done|]. by rewrite (IH true).
  - by rewrite (IH false).
Qed.

Lemma collapsed_drop k : forall b s, collapsed b s = true -> collapsed false (drop k s) = true.
Proof.
  induction k as [|k IH]; intros b s H; [by eapply collapsed_weaken|].
  destruct s as [|c r]; [done|]. simpl in *. destruct (reSpace c).
  - apply andb_true_iff in H as [_ Hr]. by eapply IH.
  - by eapply IH.
Qed.

Lemma collapsed_take k : forall b s, collapsed b s = true -> collapsed b (take k s) = true.
Proof.
  induction k as [|k IH]; intros b s H; [done|].
  destruct s as [|c r]; [done|]. simpl in *. destruct (reSpace c).
  - apply andb_true_iff in H as [H Hr]. rewrite H. by apply IH.
  - by apply IH.
Qed.

Lemma collapsed_trimSpace s : collapsed false s = true -> collapsed false (trimSpace s) = true.
Proof.
  intros H. unfold trimSpace.
  destruct (trimRight_take (trimLeft s)) as [k ->].
  destruct (trimLeft_drop s) as [j ->].
  apply collapsed_take. by eapply collapsed_drop.
Qed.

(** A whitespace byte of a collapsed text is a space; it is not the first
    byte if a space precedes the text, and no whitespace byte follows
    it. *)
Lemma collapsed_lookup s : forall b i c,
  collapsed b s = true -> s !! i = Some c -> reSpace c = true ->
  c = " "%char /\ (i = 0 -> b = false)
  /\ (forall d, s !! S i = Some d -> reSpace d = false).
Proof.
  induction s as [|a r IH]; intros b i c H Hi Hc; [done|].
  destruct i as [|i]; simpl in Hi.
  - injection Hi as ->. simpl in H. rewrite Hc in H.
    apply andb_true_iff in H as [H Hr]. apply andb_true_iff in H as [Ha Hb].
    apply Ascii.eqb_eq in Ha. split; [done|]. split; [by destruct b|].
    intros d Hd. simpl in Hd. destruct r as [|e r']; [done|]. injection Hd as ->.
    simpl in Hr. destruct (reSpace d); [|done]. by rewrite andb_false_r in Hr.
  - simpl in H. destruct (reSpace a).
    + apply andb_true_iff in H as [_ Hr].
      destruct (IH true i c Hr Hi Hc) as (? & _ & ?). by split.
    + destruct (IH false i c H Hi Hc) as (? & _ & ?). by split.
Qed.

End TrimFacts.

Lemma s2l_l2s (l : bytes) : s2l (l2s l) = l.
Proof. apply list_ascii_of_string_of_list_ascii. Qed.

Lemma l2s_s2l (s : string) : l2s (s2l s) = s.
Proof. apply string_of_list_ascii_of_string. Qed.

(** [strings.TrimSpace] is idempotent. *)
Lemma TrimSpace_idemp s : TrimSpace (TrimSpace s) = TrimSpace s.
Proof. unfold TrimSpace. by rewrite s2l_l2s, TrimFacts.trimSpace_idemp. Qed.

(** X1: [normalizeWS] is idempotent: a text that has been normalized is
    left as it is by a second normalization, so the values stored in a
    field diff compare equal to themselves. *)
Theorem normalizeWS_idempotent (s : string) :
  normalizeWS (normalizeWS s) = normalizeWS s.
Proof.
  unfold normalizeWS, TrimSpace. rewrite !s2l_l2s. f_equal.
  destruct (TrimFacts.collapsed_wsReplace (s2l s)) as [Hc _].
  rewrite (TrimFacts.wsReplace_collapsed false)
    by by apply TrimFacts.collapsed_trimSpace.
  apply TrimFacts.trimSpace_idemp.
Qed.

(** X2: in a normalized text every byte of the class [\s] (tab, newline,
    form feed, carriage return, space) is a space, is not the first byte,
    and is followed by a byte that is not of that class: the words are
    separated by single spaces and there is no whitespace at either end. *)
Theorem normalizeWS_single_spaces (s : string) (i : nat) (c : ascii) :
  s2l (normalizeWS s) !! i = Some c ->
  Text.reSpace c = true ->
  c = " "%char /\ 0 < i
  /\ exists d, s2l (normalizeWS s) !! S i = Some d /\ Text.reSpace d = false.
Proof.
  unfold normalizeWS, TrimSpace. rewrite !s2l_l2s.
  set (r := Text.trimSpace (Text.wsReplace false (s2l s))).
  intros Hi Hc.
  assert (Hcol : collapsed false r = true).
  { apply TrimFacts.collapsed_trimSpace, TrimFacts.collapsed_wsReplace. }
  destruct (TrimFacts.collapsed_lookup r false i c Hcol Hi Hc) as (-> & _ & Hnext).
  split; [done|]. split.
  - destruct i; [|lia]. destruct r as [|a t] eqn:Er; [done|].
    injection Hi as ->. by apply TrimFacts.trimSpace_head in Er.
  - destruct (r !! S i) as [d|] eqn:Hd; [exists d; split; [done|by apply Hnext]|].
    exfalso. assert (Hl : last r = Some " "%char).
    { rewrite last_lookup. apply lookup_ge_None in Hd.
      apply lookup_lt_Some in Hi as Hlt.
      replace (pred (length r)) with i by lia. done. }
    by apply TrimFacts.trimSpace_last in Hl.
Qed.

Lemma normalizeWS_single_spaces_witness :
  s2l (normalizeWS ("a " +:+ tab +:+ " b")) !! 1 = Some " "%char
  /\ Text.reSpace " " = true
  /\ (" "%char = " "%char /\ 0 < 1
      /\ exists d, s2l (normalizeWS ("a " +:+ tab +:+ " b")) !! 2 = Some d
                   /\ Text.reSpace d = false).
Proof.
  split; [reflexivity|]. split; [reflexivity|].
  apply (normalizeWS_single_spaces ("a " +:+ tab +:+ " b") 1 " "%char); reflexivity.
Defined.
(** ** Diffs with no entry *)

Lemma omap_nil_iff {A B : Type} (f : A -> option B) (l : list A) :
  omap f l = [] <-> Forall (fun x => f x = None) l.
Proof.
  induction l as [|x l IH]; simpl.
  - split; [constructor | done].
  - destruct (f x) eqn:E.
    + split; [done|]. intros H. apply Forall_cons in H as [H _]. congruence.
    + rewrite IH. split; [by constructor | by intros [_ ?]%Forall_cons].
Qed.

Lemma length_omap_le {A B : Type} (f : A -> option B) (l : list A) :
  length (omap f l) <= length l.
Proof.
  unfold omap. induction l as [|x l IH]; simpl; [lia|]. destruct (f x); simpl; lia.
Qed.

(** Two filters that never both keep an element keep at most as many
    elements as there are. *)
Lemma length_omap_exclusive {A B : Type} (f g : A -> option B) (l : list A) :
  (forall x, f x = None \/ g x = None) ->
  length (omap f l) + length (omap g l) <= length l.
Proof.
  intros H. unfold omap. induction l as [|x l IH]; simpl; [lia|].
  destruct (H x) as [-> | ->]; destruct (f x), (g x); simpl; lia.
Qed.

Lemma setIf_empty c k v (m : gmap string FieldDiff) :
  setIf c k v m = ∅ <-> c = false /\ m = ∅.
Proof.
  unfold setIf. destruct c.
  - split; [intros H; by apply insert_non_empty in H | by intros [? _]].
  - split; [by intros -> | by intros [_ ?]].
Qed.

Lemma strNe_false_iff a b : strNe a b = false <-> a = b.
Proof. unfold strNe. rewrite negb_false_iff. apply String.eqb_eq. Qed.

Lemma size_pos_iff (m : gmap string FieldDiff) : 0 < size m <-> m <> ∅.
Proof.
  rewrite <- map_size_empty_iff. lia.
Qed.

Lemma IsEmpty_true d :
  ResourceDiffs.IsEmpty d = true <-> Added d = [] /\ Modified d = [] /\ Deleted d = [].
Proof.
  unfold ResourceDiffs.IsEmpty. rewrite !andb_true_iff, !Nat.eqb_eq, !length_zero_iff_nil. tauto.
Qed.

Lemma policyChangedFields_empty cur p :
  policyChangedFields cur p = ∅ <-> policyUnchanged cur p.
Proof.
  unfold policyChangedFields, policyUnchanged.
  rewrite !setIf_empty, !strNe_false_iff, negb_false_iff, Bool.eqb_true_iff.
  split; [intros (? & ? & ? & ? & ? & _); done | intros (? & ? & ? & ? & ?); done].
Qed.

Lemma queryChangedFields_empty cur q :
  queryChangedFields cur q = ∅ <-> queryUnchanged cur q.
Proof.
  unfold queryChangedFields, queryUnchanged.
  rewrite !setIf_empty, !strNe_false_iff, negb_false_iff, N.eqb_eq,
    andb_false_iff, !strNe_false_iff.
  split; [intros (? & ? & ? & ? & _); done | intros (? & ? & ? & ?); done].
Qed.

Lemma modifiedPolicy_None m p :
  modifiedPolicy m p = None <->
  forall cur, m !! parser.ParsedPolicy.Name p = Some cur -> policyUnchanged cur p.
Proof.
  unfold modifiedPolicy. destruct (m !! parser.ParsedPolicy.Name p) as [cur|].
  - destruct (decide (0 < size (policyChangedFields cur p))) as [H|H].
    + apply size_pos_iff in H. split; [done|]. intros Hc.
      exfalso. apply H, policyChangedFields_empty, Hc. done.
    + split; [|done]. intros _ ? [= <-]. apply policyChangedFields_empty.
      destruct (decide (policyChangedFields cur p = ∅)) as [|Hne]; [done|].
      by apply size_pos_iff in Hne.
  - split; [by intros _ ? ? | done].
Qed.

Lemma modifiedQuery_None m q :
  modifiedQuery m q = None <->
  forall cur, m !! parser.ParsedQuery.Name q = Some cur -> queryUnchanged cur q.
Proof.
  unfold modifiedQuery. destruct (m !! parser.ParsedQuery.Name q) as [cur|].
  - destruct (decide (0 < size (queryChangedFields cur q))) as [H|H].
    + apply size_pos_iff in H. split; [done|]. intros Hc.
      exfalso. apply H, queryChangedFields_empty, Hc. done.
    + split; [|done]. intros _ ? [= <-]. apply queryChangedFields_empty.
      destruct (decide (queryChangedFields cur q = ∅)) as [|Hne]; [done|].
      by apply size_pos_iff in Hne.
  - split; [by intros _ ? ? | done].
Qed.

(** X3: the policy diff has no entry exactly when the two sides declare
    the same policy names and every proposed policy equals the remote
    policy of its name (the one [currentMap] holds) in its query,
    description and resolution up to whitespace, and in its platform and
    critical flag. *)
Theorem diffPolicies_empty_iff (current : list api.Policy.t)
    (proposed : list parser.ParsedPolicy.t) :
  ResourceDiffs.IsEmpty (diffPolicies current proposed) = true <->
  policyKeys current = proposedPolicyKeys proposed
  /\ Forall (fun p => exists cur,
               policyIndex current !! parser.ParsedPolicy.Name p = Some cur
               /\ policyUnchanged cur p) proposed.
Proof.
  rewrite IsEmpty_true, diffPolicies_closed. cbn [Added Modified Deleted].
  rewrite !omap_nil_iff, !Forall_forall. split.
  - intros (Ha & Hm & Hd). split.
    + apply set_eq. intros k. unfold policyKeys, proposedPolicyKeys.
      rewrite !elem_of_list_to_set, !list_elem_of_fmap. split.
      * intros (cur & -> & Hin). specialize (Hd _ Hin). unfold deletedPolicy in Hd.
        destruct (decide (api.Policy.Name cur ∈ proposedPolicyKeys proposed)) as [Hk|];
          [|done].
        unfold proposedPolicyKeys in Hk.
        by rewrite elem_of_list_to_set, list_elem_of_fmap in Hk.
      * intros (p & -> & Hin). specialize (Ha _ Hin). unfold addedPolicy in Ha.
        destruct (policyIndex current !! parser.ParsedPolicy.Name p) as [cur|] eqn:E;
          [|done].
        apply list_elem_of_fmap. apply (index_is_Some api.Policy.Name). by eexists.
    + intros p Hin. specialize (Ha _ Hin). specialize (Hm _ Hin).
      unfold addedPolicy in Ha.
      destruct (policyIndex current !! parser.ParsedPolicy.Name p) as [cur|] eqn:E;
        [|done].
      exists cur. split; [done|]. by apply (modifiedPolicy_None (policyIndex current) p).
  - intros (Hk & Hp). split; [|split].
    + intros p Hin. destruct (Hp _ Hin) as (cur & E & _).
      unfold addedPolicy. by rewrite E.
    + intros p Hin. destruct (Hp _ Hin) as (cur & E & Hu).
      apply modifiedPolicy_None. intros cur'. rewrite E. by intros [= <-].
    + intros cur Hin. unfold deletedPolicy.
      destruct (decide (api.Policy.Name cur ∈ proposedPolicyKeys proposed)) as [|Hn];
        [done|].
      exfalso. apply Hn. rewrite <- Hk. unfold policyKeys.
      apply elem_of_list_to_set, list_elem_of_fmap. by exists cur.
Qed.

(** X4: the query diff has no entry exactly when the two sides declare
    the same query names and every proposed query equals the remote query
    of its name in its text up to whitespace, its interval and its
    platform, and in its logging type unless the proposed query leaves
    the logging type unset. *)
Theorem diffQueries_empty_iff (current : list api.Query.t)
    (proposed : list parser.ParsedQuery.t) :
  ResourceDiffs.IsEmpty (diffQueries current proposed) = true <->
  queryKeys current = proposedQueryKeys proposed
  /\ Forall (fun q => exists cur,
               queryIndex current !! parser.ParsedQuery.Name q = Some cur
               /\ queryUnchanged cur q) proposed.
Proof.
  rewrite IsEmpty_true, diffQueries_closed. cbn [Added Modified Deleted].
  rewrite !omap_nil_iff, !Forall_forall. split.
  - intros (Ha & Hm & Hd). split.
    + apply set_eq. intros k. unfold queryKeys, proposedQueryKeys.
      rewrite !elem_of_list_to_set, !list_elem_of_fmap. split.
      * intros (cur & -> & Hin). specialize (Hd _ Hin). unfold deletedQuery in Hd.
        destruct (decide (api.Query.Name cur ∈ proposedQueryKeys proposed)) as [Hk|];
          [|done].
        unfold proposedQueryKeys in Hk.
        by rewrite elem_of_list_to_set, list_elem_of_fmap in Hk.
      * intros (q & -> & Hin). specialize (Ha _ Hin). unfold addedQuery in Ha.
        destruct (queryIndex current !! parser.ParsedQuery.Name q) as [cur|] eqn:E;
          [|done].
        apply list_elem_of_fmap. apply (index_is_Some api.Query.Name). by eexists.
    + intros q Hin. specialize (Ha _ Hin). specialize (Hm _ Hin).
      unfold addedQuery in Ha.
      destruct (queryIndex current !! parser.ParsedQuery.Name q) as [cur|] eqn:E;
        [|done].
      exists cur. split; [done|]. by apply (modifiedQuery_None (queryIndex current) q).
  - intros (Hk & Hp). split; [|split].
    + intros q Hin. destruct (Hp _ Hin) as (cur & E & _).
      unfold addedQuery. by rewrite E.
    + intros q Hin. destruct (Hp _ Hin) as (cur & E & Hu).
      apply modifiedQuery_None. intros cur'. rewrite E. by intros [= <-].
    + intros cur Hin. unfold deletedQuery.
      destruct (decide (api.Query.Name cur ∈ proposedQueryKeys proposed)) as [|Hn];
        [done|].
      exfalso. apply Hn. rewrite <- Hk. unfold queryKeys.
      apply elem_of_list_to_set, list_elem_of_fmap. by exists cur.
Qed.

(** X5: the number of entries of a diff is bounded by its inputs: every
    proposed policy (query, profile) yields at most one entry, Added or
    Modified, and every remote one at most one Deleted entry; [Total]
    counts the three buckets and is zero exactly for an empty diff. *)
Theorem diff_entry_counts (Quote : string -> string)
    (currentP : list api.Policy.t) (proposedP : list parser.ParsedPolicy.t)
    (currentQ : list api.Query.t) (proposedQ : list parser.ParsedQuery.t)
    (currentF : list api.Profile.t) (proposedF : list parser.ParsedProfile.t) :
  let bounded (d : ResourceDiff) (nCurrent nProposed : nat) :=
    length (Added d) + length (Modified d) <= nProposed
    /\ length (Deleted d) <= nCurrent
    /\ ResourceDiffs.Total d <= nCurrent + nProposed
    /\ (ResourceDiffs.Total d = 0 <-> ResourceDiffs.IsEmpty d = true) in
  bounded (diffPolicies currentP proposedP) (length currentP) (length proposedP)
  /\ bounded (diffQueries currentQ proposedQ) (length currentQ) (length proposedQ)
  /\ bounded (diffProfiles Quote currentF proposedF).1 (length currentF) (length proposedF).
Proof.
  assert (Hb : forall d n m,
    length (Added d) + length (Modified d) <= m -> length (Deleted d) <= n ->
    length (Added d) + length (Modified d) <= m /\ length (Deleted d) <= n
    /\ ResourceDiffs.Total d <= n + m /\ (ResourceDiffs.Total d = 0 <-> ResourceDiffs.IsEmpty d = true)).
  { intros d n m H1 H2. split; [done|]. split; [done|]. unfold ResourceDiffs.Total. split; [lia|].
    rewrite IsEmpty_true, <- !length_zero_iff_nil. lia. }
  cbv zeta. split; [|split]; apply Hb.
  - rewrite diffPolicies_closed. cbn [Added Modified]. apply length_omap_exclusive.
    intros p. unfold addedPolicy, modifiedPolicy.
    destruct (policyIndex currentP !! parser.ParsedPolicy.Name p); auto.
  - rewrite diffPolicies_closed. apply length_omap_le.
  - rewrite diffQueries_closed. cbn [Added Modified]. apply length_omap_exclusive.
    intros q. unfold addedQuery, modifiedQuery.
    destruct (queryIndex currentQ !! parser.ParsedQuery.Name q); auto.
  - rewrite diffQueries_closed. apply length_omap_le.
  - rewrite diffProfiles_closed. cbn [fst Added Modified length].
    rewrite Nat.add_0_r. apply length_omap_le.
  - rewrite diffProfiles_closed. apply length_omap_le.
Qed.
(** ** The results of [Diff], one by one *)

Lemma foldl_snoc_select {A B : Type} (skip : A -> bool) (f : A -> B) (l : list A)
    (acc : list B) :
  foldl (fun acc x => if skip x then acc else acc ++ [f x]) acc l
  = acc ++ (f <$> List.filter (fun x => negb (skip x)) l).
Proof.
  revert acc. induction l as [|x l IH]; intros acc; simpl.
  - by rewrite app_nil_r.
  - rewrite IH. destruct (skip x); simpl; [done|]. by rewrite <- app_assoc.
Qed.

(** [Diff] in closed form: the global result, if any, then one result for
    every selected team, in the order of the proposed teams. *)
Lemma Diff_closed ToLower EqualFold Quote sprintMap current proposed teamFilter :
  Diff ToLower EqualFold Quote sprintMap current proposed teamFilter
  = match parser.ParsedRepo.Global proposed with
    | Some g => if String.eqb teamFilter "" then [globalResult sprintMap current g] else []
    | None => []
    end
    ++ (teamResult ToLower EqualFold Quote current
          (teamIndex (api.FleetState.Teams current))
          (labelIndex (api.FleetState.Labels current))
        <$> List.filter (teamSelected EqualFold teamFilter)
              (parser.ParsedRepo.Teams proposed)).
Proof.
  unfold Diff.
  by rewrite (foldl_snoc_select
                (fun t => strNe teamFilter ""
                          && negb (EqualFold (parser.ParsedTeam.Name t) teamFilter))).
Qed.

Lemma teamResult_Team ToLower EqualFold Quote current currentTeams labelMap t :
  Team (teamResult ToLower EqualFold Quote current currentTeams labelMap t)
  = parser.ParsedTeam.Name t.
Proof.
  unfold teamResult. cbn [Team].
  destruct (currentTeams !! parser.ParsedTeam.Name t) as [cur|].
  - by destruct (diffProfiles Quote _ _).
  - by destruct (EqualFold _ _).
Qed.

Lemma teamResult_Labels ToLower EqualFold Quote current currentTeams labelMap t :
  Labels (teamResult ToLower EqualFold Quote current currentTeams labelMap t)
  = validateLabels t labelMap
      (changedNames
         (Policies (teamResult ToLower EqualFold Quote current currentTeams labelMap t))).
Proof. reflexivity. Qed.

Lemma validateLabels_unchanged team labelMap :
  validateLabels team labelMap ∅ = mkLabelValidation [] [].
Proof.
  unfold validateLabels.
  induction (parser.ParsedTeam.Policies team) as [|p l IH]; [done|]. simpl.
  by destruct (decide (parser.ParsedPolicy.Name p ∈ (∅ : gset string))); [set_solver|].
Qed.

Lemma changedNames_empty d : ResourceDiffs.IsEmpty d = true -> changedNames d = ∅.
Proof.
  intros (Ha & Hm & Hd)%IsEmpty_true. unfold changedNames. rewrite Ha, Hm, Hd.
  simpl. set_solver.
Qed.

(** X6: the results of [Diff] are one entry for the global
    configuration, when the repository has one and no team filter is set,
    followed by one entry for every proposed team that the filter selects,
    in the order of the proposed teams.  A team that only the remote side
    has gets no entry: the deletion of a team is never reported. *)
Theorem Diff_result_teams (ToLower : string -> string)
    (EqualFold : string -> string -> bool) (Quote : string -> string)
    (sprintMap : cfgmap -> string) (current : api.FleetState.t)
    (proposed : parser.ParsedRepo.t) (teamFilter : string) :
  Team <$> Diff ToLower EqualFold Quote sprintMap current proposed teamFilter
  = match parser.ParsedRepo.Global proposed with
    | Some _ => if String.eqb teamFilter "" then ["(global)"] else []
    | None => []
    end
    ++ (parser.ParsedTeam.Name
        <$> List.filter
              (fun t => String.eqb teamFilter ""
                        || EqualFold (parser.ParsedTeam.Name t) teamFilter)
              (parser.ParsedRepo.Teams proposed)).
Proof.
  rewrite Diff_closed, fmap_app. f_equal.
  - destruct (parser.ParsedRepo.Global proposed); [|done].
    by destruct (String.eqb teamFilter "").
  - rewrite <- list_fmap_compose.
    assert (Hf : forall t, teamSelected EqualFold teamFilter t
                         = (String.eqb teamFilter ""
                            || EqualFold (parser.ParsedTeam.Name t) teamFilter)).
    { intros t. unfold teamSelected, strNe.
      destruct (String.eqb teamFilter ""); [done|]. simpl. by rewrite negb_involutive. }
    rewrite (List.filter_ext _ _ Hf).
    apply list_fmap_ext. intros i t _. apply teamResult_Team.
Qed.

(** X7: a result of [Diff] whose policy diff is empty reports no label,
    valid or missing: labels are validated for changed policies only. *)
Theorem Diff_unchanged_policies_no_labels (ToLower : string -> string)
    (EqualFold : string -> string -> bool) (Quote : string -> string)
    (sprintMap : cfgmap -> string) (current : api.FleetState.t)
    (proposed : parser.ParsedRepo.t) (teamFilter : string) :
  Forall (fun r => ResourceDiffs.IsEmpty (Policies r) = true -> Labels r = mkLabelValidation [] [])
    (Diff ToLower EqualFold Quote sprintMap current proposed teamFilter).
Proof.
  rewrite Diff_closed. apply Forall_app. split.
  - destruct (parser.ParsedRepo.Global proposed); [|constructor].
    destruct (String.eqb teamFilter ""); constructor; [done|constructor].
  - apply Forall_fmap, Forall_forall. intros t _. unfold compose. intros He.
    rewrite teamResult_Labels, (changedNames_empty _ He).
    apply validateLabels_unchanged.
Qed.

(** X8: a proposed team named "No team" (in any letter case) that the
    remote snapshot does not list is not diffed: its four diffs and its
    label validation are empty, whatever the team declares, and the only
    message is the count of its policies and queries, when it has any. *)
Theorem no_team_not_diffed (ToLower : string -> string)
    (EqualFold : string -> string -> bool) (Quote : string -> string)
    (current : api.FleetState.t) (currentTeams : gmap string api.Team.t)
    (labelMap : gmap string api.Label.t) (t : parser.ParsedTeam.t) :
  currentTeams !! parser.ParsedTeam.Name t = None ->
  EqualFold (parser.ParsedTeam.Name t) "No team" = true ->
  teamResult ToLower EqualFold Quote current currentTeams labelMap t
  = mkDiffResult (parser.ParsedTeam.Name t) emptyDiff emptyDiff emptyDiff emptyDiff
      (mkLabelValidation [] []) []
      (match parser.ParsedTeam.Policies t, parser.ParsedTeam.Queries t with
       | [], [] => []
       | ps, qs => [noTeamMessage (length ps) (length qs)]
       end).
Proof.
  intros Hc He. unfold teamResult. rewrite Hc, He. cbn.
  rewrite validateLabels_unchanged. f_equal.
  by destruct (parser.ParsedTeam.Policies t), (parser.ParsedTeam.Queries t).
Qed.

Lemma no_team_not_diffed_witness :
  let t := parser.ParsedTeam.mk "no team" [mkProposedPolicy "P" "SELECT 1;"] []
             (parser.ParsedSoftware.mk [] [parser.ParsedFleetApp.mk "zoom/darwin" true] [])
             [] "/repo/teams/no-team.yml" in
  (∅ : gmap string api.Team.t) !! parser.ParsedTeam.Name t = None
  /\ asciiEqualFold (parser.ParsedTeam.Name t) "No team" = true
  /\ teamResult asciiToLower asciiEqualFold plainQuote exNoTeams ∅ ∅ t
     = mkDiffResult "no team" emptyDiff emptyDiff emptyDiff emptyDiff
         (mkLabelValidation [] []) [] [noTeamMessage 1 0].
Proof.
  intros t. split; [reflexivity|]. split; [reflexivity|].
  apply (no_team_not_diffed asciiToLower asciiEqualFold plainQuote exNoTeams ∅ ∅ t);
    reflexivity.
Defined.
(** ** Label validation *)

Section LabelLoop.

Variable labelMap : gmap string api.Label.t.

(** What the entries are checked against: [ok name referencedBy]. *)
Variable ok : string -> string -> Prop.

Lemma checkLabel_inv referencedBy st name :
  labelInv labelMap ok st -> ok name referencedBy ->
  labelInv labelMap ok (checkLabel labelMap referencedBy st name)
  /\ name ∈ (checkLabel labelMap referencedBy st name).2
  /\ st.2 ⊆ (checkLabel labelMap referencedBy st name).2.
Proof.
  destruct st as [v seen]. intros (Hs & Hn & Hv & Hm & Ho) Hok. simpl in *.
  unfold checkLabel. destruct (decide (name ∈ seen)) as [Hin|Hnin].
  { split; [by repeat split|]. by split. }
  assert (Hfresh : name ∉ labelNames v) by (by rewrite Hs, elem_of_list_to_set in Hnin).
  destruct (labelMap !! name) as [l|] eqn:El; unfold labelInv, labelNames in *; simpl.
  - split; [|split; set_solver].
    split; [|split; [|split; [|split]]].
    + rewrite Hs, !fmap_app, !list_to_set_app_L. simpl. set_solver.
    + rewrite fmap_app in Hn, Hfresh. rewrite !fmap_app. simpl.
      apply NoDup_app in Hn as (Hn1 & Hn2 & Hn3).
      rewrite elem_of_app in Hfresh.
      apply NoDup_app. split; [|split; [|done]].
      * apply NoDup_app. split; [done|]. split; [|apply NoDup_singleton].
        intros x Hx ->%list_elem_of_singleton. tauto.
      * intros x [Hx| ->%list_elem_of_singleton]%elem_of_app; [by apply Hn2|tauto].
    + apply Forall_app. split; [done|]. constructor; [|constructor]. by exists l.
    + done.
    + rewrite <- app_assoc. apply Forall_app in Ho as [Ho1 Ho2].
      apply Forall_app. split; [done|]. by constructor.
  - split; [|split; set_solver].
    split; [|split; [|split; [|split]]].
    + rewrite Hs, !fmap_app, !list_to_set_app_L. simpl. set_solver.
    + rewrite app_assoc, fmap_app. simpl. apply NoDup_app.
      split; [done|]. split; [|apply NoDup_singleton].
      intros x Hx ->%list_elem_of_singleton. done.
    + done.
    + apply Forall_app. split; [done|]. by constructor.
    + rewrite app_assoc. apply Forall_app. split; [done|]. by constructor.
Qed.

Lemma checkLabels_inv referencedBy names : forall st,
  labelInv labelMap ok st -> Forall (fun name => ok name referencedBy) names ->
  let st' := foldl (checkLabel labelMap referencedBy) st names in
  labelInv labelMap ok st' /\ (forall name, name ∈ names -> name ∈ st'.2) /\ st.2 ⊆ st'.2.
Proof.
  induction names as [|name names IH]; intros st Hinv Hok; simpl.
  - split; [done|]. split; [by intros ? ?%elem_of_nil | done].
  - apply Forall_cons in Hok as [Hok1 Hok2].
    destruct (checkLabel_inv referencedBy st name Hinv Hok1) as (Hinv' & Hin & Hsub).
    destruct (IH _ Hinv' Hok2) as (Hinv'' & Hall & Hsub').
    split; [done|]. split; [|set_solver].
    intros n [->|Hn]%elem_of_cons; [set_solver | by apply Hall].
Qed.

End LabelLoop.

Lemma validateLabels_inv team labelMap changed (l : list parser.ParsedPolicy.t) : forall st,
  (forall p, p ∈ l -> p ∈ parser.ParsedTeam.Policies team) ->
  labelInv labelMap (labelOf team changed) st ->
  let st' :=
    foldl (fun st p =>
             if decide (parser.ParsedPolicy.Name p ∈ changed) then
               let st := foldl (checkLabel labelMap (parser.ParsedPolicy.Name p)) st
                           (parser.ParsedPolicy.LabelsIncludeAny p) in
               foldl (checkLabel labelMap (parser.ParsedPolicy.Name p)) st
                 (parser.ParsedPolicy.LabelsExcludeAny p)
             else st) st l in
  labelInv labelMap (labelOf team changed) st'
  /\ st.2 ⊆ st'.2
  /\ (forall p name, p ∈ l -> parser.ParsedPolicy.Name p ∈ changed ->
        name ∈ policyLabels p -> name ∈ st'.2).
Proof.
  induction l as [|p l IH]; intros st Hl Hinv; simpl.
  - split; [done|]. split; [done|]. by intros ? ? ?%elem_of_nil.
  - assert (Hp : p ∈ parser.ParsedTeam.Policies team) by (apply Hl; by left).
    assert (Hl' : forall q, q ∈ l -> q ∈ parser.ParsedTeam.Policies team).
    { intros q Hq. apply Hl. by right. }
    destruct (decide (parser.ParsedPolicy.Name p ∈ changed)) as [Hc|Hc].
    + rewrite <- foldl_app. fold (policyLabels p).
      destruct (checkLabels_inv labelMap (labelOf team changed)
                  (parser.ParsedPolicy.Name p) (policyLabels p) st Hinv)
        as (Hinv' & Hall & Hsub).
      { apply Forall_forall. intros name Hname. by exists p. }
      destruct (IH _ Hl' Hinv') as (Hinv'' & Hsub' & Hall').
      split; [done|]. split; [set_solver|].
      intros q name [->|Hq]%elem_of_cons Hqc Hname.
      * apply Hsub'. by apply Hall.
      * by eapply Hall'.
    + destruct (IH _ Hl' Hinv) as (Hinv'' & Hsub' & Hall').
      split; [done|]. split; [done|].
      intros q name [->|Hq]%elem_of_cons Hqc Hname; [done|]. by eapply Hall'.
Qed.

Lemma validateLabels_spec team labelMap changed :
  let v := validateLabels team labelMap changed in
  labelInv labelMap (labelOf team changed) (v, list_to_set (labelNames v))
  /\ (forall p name, p ∈ parser.ParsedTeam.Policies team ->
        parser.ParsedPolicy.Name p ∈ changed ->
        name ∈ policyLabels p -> name ∈ labelNames v).
Proof.
  unfold validateLabels.
  destruct (validateLabels_inv team labelMap changed (parser.ParsedTeam.Policies team)
              (mkLabelValidation [] [], ∅)) as (Hinv & _ & Hall).
  { done. }
  { split; [done|]. split; [constructor|]. by repeat split. }
  simpl in *.
  destruct (foldl _ _ (parser.ParsedTeam.Policies team)) as [v seen]. simpl in *.
  pose proof Hinv as (Hs & _). simpl in Hs. subst seen.
  split; [done|]. intros p name Hp Hc Hn. specialize (Hall p name Hp Hc Hn).
  by apply elem_of_list_to_set in Hall.
Qed.

(** X9: what [validateLabels] reports is right: a label listed as valid
    is a remote label and carries its host count, a label listed as
    missing is not a remote label, and every label listed is referred to
    by the policy that the entry names, which is a changed policy of the
    team. *)
Theorem validateLabels_sound (team : parser.ParsedTeam.t)
    (labelMap : gmap string api.Label.t) (changed : gset string) :
  let v := validateLabels team labelMap changed in
  Forall (fun r => exists l, labelMap !! LabelName r = Some l
                             /\ LabelHostCount r = api.Label.HostCount l) (Valid v)
  /\ Forall (fun r => labelMap !! LabelName r = None /\ LabelHostCount r = 0%N) (Missing v)
  /\ Forall (fun r => exists p,
               p ∈ parser.ParsedTeam.Policies team
               /\ parser.ParsedPolicy.Name p = ReferencedBy r
               /\ ReferencedBy r ∈ changed
               /\ LabelName r ∈ policyLabels p) (Valid v ++ Missing v).
Proof.
  intros v. destruct (validateLabels_spec team labelMap changed) as [(_ & _ & Hv & Hm & Ho) _].
  by repeat split.
Qed.

(** X10: every label that a changed policy of the team refers to,
    through [labels_include_any] or [labels_exclude_any], is reported
    exactly once, as valid or as missing, and no other label is
    reported. *)
Theorem validateLabels_each_once (team : parser.ParsedTeam.t)
    (labelMap : gmap string api.Label.t) (changed : gset string) :
  let v := validateLabels team labelMap changed in
  NoDup (LabelName <$> (Valid v ++ Missing v))
  /\ forall name,
       name ∈ LabelName <$> (Valid v ++ Missing v)
       <-> exists p, p ∈ parser.ParsedTeam.Policies team
                     /\ parser.ParsedPolicy.Name p ∈ changed
                     /\ name ∈ policyLabels p.
Proof.
  intros v.
  destruct (validateLabels_spec team labelMap changed) as [(_ & Hn & _ & _ & Ho) Hall].
  split; [done|]. intros name. split.
  - intros (r & -> & Hr)%list_elem_of_fmap.
    rewrite Forall_forall in Ho. destruct (Ho r Hr) as (p & Hp & Hname & Hc & Hl).
    exists p. by rewrite Hname.
  - intros (p & Hp & Hc & Hl). by eapply Hall.
Qed.
(** ** Flattening a configuration tree and looking a leaf up again *)

Lemma any_induction (P : any -> Prop) :
  (forall s, P (AVal s)) ->
  (forall m, Forall (fun kv => P kv.2) m -> P (AMap m)) ->
  forall v, P v.
Proof.
  intros HV HM. fix IH 1. intros [s|m]; [apply HV|]. apply HM.
  induction m as [|[k v] m IHm]; constructor; [apply IH | apply IHm].
Qed.

Lemma elem_of_flat_map {A B : Type} (f : A -> list B) (l : list A) (x : B) :
  x ∈ flat_map f l <-> exists y, y ∈ l /\ x ∈ f y.
Proof.
  induction l as [|a l IH]; simpl.
  - split; [by intros ?%elem_of_nil | by intros (? & ?%elem_of_nil & _)].
  - rewrite elem_of_app, IH. split.
    + intros [H|(y & Hy & H)]; [exists a | exists y]; (split; [|done]).
      * by left.
      * by right.
    + intros (y & [->|Hy]%elem_of_cons & H); [by left | right; by exists y].
Qed.

Lemma flattenAny_map fullKey m :
  flattenAny fullKey (AMap m)
  = flat_map (fun kv => flattenAny (joinKey fullKey kv.1) kv.2) m.
Proof.
  induction m as [|[k v] m IH]; [done|].
  simpl in *. by rewrite IH.
Qed.

Lemma plainKeys_map m :
  plainKeys (AMap m) = true ->
  NoDup m.*1
  /\ Forall (fun kv => plainKey kv.1 = true /\ plainKeys kv.2 = true) m.
Proof.
  simpl. intros [Hn Hm]%andb_true_iff. split; [by apply bool_decide_eq_true in Hn|].
  clear Hn. induction m as [|[k v] m IH]; [constructor|].
  apply andb_true_iff in Hm as [Hkv Hm]. apply andb_true_iff in Hkv as [Hk Hv].
  constructor; [done | by apply IH].
Qed.

Lemma cfgLookup_elem k v (m : cfgmap) :
  NoDup m.*1 -> (k, v) ∈ m -> cfgLookup k m = Some v.
Proof.
  induction m as [|[k' v'] m IH]; intros Hn Hin; [by apply elem_of_nil in Hin|].
  simpl in *. apply NoDup_cons in Hn as [Hk Hn].
  apply elem_of_cons in Hin as [[= <- <-]|Hin].
  - by rewrite String.eqb_refl.
  - destruct (String.eqb k k') eqn:E; [|by apply IH].
    apply String.eqb_eq in E as <-. exfalso. apply Hk.
    apply list_elem_of_fmap. by exists (k, v).
Qed.

Lemma splitDot_plain s : forall cur,
  existsb (fun c => Ascii.eqb c "."%char) s = false -> splitDot cur s = [l2s (cur ++ s)].
Proof.
  induction s as [|c s IH]; intros cur H; simpl in *.
  - by rewrite app_nil_r.
  - apply orb_false_iff in H as [Hc Hs]. rewrite Hc, (IH _ Hs).
    by rewrite <- app_assoc.
Qed.

Lemma splitDot_snoc s t : forall cur,
  existsb (fun c => Ascii.eqb c "."%char) t = false ->
  splitDot cur (s ++ "."%char :: t) = splitDot cur s ++ [l2s t].
Proof.
  induction s as [|c s IH]; intros cur H; simpl.
  - by rewrite (splitDot_plain t [] H).
  - destruct (Ascii.eqb c "."); [by rewrite (IH _ H) | by apply IH].
Qed.

Lemma plainKey_spec k :
  plainKey k = true ->
  k <> "" /\ existsb (fun c => Ascii.eqb c "."%char) (s2l k) = false.
Proof.
  unfold plainKey, strNe. intros [H1 H2]%andb_true_iff.
  apply negb_true_iff in H1, H2. split; [|done]. intros ->. done.
Qed.

Lemma splitDot_joinKey fullKey k :
  fullKey <> "" -> plainKey k = true ->
  splitDot [] (s2l (joinKey fullKey k)) = splitDot [] (s2l fullKey) ++ [k]
  /\ joinKey fullKey k <> "".
Proof.
  intros Hf [Hk Hd]%plainKey_spec. unfold joinKey.
  destruct (String.eqb fullKey "") eqn:E; [by apply String.eqb_eq in E|].
  split.
  - rewrite !s2l_app. change (s2l ".") with ["."%char]. simpl app.
    by rewrite (splitDot_snoc _ _ _ Hd), l2s_s2l.
  - destruct fullKey; [done|]. done.
Qed.

Lemma splitDot_key k :
  plainKey k = true -> splitDot [] (s2l k) = [k].
Proof.
  intros [_ Hd]%plainKey_spec. rewrite (splitDot_plain _ _ Hd). cbn [app]. by rewrite l2s_s2l.
Qed.

(** The value that [getNestedParts] finds below the entry [(k, v)]. *)
Lemma getNestedParts_step sprintMap (m : cfgmap) k v path x :
  NoDup m.*1 -> (k, v) ∈ m ->
  match v with
  | AVal s => path = [] /\ x = s
  | AMap next => path <> [] /\ getNestedParts sprintMap next path = x
  end ->
  getNestedParts sprintMap m (k :: path) = x.
Proof.
  intros Hn Hin Hv. simpl. rewrite (cfgLookup_elem k v m Hn Hin).
  destruct v as [s|next].
  - by destruct Hv as [-> ->].
  - destruct Hv as [Hp <-]. by destruct path.
Qed.

Lemma flattenAny_lookup sprintMap : forall v fullKey k x,
  plainKeys v = true -> fullKey <> "" -> (k, x) ∈ flattenAny fullKey v ->
  exists path,
    splitDot [] (s2l k) = splitDot [] (s2l fullKey) ++ path
    /\ match v with
       | AVal s => path = [] /\ x = s
       | AMap next => path <> [] /\ getNestedParts sprintMap next path = x
       end.
Proof.
  induction v as [s|m IH] using any_induction; intros fullKey k x Hp Hf Hin.
  - apply list_elem_of_singleton in Hin as [= -> ->]. exists []. by rewrite app_nil_r.
  - rewrite flattenAny_map in Hin.
    apply elem_of_flat_map in Hin as ([k' v'] & Hkv & Hin). simpl in Hin.
    apply plainKeys_map in Hp as [Hn Hall].
    rewrite Forall_forall in IH, Hall.
    destruct (Hall _ Hkv) as [Hk' Hv']. simpl in Hk', Hv'.
    destruct (splitDot_joinKey fullKey k' Hf Hk') as [Hs Hne].
    destruct (IH _ Hkv (joinKey fullKey k') k x Hv' Hne Hin) as (path & Hpath & Hleaf).
    exists (k' :: path). split.
    + by rewrite Hpath, Hs, <- app_assoc.
    + split; [done|]. by eapply getNestedParts_step.
Qed.
(** A leaf of a tree with plain keys that carries no placeholder and is
    compared with the tree itself yields no record. *)
Lemma leafChange_same sprintMap section (m : cfgmap) kv :
  plainKeys (AMap m) = true -> kv ∈ flattenMap m "" ->
  leafChange sprintMap section (Some m) kv = None.
Proof.
  intros Hp Hin. unfold leafChange. destruct (containsEnvVar kv.2); [done|].
  destruct kv as [key val]. simpl.
  assert (Hval : getNestedValue sprintMap m key = val).
  { unfold flattenMap in Hin.
    apply elem_of_flat_map in Hin as ([k v] & Hkv & Hin). simpl in Hin.
    apply plainKeys_map in Hp as [Hn Hall]. rewrite Forall_forall in Hall.
    destruct (Hall _ Hkv) as [Hk Hv]. simpl in Hk, Hv.
    destruct (plainKey_spec k Hk) as [Hne _].
    destruct (flattenAny_lookup sprintMap v k key val Hv Hne Hin) as (path & Hpath & Hleaf).
    unfold getNestedValue. rewrite Hpath, (splitDot_key k Hk). simpl app.
    by eapply getNestedParts_step. }
  by rewrite Hval, (proj2 (strNe_false_iff val val) eq_refl).
Qed.

(** X11: flattening a configuration tree and looking a leaf up again by
    its dotted key gives the leaf's value back, when the keys of the tree
    are plain (not empty, no dot) and each map holds a key once. *)
Theorem flatten_lookup_roundtrip (sprintMap : cfgmap -> string) (m : cfgmap)
    (key val : string) :
  plainKeys (AMap m) = true ->
  (key, val) ∈ flattenMap m "" ->
  getNestedValue sprintMap m key = val.
Proof.
  intros Hp Hin. unfold flattenMap in Hin.
  apply elem_of_flat_map in Hin as ([k v] & Hkv & Hin). simpl in Hin.
  apply plainKeys_map in Hp as [Hn Hall]. rewrite Forall_forall in Hall.
  destruct (Hall _ Hkv) as [Hk Hv]. simpl in Hk, Hv.
  destruct (plainKey_spec k Hk) as [Hne _].
  destruct (flattenAny_lookup sprintMap v k key val Hv Hne Hin) as (path & Hpath & Hleaf).
  unfold getNestedValue. rewrite Hpath, (splitDot_key k Hk). simpl app.
  by eapply getNestedParts_step.
Qed.

Lemma flatten_lookup_roundtrip_witness :
  let m := [("org_info", AMap [("org_name", AVal "Acme"); ("contact", AVal "it")]);
            ("mdm", AMap [("macos_updates", AMap [("deadline", AVal "2026-01-01")])])] in
  plainKeys (AMap m) = true
  /\ ("mdm.macos_updates.deadline", "2026-01-01") ∈ flattenMap m ""
  /\ getNestedValue noMapPrinter m "mdm.macos_updates.deadline" = "2026-01-01".
Proof.
  intros m.
  assert (Hp : plainKeys (AMap m) = true) by (by vm_compute).
  assert (Hin : ("mdm.macos_updates.deadline", "2026-01-01") ∈ flattenMap m "").
  { vm_compute. do 2 apply list_elem_of_further. apply list_elem_of_here. }
  split; [exact Hp|]. split; [exact Hin|].
  exact (flatten_lookup_roundtrip noMapPrinter m _ _ Hp Hin).
Defined.

(** X12: a configuration that is diffed against itself yields no change:
    when every section that the repository declares is the very map that
    it is compared with on the remote side, and the keys are plain,
    [diffConfig] reports nothing. *)
Theorem diffConfig_same_config (sprintMap : cfgmap -> string) (apiConfig : option cfgmap)
    (proposed : parser.ParsedGlobal.t) :
  (forall section m, (section, Some m) ∈ proposedSections proposed ->
     apiSectionOf apiConfig section = Some m /\ plainKeys (AMap m) = true) ->
  diffConfig sprintMap apiConfig proposed = [].
Proof.
  intros H.
  assert (Hsec : forall changes section m,
            (section, Some m) ∈ proposedSections proposed ->
            diffSection sprintMap apiConfig changes (section, Some m) = changes).
  { intros changes section m Hin. rewrite diffSection_closed.
    destruct (H _ _ Hin) as [Hs Hp]. rewrite Hs.
    rewrite (proj2 (omap_nil_iff _ _)); [by rewrite app_nil_r|].
    apply Forall_forall. intros kv Hkv. by apply leafChange_same. }
  unfold diffConfig. fold (proposedSections proposed).
  assert (Hall : forall secs changes, secs ⊆ proposedSections proposed ->
            foldl (diffSection sprintMap apiConfig) changes secs = changes).
  { induction secs as [|[section [m|]] secs IH]; intros changes Hsub; [done| |].
    - cbn [foldl]. rewrite Hsec by (apply Hsub; by left).
      apply IH. intros x Hx. apply Hsub. by right.
    - cbn [foldl diffSection]. apply IH. intros x Hx. apply Hsub. by right. }
  by apply Hall.
Qed.

Lemma diffConfig_same_config_witness :
  let m := [("org_info", AMap [("org_name", AVal "Acme")]);
            ("agent_options", AMap [("config", AMap [("distributed_interval", AVal "10")])])] in
  let g := parser.ParsedGlobal.mk (Some m) None (Some m) [] [] "default.yml" in
  (forall section m', (section, Some m') ∈ proposedSections g ->
     apiSectionOf (Some m) section = Some m' /\ plainKeys (AMap m') = true)
  /\ diffConfig noMapPrinter (Some m) g = [].
Proof.
  intros m g.
  assert (H : forall section m', (section, Some m') ∈ proposedSections g ->
                apiSectionOf (Some m) section = Some m' /\ plainKeys (AMap m') = true).
  { intros section m' Hin. unfold proposedSections, g in Hin. simpl in Hin.
    apply elem_of_cons in Hin as [[= -> ->]|Hin]; [by vm_compute|].
    apply elem_of_cons in Hin as [[=]|Hin].
    apply elem_of_cons in Hin as [[= -> ->]|Hin]; [by vm_compute|].
    by apply elem_of_nil in Hin. }
  split; [exact H|]. exact (diffConfig_same_config noMapPrinter (Some m) g H).
Defined.
(** ** Keys of the software packages *)






(** ** The inferred fleet-maintained apps, as a list *)

(** The lists of [catalogByNamePlatform] hold entries of the catalog. *)
Lemma catalog_fold_elem ToLower (catalog : list api.FleetMaintainedApp.t) :
  forall (m0 : gmap string (list api.FleetMaintainedApp.t)) key apps c,
  foldl (fun m app =>
           let key := fleetCatalogKey ToLower (api.FleetMaintainedApp.Name app)
                        (api.FleetMaintainedApp.Platform app) in
           if String.eqb key "" then m
           else <[key := default [] (m !! key) ++ [app]]> m) m0 catalog !! key = Some apps ->
  c ∈ apps ->
  c ∈ catalog \/ exists apps0, m0 !! key = Some apps0 /\ c ∈ apps0.
Proof.
  induction catalog as [|a catalog IH]; intros m0 key apps c H Hc; simpl in H.
  - right. by exists apps.
  - destruct (IH _ _ _ _ H Hc) as [Hin|(apps0 & Hm & Hc0)]; [left; by right|].
    destruct (String.eqb _ "") eqn:E; [right; by exists apps0|].
    set (k := fleetCatalogKey ToLower _ _) in *.
    destruct (decide (k = key)) as [<-|Hne].
    + rewrite lookup_insert_eq in Hm. injection Hm as <-.
      apply elem_of_app in Hc0 as [Hc0|Hc0].
      * destruct (m0 !! k) as [old|] eqn:Eo; [|by apply elem_of_nil in Hc0].
        right. by exists old.
      * apply list_elem_of_singleton in Hc0 as ->. left. by left.
    + rewrite lookup_insert_ne in Hm by done. right. by exists apps0.
Qed.

Lemma inferTitle_Some ToLower EqualFold custom catalog title app :
  inferTitle ToLower EqualFold custom (catalogByNamePlatform ToLower catalog) title
    = Some app ->
  api.TeamFleetApp.Slug app <> ""
  /\ exists c, c ∈ catalog
       /\ api.TeamFleetApp.Slug app
          = normalizeSoftwarePath ToLower (api.FleetMaintainedApp.Slug c).
Proof.
  unfold inferTitle. destruct (negb _); [done|].
  destruct (api.SoftwareTitle.AppStoreApp title); [done|].
  destruct (api.SoftwareTitle.SoftwarePackage title) as [pkg|]; [|done].
  destruct (_ && _); [done|].
  set (key := fleetCatalogKey ToLower _ _).
  destruct (catalogByNamePlatform ToLower catalog !! key) as [apps|] eqn:E; [|done].
  simpl. destruct apps as [|c [|? ?]]; [done| |done].
  destruct (String.eqb _ "") eqn:Es; [done|]. intros [= <-]. simpl. split.
  - intros H. by rewrite H in Es.
  - exists c. split; [|done]. unfold catalogByNamePlatform in E.
    destruct (catalog_fold_elem ToLower catalog ∅ key [c] c E) as [H|(? & H & _)];
      [by left | done | by rewrite lookup_empty in H].
Qed.

(** The keys of [inferred] are the slugs of its values. *)
Lemma inferred_fold_keys {T : Type} (f : T -> option api.TeamFleetApp.t) (l : list T) :
  forall m0 : gmap string api.TeamFleetApp.t,
  (forall k a, m0 !! k = Some a -> api.TeamFleetApp.Slug a = k) ->
  forall k a,
    foldl (fun inferred title =>
             match f title with
             | Some app => <[api.TeamFleetApp.Slug app := app]> inferred
             | None => inferred
             end) m0 l !! k = Some a ->
    api.TeamFleetApp.Slug a = k.
Proof.
  induction l as [|t l IH]; intros m0 H0 k a H; simpl in H; [by apply H0|].
  eapply IH; [|exact H]. intros k' a' H'.
  destruct (f t) as [app|]; [|by apply H0].
  destruct (decide (api.TeamFleetApp.Slug app = k')) as [<-|Hne].
  - rewrite lookup_insert_eq in H'. by injection H' as <-.
  - rewrite lookup_insert_ne in H' by done. by apply H0.
Qed.

(** X14: when the inference of the fleet-maintained apps yields a list,
    the list is not empty, no slug occurs twice in it, no slug is blank,
    and every slug is the normalized slug of an entry of the catalog: the
    inference never invents an app. *)
Theorem inferFleetMaintainedApps_wf (ToLower : string -> string)
    (EqualFold : string -> string -> bool) (team : api.Team.t)
    (catalog : list api.FleetMaintainedApp.t) (l : list api.TeamFleetApp.t) :
  inferFleetMaintainedApps ToLower EqualFold team catalog = Some l ->
  l <> []
  /\ NoDup (api.TeamFleetApp.Slug <$> l)
  /\ Forall (fun a =>
       api.TeamFleetApp.Slug a <> ""
       /\ exists c, c ∈ catalog
            /\ api.TeamFleetApp.Slug a
               = normalizeSoftwarePath ToLower (api.FleetMaintainedApp.Slug c)) l.
Proof.
  intros H. split; [|split].
  - unfold inferFleetMaintainedApps in H.
    destruct (api.Team.SoftwareTitles team) as [|t ts] eqn:Et; [done|].
    destruct catalog as [|c cs] eqn:Ec; [done|].
    destruct (decide _) as [|Hsize]; [done|]. injection H as <-.
    intros Hnil. apply Hsize. apply (f_equal length) in Hnil.
    by rewrite length_fmap, length_map_to_list in Hnil.
  - pose proof H as H'. unfold inferFleetMaintainedApps in H'.
    destruct (api.Team.SoftwareTitles team) as [|t ts] eqn:Et; [done|].
    destruct catalog as [|c cs] eqn:Ec; [done|].
    destruct (decide _) as [|Hsize]; [done|]. injection H' as <-.
    set (m := inferredMap ToLower EqualFold team (c :: cs)).
    assert (Hk : api.TeamFleetApp.Slug <$> (map_to_list m).*2 = (map_to_list m).*1).
    { rewrite <- list_fmap_compose. apply list_fmap_ext. intros i [k a] Hi. simpl.
      apply list_elem_of_lookup_2, elem_of_map_to_list in Hi.
      unfold m, inferredMap in Hi.
      eapply (inferred_fold_keys _ _ ∅); [|exact Hi].
      intros ? ?. by rewrite lookup_empty. }
    rewrite Hk. apply NoDup_fst_map_to_list.
  - apply Forall_forall. intros a Ha.
    destruct (inferFleetMaintainedApps_elem _ _ _ _ _ _ H Ha) as (title & _ & Ht).
    by eapply inferTitle_Some.
Qed.

Lemma inferFleetMaintainedApps_wf_witness :
  inferFleetMaintainedApps asciiToLower asciiEqualFold exInferTeam exCatalog
    = Some [api.TeamFleetApp.mk "slack/darwin" false]
  /\ [api.TeamFleetApp.mk "slack/darwin" false] <> []
  /\ NoDup (api.TeamFleetApp.Slug <$> [api.TeamFleetApp.mk "slack/darwin" false])
  /\ Forall (fun a =>
       api.TeamFleetApp.Slug a <> ""
       /\ exists c, c ∈ exCatalog
            /\ api.TeamFleetApp.Slug a
               = normalizeSoftwarePath asciiToLower (api.FleetMaintainedApp.Slug c))
       [api.TeamFleetApp.mk "slack/darwin" false].
Proof.
  assert (H : inferFleetMaintainedApps asciiToLower asciiEqualFold exInferTeam exCatalog
              = Some [api.TeamFleetApp.mk "slack/darwin" false]) by (by vm_compute).
  split; [exact H|].
  exact (inferFleetMaintainedApps_wf asciiToLower asciiEqualFold exInferTeam exCatalog _ H).
Defined.

(** * Further properties of the loader *)

(** ** Path containment, in both directions *)

Lemma hasPrefix_app p rest : Text.hasPrefix (p ++ rest) p = true.
Proof. induction p as [|c p IH]; [by destruct rest|]. simpl. by rewrite Ascii.eqb_refl. Qed.

Lemma HasPrefix_app p rest : HasPrefix (p +:+ rest) p = true.
Proof. unfold HasPrefix. rewrite s2l_app. apply hasPrefix_app. Qed.

(** X15: when both paths can be made absolute, [safePath] accepts a path
    exactly when its real path (symbolic links evaluated, where that
    succeeds) is the real path of the root or lies below it, the root
    being followed by a separator: a sibling directory whose name only
    starts with the name of the root is rejected. *)
Theorem safePath_accepts_iff (Quote : string -> string) (w : World)
    (root resolved absRoot absResolved : string) :
  Abs w root = Ok absRoot ->
  Abs w resolved = Ok absResolved ->
  (safePath Quote w root resolved = None
   <-> descendant (realPath w absRoot) (realPath w absResolved)).
Proof.
  intros Hr Hp. split.
  - unfold safePath. rewrite Hr, Hp.
    destruct (HasPrefix (realPath w absResolved) (realPath w absRoot +:+ "/")) eqn:E.
    + intros _. right. apply HasPrefix_true in E as [rest E].
      exists rest. by rewrite E, string_app_assoc.
    + simpl. destruct (strNe _ _) eqn:E'; [done|]. intros _. left.
      by apply strNe_false_iff in E'.
  - intros Hd. unfold safePath. rewrite Hr, Hp.
    destruct Hd as [->|[rest ->]].
    + unfold strNe. by rewrite String.eqb_refl, andb_false_r.
    + by rewrite <- string_app_assoc, HasPrefix_app.
Qed.

Lemma safePath_accepts_iff_witness :
  let w := exampleWorld [] unsupported unsupported unsupported in
  Abs w "/repo" = Ok "/repo"
  /\ Abs w "/repo/teams/../policies/p.yml" = Ok "/repo/policies/p.yml"
  /\ (safePath plainQuote w "/repo" "/repo/teams/../policies/p.yml" = None
      <-> descendant (realPath w "/repo") (realPath w "/repo/policies/p.yml")).
Proof.
  intros w. split; [reflexivity|]. split; [reflexivity|].
  apply (safePath_accepts_iff plainQuote w "/repo" "/repo/teams/../policies/p.yml");
    reflexivity.
Defined.
(** ** One reference, one outcome *)

Lemma readYAMLRef_cases Quote w repoRoot baseDir refPath parentFile label log :
  (exists e, readYAMLRef Quote w repoRoot baseDir refPath parentFile label log
             = (inl [e], log)
             /\ parser.ParseError.Line e = 0 /\ parser.ParseError.File e = parentFile)
  \/ (exists e, readYAMLRef Quote w repoRoot baseDir refPath parentFile label log
                = (inl [e], log ++ [Join w baseDir refPath])
                /\ parser.ParseError.Line e = 0 /\ parser.ParseError.File e = parentFile)
  \/ (exists data, readYAMLRef Quote w repoRoot baseDir refPath parentFile label log
                   = (inr (data, Join w baseDir refPath), log ++ [Join w baseDir refPath])).
Proof.
  unfold readYAMLRef. destruct (String.eqb refPath ""); [left; by eexists|].
  destruct (if strNe repoRoot "" then _ else _); [left; by eexists|].
  unfold mbind, IO_bind, mret, IO_ret, readFile.
  destruct (ReadFile w (Join w baseDir refPath)); [right; right; by eexists|].
  right; left. by eexists.
Qed.

(** X16: resolving a [path:] reference to a policy, query or package file
    has one of two outcomes.  Either the file is read and decoded: then
    there is no error and every item carries the resolved path as its
    source file.  Or there is no item and exactly one error, without a
    line number, recorded against the referring file (empty, escaping or
    unreadable reference) or against the resolved file (YAML error).  At
    most one file is read, the resolved one. *)
Theorem resolve_ref_outcome (Quote : string -> string) (w : World)
    (repoRoot baseDir refPath parentFile : string) (log : list string) :
  let resolved := Join w baseDir refPath in
  refOutcome parser.ParsedPolicy.SourceFile parentFile resolved log
    (resolvePolicyRef Quote w repoRoot baseDir refPath parentFile log)
  /\ refOutcome parser.ParsedQuery.SourceFile parentFile resolved log
       (resolveQueryRef Quote w repoRoot baseDir refPath parentFile log)
  /\ refOutcome parser.ParsedSoftwarePackage.SourceFile parentFile resolved log
       (resolveSoftwareRef Quote w repoRoot baseDir refPath parentFile log).
Proof.
  intros resolved. split; [|split].
  - unfold resolvePolicyRef, mbind, IO_bind.
    destruct (readYAMLRef_cases Quote w repoRoot baseDir refPath parentFile "" log)
      as [(e & -> & Hl & Hf)|[(e & -> & Hl & Hf)|(data & ->)]].
    + right. split; [done|]. split; [exists e; auto|by left].
    + right. split; [done|]. split; [exists e; auto|by right].
    + destruct (decodePolicyList w data) as [items|err]; simpl.
      * left. split; [done|]. split; [|done]. apply Forall_fmap, Forall_forall. done.
      * destruct (decodePolicy w data) as [item|err2]; simpl.
        -- left. split; [done|]. split; [|done]. by constructor.
        -- right. split; [done|]. split; [|by right]. eexists. by repeat split; auto.
  - unfold resolveQueryRef, mbind, IO_bind.
    destruct (readYAMLRef_cases Quote w repoRoot baseDir refPath parentFile "" log)
      as [(e & -> & Hl & Hf)|[(e & -> & Hl & Hf)|(data & ->)]].
    + right. split; [done|]. split; [exists e; auto|by left].
    + right. split; [done|]. split; [exists e; auto|by right].
    + destruct (decodeQueryList w data) as [items|err]; simpl.
      * left. split; [done|]. split; [|done]. apply Forall_fmap, Forall_forall. done.
      * destruct (decodeQuery w data) as [item|err2]; simpl.
        -- left. split; [done|]. split; [|done]. by constructor.
        -- right. split; [done|]. split; [|by right]. eexists. by repeat split; auto.
  - unfold resolveSoftwareRef, mbind, IO_bind.
    destruct (readYAMLRef_cases Quote w repoRoot baseDir refPath parentFile "software " log)
      as [(e & -> & Hl & Hf)|[(e & -> & Hl & Hf)|(data & ->)]].
    + right. split; [done|]. split; [exists e; auto|by left].
    + right. split; [done|]. split; [exists e; auto|by right].
    + destruct (decodePackage w data) as [pkg|err]; simpl.
      * left. split; [done|]. split; [|done]. by constructor.
      * right. split; [done|]. split; [|by right]. eexists. by repeat split; auto.
Qed.
(** ** Platform lists *)

Lemma platformStep_fold parts : forall invalid,
  foldl platformStep invalid parts
  = invalid ++ List.filter (fun p => strNe p "" && negb (bool_decide (p ∈ ValidPlatforms)))
                 (TrimSpace <$> parts).
Proof.
  induction parts as [|p parts IH]; intros invalid; simpl; [by rewrite app_nil_r|].
  rewrite IH. unfold platformStep.
  destruct (strNe (TrimSpace p) "" && _); [|done]. by rewrite <- app_assoc.
Qed.

(** X17: [ValidatePlatform] returns, in their order, the comma-separated
    parts of the platform string that, once trimmed, are neither empty
    nor one of [darwin], [windows], [linux], [chrome]: every string it
    returns is trimmed, non-empty and not a valid platform, and it returns
    none exactly when every part is blank or valid. *)
Theorem ValidatePlatform_spec (platform : string) :
  ValidatePlatform platform
  = List.filter (fun p => strNe p "" && negb (bool_decide (p ∈ ValidPlatforms)))
      (TrimSpace <$> splitComma platform)
  /\ Forall (fun p => p <> "" /\ p ∉ ValidPlatforms /\ TrimSpace p = p)
       (ValidatePlatform platform)
  /\ (ValidatePlatform platform = []
      <-> Forall (fun part => TrimSpace part = "" \/ TrimSpace part ∈ ValidPlatforms)
            (splitComma platform)).
Proof.
  assert (Hclosed : ValidatePlatform platform
    = List.filter (fun p => strNe p "" && negb (bool_decide (p ∈ ValidPlatforms)))
        (TrimSpace <$> splitComma platform)).
  { unfold ValidatePlatform. destruct (String.eqb_spec platform "") as [->|_]; [done|].
    by rewrite platformStep_fold. }
  split; [done|]. rewrite Hclosed. split.
  - apply Forall_forall. intros p Hp. apply list_elem_of_In, filter_In in Hp as [Hin Hf].
    apply andb_true_iff in Hf as [Hne Hv]. split; [|split].
    + intros ->. done.
    + apply negb_true_iff, bool_decide_eq_false in Hv. done.
    + apply list_elem_of_In, list_elem_of_fmap in Hin as (part & -> & _).
      apply TrimSpace_idemp.
  - clear Hclosed. induction (splitComma platform) as [|part parts IH]; simpl.
    + split; [constructor|done].
    + destruct (strNe (TrimSpace part) "") eqn:Hne; simpl.
      * destruct (bool_decide (TrimSpace part ∈ ValidPlatforms)) eqn:Hv; simpl.
        -- rewrite IH. apply bool_decide_eq_true in Hv.
           split; [intros H; constructor; auto | by intros [_ ?]%Forall_cons].
        -- split; [done|]. intros [[H|H] _]%Forall_cons.
           ++ by rewrite H in Hne.
           ++ by apply bool_decide_eq_false in Hv.
      * rewrite IH. apply strNe_false_iff in Hne.
        split; [intros H; constructor; auto | by intros [_ ?]%Forall_cons].
Qed.
(** ** Profile names from file names *)

Lemma stripSlashes_head c l : c <> "/"%char -> stripSlashes (c :: l) = c :: l.
Proof.
  intros H. simpl. destruct (Ascii.eqb_spec c "/") as [->|_]; [done|].
  destruct c as [[] [] [] [] [] [] [] []]; try done.
Qed.

Lemma lastElement_app l rest :
  "/"%char ∉ l -> lastElement (l ++ "/"%char :: rest) = l.
Proof.
  induction l as [|c l IH]; intros H; simpl; [done|].
  apply not_elem_of_cons in H as [Hc Hl].
  destruct (Ascii.eqb_spec c "/") as [->|_]; [done|]. by rewrite IH.
Qed.

(** [filepath.Base] of a joined path is the file name. *)
Lemma Base_join dir file :
  file <> "" -> "/"%char ∉ s2l file -> Base (dir +:+ "/" +:+ file) = file.
Proof.
  intros Hne Hns.
  assert (Hl : s2l file <> []).
  { intros H. apply Hne. apply (f_equal l2s) in H. by rewrite l2s_s2l in H. }
  assert (Hname : rev (lastElement (stripSlashes (rev (s2l (dir +:+ "/" +:+ file)))))
                  = s2l file).
  { rewrite !s2l_app, !rev_app_distr. change (s2l "/") with ["/"%char].
    simpl rev at 2. rewrite <- !app_assoc. simpl app at 2.
    assert (Hrev : "/"%char ∉ rev (s2l file)).
    { intros H. apply Hns. by rewrite TrimFacts.rev_reverse, elem_of_reverse in H. }
    destruct (rev (s2l file)) as [|c l] eqn:Er.
    { exfalso. apply Hl. apply (f_equal (@rev ascii)) in Er.
      by rewrite rev_involutive in Er. }
    apply not_elem_of_cons in Hrev as Hc. destruct Hc as [Hc _].
    rewrite <- app_comm_cons, stripSlashes_head by done.
    rewrite app_comm_cons, lastElement_app by done.
    by rewrite <- Er, rev_involutive. }
  unfold Base. cbv zeta. rewrite !Hname.
  assert (Hp : String.eqb (dir +:+ "/" +:+ file) "" = false) by (by destruct dir).
  rewrite Hp. destruct (s2l file) eqn:Ef; [done|]. by rewrite <- Ef, l2s_s2l.
Qed.

Lemma TrimSuffix_app name ext : TrimSuffix (name +:+ ext) ext = name.
Proof.
  unfold TrimSuffix, HasSuffix. rewrite s2l_app, rev_app_distr, hasPrefix_app.
  rewrite <- !length_s2l, s2l_app, length_app.
  replace (length (s2l name) + length (s2l ext) - length (s2l ext))
    with (length (s2l name)) by lia.
  by rewrite take_app_length, l2s_s2l.
Qed.

Lemma TrimSuffix_none s ext : HasSuffix s ext = false -> TrimSuffix s ext = s.
Proof. unfold TrimSuffix. by intros ->. Qed.

(** Two texts whose last bytes differ: the one is no suffix of the
    other. *)
Lemma HasSuffix_last s t1 t2 a b :
  last (s2l t1) = Some a -> last (s2l t2) = Some b -> a <> b ->
  HasSuffix (s +:+ t1) t2 = false.
Proof.
  intros Ha Hb H. unfold HasSuffix. rewrite s2l_app, rev_app_distr.
  rewrite <- head_reverse, <- TrimFacts.rev_reverse in Ha, Hb.
  destruct (rev (s2l t1)) as [|a' r1]; [done|]. injection Ha as ->.
  destruct (rev (s2l t2)) as [|b' r2]; [done|]. injection Hb as ->.
  simpl. destruct (Ascii.eqb_spec b a) as [->|_]; done.
Qed.

(** X18: [profileNameFromFilename] gives the file name without its
    extension: for a file [name.mobileconfig], [name.json] or [name.xml]
    in any directory, where [name] holds no separator and does not itself
    end in [.json] or [.xml] (the extensions are stripped one after the
    other), the result is [name]. *)
Theorem profileNameFromFilename_strips (dir name ext : string) :
  ext ∈ profileExtensions ->
  "/"%char ∉ s2l name ->
  HasSuffix name ".json" = false ->
  HasSuffix name ".xml" = false ->
  profileNameFromFilename (dir +:+ "/" +:+ name +:+ ext) = name.
Proof.
  intros Hext Hns Hj Hx. unfold profileNameFromFilename.
  assert (Hbase : Base (dir +:+ "/" +:+ name +:+ ext) = name +:+ ext).
  { apply Base_join.
    - unfold profileExtensions in Hext. destruct name; [|done].
      repeat (apply elem_of_cons in Hext as [->|Hext]; [done|]).
      by apply elem_of_nil in Hext.
    - rewrite s2l_app. intros [H|H]%elem_of_app; [done|].
      unfold profileExtensions in Hext.
      repeat (apply elem_of_cons in Hext as [->|Hext];
              [simpl in H; repeat (apply elem_of_cons in H as [H|H]; [done|]);
               by apply elem_of_nil in H|]).
      by apply elem_of_nil in Hext. }
  rewrite Hbase. unfold profileExtensions in Hext. cbn [foldl].
  apply elem_of_cons in Hext as [->|Hext].
  { by rewrite TrimSuffix_app, (TrimSuffix_none _ _ Hj), (TrimSuffix_none _ _ Hx). }
  apply elem_of_cons in Hext as [->|Hext].
  { rewrite (TrimSuffix_none (name +:+ ".json") ".mobileconfig")
      by (by apply (HasSuffix_last name ".json" ".mobileconfig" "n" "g")).
    by rewrite TrimSuffix_app, (TrimSuffix_none _ _ Hx). }
  apply elem_of_cons in Hext as [->|Hext]; [|by apply elem_of_nil in Hext].
  rewrite (TrimSuffix_none (name +:+ ".xml") ".mobileconfig").
  rewrite (TrimSuffix_none (name +:+ ".xml") ".json").
  - apply TrimSuffix_app.
  - by apply (HasSuffix_last name ".xml" ".json" "l" "n").
  - by apply (HasSuffix_last name ".xml" ".mobileconfig" "l" "g").
Qed.

Lemma profileNameFromFilename_strips_witness :
  ".json" ∈ profileExtensions
  /\ "/"%char ∉ s2l "passcode.policy"
  /\ HasSuffix "passcode.policy" ".json" = false
  /\ HasSuffix "passcode.policy" ".xml" = false
  /\ profileNameFromFilename ("/repo/profiles" +:+ "/" +:+ "passcode.policy" +:+ ".json")
     = "passcode.policy".
Proof.
  assert (H1 : ".json" ∈ profileExtensions) by (apply list_elem_of_further, list_elem_of_here).
  assert (H2 : "/"%char ∉ s2l "passcode.policy").
  { simpl. intros H. repeat (apply elem_of_cons in H as [H|H]; [done|]).
    by apply elem_of_nil in H. }
  split; [exact H1|]. split; [exact H2|]. split; [reflexivity|]. split; [reflexivity|].
  exact (profileNameFromFilename_strips "/repo/profiles" "passcode.policy" ".json"
           H1 H2 eq_refl eq_refl).
Defined.
(** ** What [ParseRepo] keeps *)

Lemma resolveTeam_fields ToLower Quote w repoRoot path raw errs log :
  parser.ParsedTeam.Name (resolveTeam ToLower Quote w repoRoot path raw errs log).1.1
    = parser.rawTeamFile.Name raw
  /\ parser.ParsedTeam.SourceFile (resolveTeam ToLower Quote w repoRoot path raw errs log).1.1
     = path.
Proof.
  unfold resolveTeam, mbind, IO_bind, mret, IO_ret.
  repeat match goal with
         | |- context [forEach ?b ?l ?s ?g] =>
             let r := fresh "r" in
             destruct (forEach b l s g) as [r ?]; repeat (destruct r as [r ?])
         end.
  done.
Qed.

Lemma parseTeamFile_Some ToLower Quote w repoRoot path log team errs log' :
  parseTeamFile ToLower Quote w repoRoot path log = ((Some team, errs), log') ->
  parser.ParsedTeam.Name team <> "" /\ parser.ParsedTeam.SourceFile team = path.
Proof.
  unfold parseTeamFile, mbind, IO_bind, mret, IO_ret, readFile.
  destruct (ReadFile w path) as [data|]; [|done].
  destruct (decodeTopLevelKeys w data) as [keys|]; [|done].
  destruct (decodeTeamFile w data) as [raw|]; [|done].
  destruct (String.eqb_spec (parser.rawTeamFile.Name raw) "") as [|Hne]; [done|].
  destruct (resolveTeam_fields ToLower Quote w repoRoot path raw
              (unknownKeyErrors Quote path keys) (log ++ [path])) as [Hn Hs].
  destruct (resolveTeam _ _ _ _ _ _ _ _) as [[t e] l]. simpl in *.
  intros [= <- <- <-]. by rewrite Hn.
Qed.

Lemma teamEntryStep_teams ToLower EqualFold Quote w repoRoot teamFilter
    (entries : list (string * bool)) repo entry log :
  entry ∈ entries ->
  Forall (keptTeam EqualFold w repoRoot teamFilter entries) (parser.ParsedRepo.Teams repo) ->
  Forall (keptTeam EqualFold w repoRoot teamFilter entries)
    (parser.ParsedRepo.Teams
       (teamEntryStep ToLower EqualFold Quote w repoRoot (Join w repoRoot "teams")
          teamFilter repo entry log).1).
Proof.
  intros Hin H. unfold teamEntryStep. destruct entry as [name isDir].
  destruct isDir; [done|]. simpl.
  destruct (HasSuffix name ".yml") eqn:Hyml; [|done]. simpl.
  unfold mbind, IO_bind, mret, IO_ret.
  destruct (parseTeamFile ToLower Quote w repoRoot (Join w (Join w repoRoot "teams") name) log)
    as [[[team|] errs] log'] eqn:Ep; [|done]. simpl.
  apply parseTeamFile_Some in Ep as [Hn Hs].
  destruct (strNe teamFilter "") eqn:Hf; simpl.
  - destruct (EqualFold (parser.ParsedTeam.Name team) teamFilter) eqn:He; simpl; [|done].
    apply Forall_app. split; [done|]. constructor; [|constructor].
    split; [done|]. split; [by right|]. by exists name.
  - apply Forall_app. split; [done|]. constructor; [|constructor].
    split; [done|]. split; [left; by apply strNe_false_iff in Hf|]. by exists name.
Qed.

(** The loop over the entries of [teams/], for a part [l] of them. *)
Lemma teamEntries_teams ToLower EqualFold Quote w repoRoot teamFilter
    (entries l : list (string * bool)) : forall repo log,
  (forall entry, entry ∈ l -> entry ∈ entries) ->
  Forall (keptTeam EqualFold w repoRoot teamFilter entries) (parser.ParsedRepo.Teams repo) ->
  Forall (keptTeam EqualFold w repoRoot teamFilter entries)
    (parser.ParsedRepo.Teams
       (forEach (teamEntryStep ToLower EqualFold Quote w repoRoot (Join w repoRoot "teams")
                   teamFilter) l repo log).1).
Proof.
  induction l as [|entry l IH]; intros repo log Hsub H; simpl; [done|].
  unfold mbind, IO_bind.
  pose proof (teamEntryStep_teams ToLower EqualFold Quote w repoRoot teamFilter entries
                repo entry log (Hsub _ (list_elem_of_here _ _)) H) as Hstep.
  destruct (teamEntryStep _ _ _ _ _ _ _ _ _ _) as [repo' log'].
  apply IH; [|done]. intros e He. apply Hsub. by right.
Qed.

(** X19: every team of the repository that [ParseRepo] returns has a
    non-empty name that passes the team filter (no filter, or equal to it
    up to letter case), and comes from an entry of [teams/] that is a file
    whose name ends in [.yml]: directories and other files, [.yaml] ones
    among them, are not parsed as teams. *)
Theorem ParseRepo_teams (ToLower : string -> string)
    (EqualFold : string -> string -> bool) (Quote : string -> string) (w : World)
    (repoRoot teamFilter defaultFile : string) (log : list string)
    (repo : parser.ParsedRepo.t) (log' : list string) :
  ParseRepo ToLower EqualFold Quote w repoRoot teamFilter defaultFile log = (Ok repo, log') ->
  exists entries,
    (ReadDir w (Join w repoRoot "teams") = DirEntries entries
     \/ (ReadDir w (Join w repoRoot "teams") = DirNotExist /\ entries = []))
    /\ Forall (keptTeam EqualFold w repoRoot teamFilter entries) (parser.ParsedRepo.Teams repo).
Proof.
  unfold ParseRepo.
  destruct (ReadDir w (Join w repoRoot "teams")) as [entries| |err] eqn:Ed.
  - intros H. exists entries. split; [by left|].
    unfold mbind, IO_bind, mret, IO_ret in H.
    pose proof (teamEntries_teams ToLower EqualFold Quote w repoRoot teamFilter entries entries
                  (parser.ParsedRepo.mk [] [] None []) log (fun _ H => H)
                  ltac:(by constructor)) as Hteams.
    destruct (forEach _ entries _ log) as [repo1 log1]. simpl in Hteams.
    destruct (StatSize w _); [|by injection H as <- _].
    destruct (parseDefaultFile _ _ _ _ _) as [[[[g labels]|] errs] log2];
      by injection H as <- _.
  - intros [= <- _]. exists []. split; [by right|]. constructor.
  - done.
Qed.
(** ** Errors of the loader carry no line number *)

Lemma forEach_noLine_pair {A B : Type}
    (body : list B * list parser.ParseError.t -> A -> IO (list B * list parser.ParseError.t))
    (l : list A) :
  (forall st x log, Forall noLine st.2 -> Forall noLine (body st x log).1.2) ->
  forall st log, Forall noLine st.2 -> Forall noLine (forEach body l st log).1.2.
Proof.
  intros Hbody. apply (forEach_inv (fun st => Forall noLine st.2)). exact Hbody.
Qed.

Lemma readYAMLRef_noLine Quote w repoRoot baseDir refPath parentFile label log :
  match (readYAMLRef Quote w repoRoot baseDir refPath parentFile label log).1 with
  | inl errs => Forall noLine errs
  | inr _ => True
  end.
Proof.
  destruct (readYAMLRef_cases Quote w repoRoot baseDir refPath parentFile label log)
    as [(e & -> & Hl & _)|[(e & -> & Hl & _)|(data & ->)]]; simpl; [| |done];
    by constructor.
Qed.

Lemma resolvePolicyRef_noLine Quote w repoRoot baseDir refPath parentFile log :
  Forall noLine (resolvePolicyRef Quote w repoRoot baseDir refPath parentFile log).1.2.
Proof.
  unfold resolvePolicyRef, mbind, IO_bind, mret, IO_ret.
  pose proof (readYAMLRef_noLine Quote w repoRoot baseDir refPath parentFile "" log) as H.
  destruct (readYAMLRef _ _ _ _ _ _ _ _) as [[errs|[data resolved]] log1]; [done|].
  destruct (decodePolicyList w data); [by constructor|].
  destruct (decodePolicy w data); by repeat constructor.
Qed.

Lemma resolveQueryRef_noLine Quote w repoRoot baseDir refPath parentFile log :
  Forall noLine (resolveQueryRef Quote w repoRoot baseDir refPath parentFile log).1.2.
Proof.
  unfold resolveQueryRef, mbind, IO_bind, mret, IO_ret.
  pose proof (readYAMLRef_noLine Quote w repoRoot baseDir refPath parentFile "" log) as H.
  destruct (readYAMLRef _ _ _ _ _ _ _ _) as [[errs|[data resolved]] log1]; [done|].
  destruct (decodeQueryList w data); [by constructor|].
  destruct (decodeQuery w data); by repeat constructor.
Qed.

Lemma resolveSoftwareRef_noLine Quote w repoRoot baseDir refPath parentFile log :
  Forall noLine (resolveSoftwareRef Quote w repoRoot baseDir refPath parentFile log).1.2.
Proof.
  unfold resolveSoftwareRef, mbind, IO_bind, mret, IO_ret.
  pose proof (readYAMLRef_noLine Quote w repoRoot baseDir refPath parentFile "software " log)
    as H.
  destruct (readYAMLRef _ _ _ _ _ _ _ _) as [[errs|[data resolved]] log1]; [done|].
  destruct (decodePackage w data); by repeat constructor.
Qed.

Lemma policyRefStep_noLine Quote w repoRoot dir path st ref log :
  Forall noLine st.2 ->
  Forall noLine (policyRefStep Quote w repoRoot dir path st ref log).1.2.
Proof.
  intros H. unfold policyRefStep, mbind, IO_bind, mret, IO_ret.
  pose proof (resolvePolicyRef_noLine Quote w repoRoot dir ref path log) as Hr.
  destruct (resolvePolicyRef _ _ _ _ _ _ _) as [r log1]. simpl in *.
  apply Forall_app. by split.
Qed.

Lemma queryRefStep_noLine Quote w repoRoot dir path st ref log :
  Forall noLine st.2 ->
  Forall noLine (queryRefStep Quote w repoRoot dir path st ref log).1.2.
Proof.
  intros H. unfold queryRefStep, mbind, IO_bind, mret, IO_ret.
  pose proof (resolveQueryRef_noLine Quote w repoRoot dir ref path log) as Hr.
  destruct (resolveQueryRef _ _ _ _ _ _ _) as [r log1]. simpl in *.
  apply Forall_app. by split.
Qed.

Lemma packageStep_noLine Quote w repoRoot path ref pkgs : forall st,
  Forall noLine st.1.2 ->
  Forall noLine (foldl (packageStep Quote w repoRoot path ref) st pkgs).1.2.
Proof.
  induction pkgs as [|pkg pkgs IH]; intros st H; simpl; [done|].
  apply IH. destruct st as [[ps errs] seen]. unfold packageStep. simpl in *.
  destruct (String.eqb _ ""); [done|].
  destruct (decide _); [|done]. simpl. apply Forall_app. split; [done|].
  by repeat constructor.
Qed.

Lemma packageRefStep_noLine Quote w repoRoot dir path st ref log :
  Forall noLine st.1.2 ->
  Forall noLine (packageRefStep Quote w repoRoot dir path st ref log).1.1.2.
Proof.
  intros H. unfold packageRefStep, mbind, IO_bind, mret, IO_ret.
  pose proof (resolveSoftwareRef_noLine Quote w repoRoot dir
                (parser.rawSoftwareRef.Path ref) path log) as Hr.
  destruct (resolveSoftwareRef _ _ _ _ _ _ _) as [r log1].
  destruct st as [[ps errs] seen]. simpl in *.
  apply packageStep_noLine. simpl. apply Forall_app. by split.
Qed.

Lemma profileRefStep_noLine ToLower Quote w repoRoot dir path platform st ref log :
  Forall noLine st.2 ->
  Forall noLine (profileRefStep ToLower Quote w repoRoot dir path platform st ref log).1.2.
Proof.
  intros H. unfold profileRefStep.
  destruct (if strNe repoRoot "" then _ else _).
  - simpl. apply Forall_app. split; [done|]. by repeat constructor.
  - unfold mbind, IO_bind, mret, IO_ret.
    by destruct (extractProfileName ToLower w (Join w dir ref) log).
Qed.

Lemma labelRefStep_noLine Quote w repoRoot dir path st ref log :
  Forall noLine st.2 ->
  Forall noLine (labelRefStep Quote w repoRoot dir path st ref log).1.2.
Proof.
  intros H. unfold labelRefStep. destruct (String.eqb ref ""); [done|].
  destruct (if strNe repoRoot "" then _ else _).
  - simpl. apply Forall_app. split; [done|]. by repeat constructor.
  - unfold mbind, IO_bind, mret, IO_ret, readFile.
    destruct (ReadFile w (Join w dir ref)) as [data|]; simpl.
    + destruct (decodeLabelList w data); simpl; [done|].
      apply Forall_app. split; [done|]. by repeat constructor.
    + apply Forall_app. split; [done|]. by repeat constructor.
Qed.

Lemma resolveTeam_noLine ToLower Quote w repoRoot path raw errs log :
  Forall noLine errs ->
  Forall noLine (resolveTeam ToLower Quote w repoRoot path raw errs log).1.2.
Proof.
  intros H0. unfold resolveTeam, mbind, IO_bind, mret, IO_ret.
  pose proof (forEach_noLine_pair _ (parser.rawTeamFile.Policies raw)
                (policyRefStep_noLine Quote w repoRoot (Dir w path) path) ([], errs) log H0)
    as H1.
  destruct (forEach _ (parser.rawTeamFile.Policies raw) _ _) as [[policies errs1] log1].
  pose proof (forEach_noLine_pair _ (parser.rawTeamFile.Queries raw)
                (queryRefStep_noLine Quote w repoRoot (Dir w path) path) ([], errs1) log1 H1)
    as H2.
  destruct (forEach _ (parser.rawTeamFile.Queries raw) _ _) as [[queries errs2] log2].
  pose proof (forEach_inv (fun st : packageState => Forall noLine st.1.2) _
                (parser.rawTeamFile.Packages raw)
                (packageRefStep_noLine Quote w repoRoot (Dir w path) path)
                ([], errs2, ∅) log2 H2) as H3.
  destruct (forEach _ (parser.rawTeamFile.Packages raw) _ _)
    as [[[packages errs3] seen] log3].
  pose proof (forEach_noLine_pair _ (parser.rawTeamFile.MacOSCustomSettings raw)
                (profileRefStep_noLine ToLower Quote w repoRoot (Dir w path) path "darwin")
                ([], errs3) log3 H3) as H4.
  destruct (forEach _ (parser.rawTeamFile.MacOSCustomSettings raw) _ _)
    as [[profiles errs4] log4].
  pose proof (forEach_noLine_pair _ (parser.rawTeamFile.WindowsCustomSettings raw)
                (profileRefStep_noLine ToLower Quote w repoRoot (Dir w path) path "windows")
                (profiles, errs4) log4 H4) as H5.
  by destruct (forEach _ (parser.rawTeamFile.WindowsCustomSettings raw) _ _)
    as [[profiles' errs5] log5].
Qed.

Lemma unknownKeyErrors_noLine Quote path keys :
  Forall noLine (unknownKeyErrors Quote path keys).
Proof. unfold unknownKeyErrors. apply Forall_fmap, Forall_forall. done. Qed.

Lemma parseTeamFile_noLine ToLower Quote w repoRoot path log :
  Forall noLine (parseTeamFile ToLower Quote w repoRoot path log).1.2.
Proof.
  unfold parseTeamFile, mbind, IO_bind, mret, IO_ret, readFile.
  destruct (ReadFile w path) as [data|]; [|by repeat constructor].
  destruct (decodeTopLevelKeys w data) as [keys|]; [|by repeat constructor].
  destruct (decodeTeamFile w data) as [raw|]; [|by repeat constructor].
  destruct (String.eqb (parser.rawTeamFile.Name raw) "").
  - simpl. apply Forall_app. split; [apply unknownKeyErrors_noLine|by repeat constructor].
  - pose proof (resolveTeam_noLine ToLower Quote w repoRoot path raw
                  (unknownKeyErrors Quote path keys) (log ++ [path])
                  (unknownKeyErrors_noLine Quote path keys)) as H.
    by destruct (resolveTeam _ _ _ _ _ _ _ _) as [[t e] l].
Qed.

Lemma parseDefaultFile_noLine Quote w repoRoot path log :
  Forall noLine (parseDefaultFile Quote w repoRoot path log).1.2.
Proof.
  unfold parseDefaultFile, mbind, IO_bind, mret, IO_ret, readFile.
  destruct (ReadFile w path) as [data|]; [|by repeat constructor].
  destruct (decodeDefaultMap w data) as [rawMap|]; [|by repeat constructor].
  destruct (decodeDefaultRefs w data) as [[[labelRefs policyRefs] queryRefs]|];
    [|by repeat constructor].
  pose proof (forEach_noLine_pair _ policyRefs
                (policyRefStep_noLine Quote w repoRoot (Dir w path) path) ([], [])
                (log ++ [path]) ltac:(by constructor)) as H1.
  destruct (forEach _ policyRefs _ _) as [[policies errs1] log1].
  pose proof (forEach_noLine_pair _ queryRefs
                (queryRefStep_noLine Quote w repoRoot (Dir w path) path) ([], errs1) log1 H1)
    as H2.
  destruct (forEach _ queryRefs _ _) as [[queries errs2] log2].
  pose proof (forEach_noLine_pair _ labelRefs
                (labelRefStep_noLine Quote w repoRoot (Dir w path) path) ([], errs2) log2 H2)
    as H3.
  by destruct (forEach _ labelRefs _ _) as [[labels errs3] log3].
Qed.

Lemma teamEntryStep_noLine ToLower EqualFold Quote w repoRoot teamsDir teamFilter
    repo entry log :
  Forall noLine (parser.ParsedRepo.Errors repo) ->
  Forall noLine
    (parser.ParsedRepo.Errors
       (teamEntryStep ToLower EqualFold Quote w repoRoot teamsDir teamFilter repo entry log).1).
Proof.
  intros H. unfold teamEntryStep. destruct entry as [name isDir].
  destruct (isDir || negb (HasSuffix name ".yml")); [done|].
  unfold mbind, IO_bind, mret, IO_ret.
  pose proof (parseTeamFile_noLine ToLower Quote w repoRoot (Join w teamsDir name) log) as Hp.
  destruct (parseTeamFile _ _ _ _ _ _) as [[[team|] errs] log1]; simpl in *.
  - destruct (strNe teamFilter "" && _); simpl; apply Forall_app; by split.
  - apply Forall_app. by split.
Qed.

(** X20: no error of the repository that [ParseRepo] returns carries a
    line number, so that [ParseError.Error] prints every one of them as
    the file, a colon and the message. *)
Theorem ParseRepo_errors_no_line (ToLower : string -> string)
    (EqualFold : string -> string -> bool) (Quote : string -> string) (w : World)
    (repoRoot teamFilter defaultFile : string) (log : list string)
    (repo : parser.ParsedRepo.t) (log' : list string) :
  ParseRepo ToLower EqualFold Quote w repoRoot teamFilter defaultFile log = (Ok repo, log') ->
  Forall (fun e => parser.ParseError.Line e = 0
                   /\ ParseErrors.Error e
                      = parser.ParseError.File e +:+ ": " +:+ parser.ParseError.Message e)
    (parser.ParsedRepo.Errors repo).
Proof.
  intros H.
  assert (Hn : Forall noLine (parser.ParsedRepo.Errors repo)).
  { unfold ParseRepo in H.
    destruct (ReadDir w (Join w repoRoot "teams")) as [entries| |err].
    - unfold mbind, IO_bind, mret, IO_ret in H.
      pose proof (forEach_inv (fun r => Forall noLine (parser.ParsedRepo.Errors r)) _ entries
                    (teamEntryStep_noLine ToLower EqualFold Quote w repoRoot
                       (Join w repoRoot "teams") teamFilter)
                    (parser.ParsedRepo.mk [] [] None []) log ltac:(by constructor)) as H1.
      destruct (forEach _ entries _ log) as [repo1 log1]. simpl in H1.
      destruct (StatSize w _); [|by injection H as <- _].
      match type of H with
      | context [parseDefaultFile ?q ?w ?r ?p ?l] =>
          pose proof (parseDefaultFile_noLine q w r p l) as H2;
          destruct (parseDefaultFile q w r p l) as [[[[g labels]|] errs] log2]
      end; injection H as <- _; simpl in *; apply Forall_app; by split.
    - injection H as <- _. by repeat constructor.
    - done. }
  eapply Forall_impl; [exact Hn|]. intros e He. unfold noLine in He.
  split; [done|]. unfold ParseErrors.Error. by rewrite He.
Qed.
Lemma exTeamsWorld_run :
  exists repo log',
    ParseRepo asciiToLower asciiEqualFold plainQuote exTeamsWorld "/repo" "" "" []
      = (Ok repo, log')
    /\ parser.ParsedTeam.Name <$> parser.ParsedRepo.Teams repo = ["Workstations"]
    /\ parser.ParsedTeam.SourceFile <$> parser.ParsedRepo.Teams repo = ["/repo/teams/a.yml"]
    /\ length (parser.ParsedRepo.Errors repo) = 1
    /\ log' = ["/repo/teams/a.yml"; "/repo/policies/p.yml"; "/repo/policies/missing.yml"].
Proof. eexists _, _. split; [by vm_compute|]. by repeat split. Qed.

Lemma ParseRepo_teams_witness :
  exists repo log',
    ParseRepo asciiToLower asciiEqualFold plainQuote exTeamsWorld "/repo" "" "" []
      = (Ok repo, log')
    /\ parser.ParsedTeam.Name <$> parser.ParsedRepo.Teams repo = ["Workstations"]
    /\ exists entries,
         (ReadDir exTeamsWorld (Join exTeamsWorld "/repo" "teams") = DirEntries entries
          \/ (ReadDir exTeamsWorld (Join exTeamsWorld "/repo" "teams") = DirNotExist
              /\ entries = []))
         /\ Forall (keptTeam asciiEqualFold exTeamsWorld "/repo" "" entries)
              (parser.ParsedRepo.Teams repo).
Proof.
  destruct exTeamsWorld_run as (repo & log' & H & Hn & _).
  exists repo, log'. split; [exact H|]. split; [exact Hn|].
  exact (ParseRepo_teams asciiToLower asciiEqualFold plainQuote exTeamsWorld "/repo" "" ""
           [] repo log' H).
Defined.

Lemma ParseRepo_errors_no_line_witness :
  exists repo log',
    ParseRepo asciiToLower asciiEqualFold plainQuote exTeamsWorld "/repo" "" "" []
      = (Ok repo, log')
    /\ length (parser.ParsedRepo.Errors repo) = 1
    /\ Forall (fun e => parser.ParseError.Line e = 0
                        /\ ParseErrors.Error e
                           = parser.ParseError.File e +:+ ": "
                             +:+ parser.ParseError.Message e)
         (parser.ParsedRepo.Errors repo).
Proof.
  destruct exTeamsWorld_run as (repo & log' & H & _ & _ & He & _).
  exists repo, log'. split; [exact H|]. split; [exact He|].
  exact (ParseRepo_errors_no_line asciiToLower asciiEqualFold plainQuote exTeamsWorld
           "/repo" "" "" [] repo log' H).
Defined.

Lemma extractMobileconfigName_last_occurrence_witness :
  afterLastMarker (s2l exTwoNames)
    = Some (s2l (nl +:+ tab +:+ "<string> Top </string></dict></plist>"))
  /\ valueAfter (s2l (nl +:+ tab +:+ "<string> Top </string></dict></plist>"))
     = Some (s2l "Top")
  /\ extractMobileconfigName exTwoNames = "Top".
Proof.
  assert (H1 : afterLastMarker (s2l exTwoNames)
               = Some (s2l (nl +:+ tab +:+ "<string> Top </string></dict></plist>")))
    by (by vm_compute).
  assert (H2 : valueAfter (s2l (nl +:+ tab +:+ "<string> Top </string></dict></plist>"))
               = Some (s2l "Top")) by (by vm_compute).
  split; [exact H1|]. split; [exact H2|].
  exact (extractMobileconfigName_last_occurrence exTwoNames _ _ H1 H2).
Defined.

(** [TestValidatePlatform] and [TestValidateLogging]. *)
Example test_ValidatePlatform :
  ValidatePlatform "darwin" = [] /\ ValidatePlatform "windows" = []
  /\ ValidatePlatform "linux" = [] /\ ValidatePlatform "chrome" = []
  /\ ValidatePlatform "darwin,windows" = []
  /\ ValidatePlatform "darwin,windows,linux" = []
  /\ ValidatePlatform "" = []
  /\ ValidatePlatform "macos" = ["macos"]
  /\ ValidatePlatform "darwin,macos" = ["macos"]
  /\ ValidatePlatform "osx" = ["osx"].
Proof. by vm_compute. Qed.

Example test_ValidateLogging :
  ValidateLogging "snapshot" = true /\ ValidateLogging "differential" = true
  /\ ValidateLogging "differential_ignore_removals" = true
  /\ ValidateLogging "" = true /\ ValidateLogging "invalid" = false.
Proof. by vm_compute. Qed.

(** * Authentication *)

Import config.

(** X22: flags win over the environment, and the environment over the
    configuration files: when a URL and a token can be had from the flags
    and, for what a flag leaves empty, from the environment variables,
    [ResolveAuth] returns them and reads no configuration file. *)
Theorem ResolveAuth_flags_then_env (h : host.t) (flagURL flagToken : string)
    (repoRoot log : list string) :
  let url := orElse flagURL (host.Getenv h EnvURL) in
  let token := orElse flagToken (host.Getenv h EnvToken) in
  url <> "" -> token <> "" ->
  ResolveAuth h flagURL flagToken repoRoot log = (Ok (ResolvedAuth.mk url token), log).
Proof.
  intros url token Hu Ht. unfold ResolveAuth, orElse in *. fold url token.
  destruct (String.eqb_spec url "") as [|_]; [done|].
  destruct (String.eqb_spec token "") as [|_]; [done|]. simpl.
  unfold mbind, IO_bind, mret, IO_ret. simpl.
  destruct (String.eqb_spec url "") as [|_]; [done|].
  by destruct (String.eqb_spec token "") as [|_].
Qed.

Lemma ResolveAuth_flags_then_env_witness :
  orElse "https://flag.example.com" (exEnv EnvURL) <> ""
  /\ orElse "" (exEnv EnvToken) <> ""
  /\ ResolveAuth (exHost exEnv) "https://flag.example.com" "" ["/repo"] []
     = (Ok (ResolvedAuth.mk "https://flag.example.com" "env-token"), []).
Proof.
  split; [done|]. split; [done|].
  by apply (ResolveAuth_flags_then_env (exHost exEnv) "https://flag.example.com" "" ["/repo"] []).
Defined.

(** X23: when [ResolveAuth] succeeds, neither the URL nor the token is
    empty, and each of them is the flag when the flag is set, else the
    environment variable when that is set; only what both leave empty
    can come from a configuration file. *)
Theorem ResolveAuth_priority (h : host.t) (flagURL flagToken : string)
    (repoRoot log log' : list string) (a : ResolvedAuth.t) :
  ResolveAuth h flagURL flagToken repoRoot log = (Ok a, log') ->
  ResolvedAuth.URL a <> "" /\ ResolvedAuth.Token a <> ""
  /\ (orElse flagURL (host.Getenv h EnvURL) <> "" ->
      ResolvedAuth.URL a = orElse flagURL (host.Getenv h EnvURL))
  /\ (orElse flagToken (host.Getenv h EnvToken) <> "" ->
      ResolvedAuth.Token a = orElse flagToken (host.Getenv h EnvToken)).
Proof.
  unfold ResolveAuth. fold (orElse flagURL (host.Getenv h EnvURL)).
  fold (orElse flagToken (host.Getenv h EnvToken)).
  set (url := orElse flagURL (host.Getenv h EnvURL)).
  set (token := orElse flagToken (host.Getenv h EnvToken)).
  unfold mbind, IO_bind, mret, IO_ret.
  destruct (String.eqb_spec url "") as [Eu|Eu], (String.eqb_spec token "") as [Et|Et];
    simpl.
  all: try destruct (findConfigAuth h repoRoot log) as [[cfgURL cfgToken] log1].
  all: repeat match goal with
         | |- context [String.eqb ?x ""] => destruct (String.eqb_spec x "")
         end.
  all: intros [= <- <-] || (intros H; discriminate H) || idtac.
  all: simpl; try done.
Qed.

Lemma ResolveAuth_priority_witness :
  ResolveAuth (exHost exEnv) "" "" ["/nowhere"] []
  = (Ok (ResolvedAuth.mk "https://home.example.com" "env-token"),
     ["/nowhere/.config/fleet-plan.json"; "/home/u/.config/fleet-plan.json"])
  /\ orElse "" (exEnv EnvToken) = "env-token".
Proof.
  assert (H : ResolveAuth (exHost exEnv) "" "" ["/nowhere"] []
              = (Ok (ResolvedAuth.mk "https://home.example.com" "env-token"),
                 ["/nowhere/.config/fleet-plan.json"; "/home/u/.config/fleet-plan.json"]))
    by reflexivity.
  split; [exact H|].
  destruct (ResolveAuth_priority _ _ _ _ _ _ _ H) as (_ & _ & _ & Ht).
  symmetry. by apply Ht.
Defined.

(** X24: a configuration file of the repository that resolves to a URL or
    to a token hides the one of the home directory, which is not read:
    what the repository's file leaves empty is not taken from the home
    directory, and [ResolveAuth] fails when it is needed. *)
Theorem repo_config_hides_home_config (h : host.t) (flagURL flagToken root : string)
    (rest log : list string) (u t : string) :
  let url := orElse flagURL (host.Getenv h EnvURL) in
  let token := orElse flagToken (host.Getenv h EnvToken) in
  url = "" \/ token = "" ->
  root <> "" ->
  resolve (loadConfigFile h root log).1 = (u, t) ->
  u <> "" \/ t <> "" ->
  ResolveAuth h flagURL flagToken (root :: rest) log
  = (if String.eqb (orElse url u) "" then Err urlRequired
     else if String.eqb (orElse token t) "" then Err tokenRequired
     else Ok (ResolvedAuth.mk (orElse url u) (orElse token t)),
     log ++ [host.Join h root ConfigRelPath]).
Proof.
  intros url token Hgap Hroot Hres Hut.
  assert (Hfind : findConfigAuth h (root :: rest) log
                  = ((u, t), log ++ [host.Join h root ConfigRelPath])).
  { unfold findConfigAuth, strNe. destruct (String.eqb_spec root "") as [|_]; [done|].
    simpl. unfold mbind, IO_bind. simpl in *. rewrite Hres. unfold strNe.
    destruct (String.eqb_spec u "") as [->|_], (String.eqb_spec t "") as [->|_];
      try done.
    by destruct Hut. }
  unfold ResolveAuth. fold (orElse flagURL (host.Getenv h EnvURL)).
  fold (orElse flagToken (host.Getenv h EnvToken)). fold url token.
  assert (Hor : String.eqb url "" || String.eqb token "" = true).
  { destruct Hgap as [-> | ->]; [done|]. by rewrite orb_true_r. }
  rewrite Hor. unfold mbind, IO_bind at 1. unfold mbind, IO_bind at 1.
  rewrite Hfind. unfold mret, IO_ret. fold (orElse url u). fold (orElse token t).
  destruct (String.eqb (orElse url u) ""); [done|].
  by destruct (String.eqb (orElse token t) "").
Qed.

Lemma repo_config_hides_home_config_witness :
  ResolveAuth (exHost noEnv) "" "" ["/repo"] []
  = (Err tokenRequired, ["/repo/.config/fleet-plan.json"])
  /\ ResolveAuth (exHost noEnv) "" "" [] []
     = (Ok (ResolvedAuth.mk "https://home.example.com" "t0k"),
        ["/home/u/.config/fleet-plan.json"]).
Proof.
  split; [|reflexivity].
  apply (repo_config_hides_home_config (exHost noEnv) "" "" "/repo" [] []
           "https://repo.example.com" "").
  - by left.
  - done.
  - reflexivity.
  - by left.
Defined.
(** * Snippets of the terminal output *)

Module OutputFacts.
Import output.

Lemma len_l2s l : len (l2s l) = Z.of_nat (length l).
Proof. unfold len. by rewrite <- length_s2l, s2l_l2s. Qed.

Lemma len_app a b : len (a +:+ b) = (len a + len b)%Z.
Proof. unfold len. rewrite <- !length_s2l, s2l_app, length_app. lia. Qed.

Lemma slice_Some s lo hi :
  (0 <= lo <= hi)%Z -> (hi <= len s)%Z ->
  exists chunk, slice s lo hi = Some chunk /\ len chunk = (hi - lo)%Z
                /\ s2l chunk = take (Z.to_nat (hi - lo)) (drop (Z.to_nat lo) (s2l s)).
Proof.
  intros [H1 H2] H3. unfold slice.
  destruct (Z.leb_spec 0 lo); [|lia]. destruct (Z.leb_spec lo hi); [|lia].
  destruct (Z.leb_spec hi (len s)); [|lia]. simpl. eexists. split; [done|].
  rewrite len_l2s, s2l_l2s, length_take, length_drop, length_s2l.
  unfold len in *. split; [lia|done].
Qed.

Lemma firstDiff_le old : forall new,
  firstDiff old new <= length old /\ firstDiff old new <= length new.
Proof.
  induction old as [|a old IH]; intros [|b new]; simpl; try lia.
  destruct (Ascii.eqb a b); [|lia]. destruct (IH new). lia.
Qed.

Lemma firstDiff_differs old : forall new,
  firstDiff old new < length old -> firstDiff old new < length new ->
  old !! firstDiff old new <> new !! firstDiff old new.
Proof.
  induction old as [|a old IH]; intros [|b new]; simpl; try lia.
  destruct (Ascii.eqb_spec a b) as [->|Hab].
  - intros H1 H2. simpl. apply IH; lia.
  - simpl. congruence.
Qed.

Lemma windowStart_range old new maxLen :
  (0 <= windowStart old new maxLen)%Z
  /\ (windowStart old new maxLen <= len old)%Z
  /\ (windowStart old new maxLen <= len new)%Z.
Proof.
  unfold windowStart. destruct (firstDiff_le (s2l old) (s2l new)) as [H1 H2].
  rewrite !length_s2l in *. unfold len.
  set (d := firstDiff _ _) in *.
  set (cb := if (_ <? 4)%Z then _ else _).
  assert (4 <= cb)%Z.
  { subst cb. destruct (Z.ltb_spec (maxLen `quot` 4) 4); lia. }
  destruct (Z.ltb_spec (Z.of_nat d - cb) 0); lia.
Qed.

Lemma extract_long M start s :
  (8 <= M)%Z -> (0 <= start <= len s)%Z -> (M < len s)%Z ->
  let pre := ellipsis (0 <? start)%Z in
  let suf := ellipsis (start + M <? len s)%Z in
  let k := Z.min (Z.min M (len s - start)) (Z.max 4 (M - len pre - len suf)) in
  extract M start s
  = Some (pre +:+ l2s (take (Z.to_nat k) (drop (Z.to_nat start) (s2l s))) +:+ suf).
Proof.
  intros HM Hs Hl pre suf k. unfold extract.
  destruct (Z.leb_spec (len s) M); [lia|].
  set (e := if (len s <? start + M)%Z then len s else (start + M)%Z).
  assert (He : e = Z.min (start + M) (len s)).
  { subst e. destruct (Z.ltb_spec (len s) (start + M)); lia. }
  destruct (slice_Some s start e) as (chunk & -> & Hlen & Hchunk); [lia|lia|].
  cbn [mbind option_bind]. fold (ellipsis (0 <? start)%Z). fold pre.
  assert (Hsuf : (e <? len s)%Z = (start + M <? len s)%Z).
  { destruct (Z.ltb_spec e (len s)), (Z.ltb_spec (start + M) (len s)); lia. }
  rewrite Hsuf. fold (ellipsis (start + M <? len s)%Z). fold suf.
  replace (if (start + M <? len s)%Z then "..." else suf) with suf
    by (subst suf; by destruct (start + M <? len s)%Z).
  set (avail := if (_ <? 4)%Z then 4%Z else _).
  assert (Ha : avail = Z.max 4 (M - len pre - len suf)).
  { subst avail. destruct (Z.ltb_spec (M - len pre - len suf) 4); lia. }
  assert (Hchunk' : chunk = l2s (take (Z.to_nat (e - start)) (drop (Z.to_nat start) (s2l s)))).
  { by rewrite <- Hchunk, l2s_s2l. }
  destruct (Z.ltb_spec avail (len chunk)) as [Hlt|Hge].
  - destruct (slice_Some chunk 0 avail) as (c2 & -> & _ & Hc2); [lia|lia|].
    cbn [mbind option_bind]. do 3 f_equal.
    rewrite <- (l2s_s2l c2), Hc2, Hchunk. f_equal.
    change (Z.to_nat 0) with 0. rewrite drop_0, take_take. f_equal. lia.
  - do 3 f_equal. rewrite Hchunk'. do 2 f_equal. lia.
Qed.

Lemma len_ellipsis b : len (ellipsis b) = if b then 3%Z else 0%Z.
Proof. by destruct b. Qed.

Lemma len_window s start k :
  (0 <= start)%Z -> (0 <= k <= len s - start)%Z ->
  len (l2s (take (Z.to_nat k) (drop (Z.to_nat start) (s2l s)))) = k.
Proof.
  intros H1 H2. rewrite len_l2s, length_take, length_drop, length_s2l.
  unfold len in *. lia.
Qed.

End OutputFacts.

Import output.

(** X25: [truncateToFit] never slices out of range, and what it returns
    fits: it has at most [maxLen] bytes, or 4 when [maxLen] is less.  A
    text that fits is returned as it is; a longer one is cut to its first
    [maxLen - 3] bytes, followed by an ellipsis, and fills [maxLen]. *)
Theorem truncateToFit_fits (s : string) (maxLen : Z) :
  let m := Z.max maxLen 4 in
  exists r, truncateToFit s maxLen = Some r
    /\ (len r <= m)%Z
    /\ ((len s <= m)%Z -> r = s)
    /\ ((m < len s)%Z ->
        r = l2s (take (Z.to_nat (m - 3)) (s2l s)) +:+ "..." /\ len r = m).
Proof.
  intros m. unfold truncateToFit.
  replace (if (maxLen <? 4)%Z then 4%Z else maxLen) with m
    by (subst m; destruct (Z.ltb_spec maxLen 4); lia).
  assert (4 <= m)%Z by lia.
  destruct (Z.leb_spec (len s) m) as [Hle|Hgt].
  - exists s. split; [done|]. split; [done|]. split; [done|lia].
  - destruct (OutputFacts.slice_Some s 0 (m - 3)) as (chunk & -> & Hlen & Hchunk);
      [lia|lia|].
    exists (chunk +:+ "..."). split; [done|].
    rewrite OutputFacts.len_app, Hlen. change (len "...") with 3%Z.
    split; [lia|]. split; [lia|]. intros _. split; [|lia].
    f_equal. rewrite <- (l2s_s2l chunk), Hchunk. f_equal.
    change (Z.to_nat 0) with 0. rewrite drop_0. f_equal. lia.
Qed.

(** With [maxLen] 8 the window is too narrow for the context kept before
    the first difference: two texts that differ give the same snippet, of
    10 bytes. *)
Example test_diffContext_narrow :
  diffContext "aaaaaaaaXbbbbbbbbb" "aaaaaaaaYbbbbbbbbb" 8
  = Some ("...aaaa...", "...aaaa...").
Proof. reflexivity. Qed.

(** The cases of [TestTruncateToFit] and the first of [TestDiffContext]. *)
Example test_truncateToFit :
  truncateToFit "hello" 10 = Some "hello"
  /\ truncateToFit "hello" 5 = Some "hello"
  /\ truncateToFit "hello world" 8 = Some "hello..."
  /\ truncateToFit "hello" 2 = Some "h..."
  /\ truncateToFit EmptyString 10 = Some EmptyString.
Proof. by repeat split. Qed.

Example test_diffContext :
  diffContext "hello" "world" 20 = Some ("hello", "world")
  /\ diffContext "SELECT 1 FROM users WHERE uid = 0;" "SELECT 1 FROM users WHERE uid = 1;" 16
     = Some ("...d = 0;", "...d = 1;").
Proof. by split. Qed.

Lemma extract_fits M start s :
  (8 <= M)%Z -> (0 <= start <= len s)%Z ->
  exists r, extract M start s = Some r /\ (len r <= Z.max M 10)%Z
            /\ ((len s <= M)%Z -> r = s).
Proof.
  intros HM Hs. destruct (Z.leb_spec (len s) M) as [Hle|Hgt].
  - exists s. unfold extract. destruct (Z.leb_spec (len s) M); [|lia]. split; [done|].
    split; [lia|done].
  - rewrite OutputFacts.extract_long by lia. eexists. split; [done|]. split; [|lia].
    rewrite !OutputFacts.len_app, OutputFacts.len_window, !OutputFacts.len_ellipsis.
    + destruct (0 <? start)%Z, (start + M <? len s)%Z; lia.
    + lia.
    + rewrite !OutputFacts.len_ellipsis.
      destruct (0 <? start)%Z, (start + M <? len s)%Z; lia.
Qed.

(** X26: [diffContext] never slices out of range.  Two texts of at most
    [maxLen] bytes (8 when [maxLen] is less) are returned as they are, and
    so is the one of the two that is that short; a snippet has at most
    [maxLen] bytes when [maxLen] is 10 or more, and at most 10 bytes
    otherwise. *)
Theorem diffContext_fits (old new : string) (maxLen : Z) :
  let m := Z.max maxLen 8 in
  exists o n, diffContext old new maxLen = Some (o, n)
    /\ (len o <= Z.max maxLen 10)%Z /\ (len n <= Z.max maxLen 10)%Z
    /\ ((len old <= m)%Z -> o = old)
    /\ ((len new <= m)%Z -> n = new).
Proof.
  intros m. unfold diffContext.
  replace (if (maxLen <? 8)%Z then 8%Z else maxLen) with m
    by (subst m; destruct (Z.ltb_spec maxLen 8); lia).
  assert (8 <= m)%Z by lia.
  destruct (Z.leb_spec (len old) m) as [Ho|Ho], (Z.leb_spec (len new) m) as [Hn|Hn];
    cbn [andb].
  { exists old, new. split; [done|]. repeat split; (lia || done). }
  all: destruct (OutputFacts.windowStart_range old new m) as (Hs0 & Hs1 & Hs2).
  all: destruct (extract_fits m (windowStart old new m) old) as (o & -> & Hlo & Hso);
    [lia|lia|].
  all: destruct (extract_fits m (windowStart old new m) new) as (n & -> & Hln & Hsn);
    [lia|lia|].
  all: exists o, n; split; [done|]; repeat split; (lia || done).
Qed.

Lemma firstDiff_whole old : forall new,
  firstDiff old new = length old -> firstDiff old new = length new -> old = new.
Proof.
  induction old as [|a old IH]; intros [|b new]; simpl; try done.
  destruct (Ascii.eqb_spec a b) as [->|]; [|done].
  intros [= H1] [= H2]. f_equal. by apply IH.
Qed.

Lemma windowStart_eq old new m :
  (11 <= m)%Z ->
  exists cb, (4 <= cb <= m - 7)%Z
    /\ windowStart old new m
       = Z.max (Z.of_nat (firstDiff (s2l old) (s2l new)) - cb) 0.
Proof.
  intros Hm. unfold windowStart.
  set (cb := if (_ <? 4)%Z then _ else _). exists cb. split.
  - subst cb. rewrite Z.quot_div_nonneg by lia.
    destruct (Z.ltb_spec (m / 4) 4); [lia|].
    split; [lia|]. assert (m / 4 <= m - 7)%Z; [|lia].
    apply Z.div_le_upper_bound; lia.
  - destruct (Z.ltb_spec (Z.of_nat (firstDiff (s2l old) (s2l new)) - cb) 0); lia.
Qed.

Lemma window_lookup (s : bytes) start k (d : nat) :
  (0 <= start <= Z.of_nat d)%Z -> (Z.of_nat d < start + k)%Z ->
  (take (Z.to_nat k) (drop (Z.to_nat start) s)) !! (d - Z.to_nat start) = s !! d.
Proof.
  intros H1 H2. rewrite lookup_take_lt by lia. rewrite lookup_drop. f_equal. lia.
Qed.

(** X27: with a [maxLen] of 11 or more, the snippets that [diffContext]
    makes of two different texts, both longer than [maxLen], are
    different: the window that is shown holds the first byte at which the
    texts differ, or the end of the one that is a prefix of the other. *)
Theorem diffContext_shows_difference (old new : string) (maxLen : Z) (o n : string) :
  (11 <= maxLen)%Z -> (maxLen < len old)%Z -> (maxLen < len new)%Z ->
  old <> new ->
  diffContext old new maxLen = Some (o, n) ->
  o <> n.
Proof.
  intros Hm Ho Hn Hne. unfold diffContext.
  destruct (Z.ltb_spec maxLen 8); [lia|].
  destruct (Z.leb_spec (len old) maxLen); [lia|]. cbn [andb].
  destruct (OutputFacts.windowStart_range old new maxLen) as (Hs0 & Hs1 & Hs2).
  destruct (windowStart_eq old new maxLen Hm) as (cb & Hcb & Hstart).
  set (start := windowStart old new maxLen) in *.
  rewrite !OutputFacts.extract_long by lia. cbn [mbind option_bind].
  set (pre := ellipsis (0 <? start)%Z).
  set (so := ellipsis (start + maxLen <? len old)%Z).
  set (sn := ellipsis (start + maxLen <? len new)%Z).
  set (ko := Z.min _ _). set (kn := Z.min _ _).
  intros [= <- <-] Heq.
  assert (Hpre : len pre = if (0 <? start)%Z then 3%Z else 0%Z)
    by apply OutputFacts.len_ellipsis.
  assert (Hso : len so = if (start + maxLen <? len old)%Z then 3%Z else 0%Z)
    by apply OutputFacts.len_ellipsis.
  assert (Hsn : len sn = if (start + maxLen <? len new)%Z then 3%Z else 0%Z)
    by apply OutputFacts.len_ellipsis.
  destruct (OutputFacts.firstDiff_le (s2l old) (s2l new)) as [Hd1 Hd2].
  rewrite !length_s2l in Hd1, Hd2.
  set (d := firstDiff (s2l old) (s2l new)) in *.
  assert (Hko : (0 <= ko <= len old - start)%Z) by (subst ko; lia).
  assert (Hkn : (0 <= kn <= len new - start)%Z) by (subst kn; lia).
  destruct (decide (d < String.length old /\ d < String.length new)) as [[Hlo Hln]|Hend].
  - (* the texts differ at the byte [d], which both windows hold *)
    apply (f_equal s2l) in Heq. rewrite !s2l_app, !s2l_l2s in Heq.
    apply app_inv_head in Heq.
    apply (f_equal (fun l => l !! (d - Z.to_nat start))) in Heq.
    assert (Hio : (Z.of_nat d < start + ko)%Z).
    { subst ko. unfold len in *.
      destruct (0 <? start)%Z, (start + maxLen <? Z.of_nat (String.length old))%Z; lia. }
    assert (Hin : (Z.of_nat d < start + kn)%Z).
    { subst kn. unfold len in *.
      destruct (0 <? start)%Z, (start + maxLen <? Z.of_nat (String.length new))%Z; lia. }
    rewrite !lookup_app_l in Heq
      by (rewrite length_take, length_drop, length_s2l; unfold len in *; lia).
    rewrite !window_lookup in Heq by lia.
    apply (OutputFacts.firstDiff_differs (s2l old) (s2l new)); [by rewrite length_s2l..|].
    done.
  - (* one text is a prefix of the other: the snippets differ in length *)
    assert (Hlen : String.length old <> String.length new).
    { intros Hl. apply Hne. rewrite <- (l2s_s2l old), <- (l2s_s2l new). f_equal.
      apply firstDiff_whole; rewrite length_s2l; fold d; lia. }
    apply (f_equal len) in Heq.
    rewrite !OutputFacts.len_app, !OutputFacts.len_window in Heq by lia.
    subst ko kn. rewrite Hpre, Hso, Hsn in Heq. unfold len in *.
    destruct (Z.ltb_spec 0 start),
      (Z.ltb_spec (start + maxLen) (Z.of_nat (String.length old))),
      (Z.ltb_spec (start + maxLen) (Z.of_nat (String.length new))); lia.
Qed.

Lemma diffContext_shows_difference_witness :
  diffContext "SELECT 1 FROM users WHERE uid = 0;" "SELECT 1 FROM users WHERE uid = 1;" 16
  = Some ("...d = 0;", "...d = 1;")
  /\ "...d = 0;" <> "...d = 1;".
Proof.
  assert (H : diffContext "SELECT 1 FROM users WHERE uid = 0;"
                "SELECT 1 FROM users WHERE uid = 1;" 16
              = Some ("...d = 0;", "...d = 1;")) by reflexivity.
  split; [exact H|].
  assert (H1 : (11 <= 16)%Z) by lia.
  assert (H2 : (16 < len "SELECT 1 FROM users WHERE uid = 0;")%Z) by (by vm_compute).
  assert (H3 : (16 < len "SELECT 1 FROM users WHERE uid = 1;")%Z) by (by vm_compute).
  assert (H4 : "SELECT 1 FROM users WHERE uid = 0;" <> "SELECT 1 FROM users WHERE uid = 1;")
    by done.
  exact (diffContext_shows_difference _ _ 16 _ _ H1 H2 H3 H4 H).
Defined.
(** * The paginated requests of the API client *)

Module ClientFacts.
Import client.

(** The loop stops at the first page [k] that fails or that asks for no
    further page, or at the page [maxPage]; the fuel is not used up. *)
Lemma fetchPages_stops {R A : Type} (fetch : nat -> result R) (items : R -> list A)
    (more : R -> bool) (maxPage k : nat) :
  k <= maxPage ->
  (forall p, p < k -> exists resp, fetch p = Ok resp /\ more resp = true) ->
  (k = maxPage \/ forall resp, fetch k = Ok resp -> more resp = false) ->
  forall n fuel all, n <= k -> k - n < fuel ->
    fetchPages fetch items more maxPage fuel n all
    = match fetch k with
      | Err msg => Err msg
      | Ok _ =>
          Ok (all ++ flat_map (fun page => match fetch page with
                                           | Ok resp => items resp
                                           | Err _ => []
                                           end) (seq n (S k - n)))
      end.
Proof.
  intros Hk Hfull Hstop n. remember (k - n) as m eqn:Em. revert n Em.
  induction m as [|m IH]; intros n Em fuel all Hn Hfuel.
  - assert (n = k) as -> by lia. destruct fuel as [|fuel]; [lia|]. simpl.
    replace (S k - k) with 1 by lia. simpl.
    destruct (fetch k) as [resp|msg] eqn:Ek; [|done]. rewrite app_nil_r.
    destruct (more resp) eqn:Em'; simpl; [|done].
    destruct Hstop as [->|Hstop]; [|by rewrite (Hstop resp) in Em'].
    destruct (Nat.ltb_spec maxPage (S maxPage)); [done|lia].
  - destruct fuel as [|fuel]; [lia|]. simpl.
    destruct (Hfull n) as (resp & Hn' & Hmore); [lia|]. rewrite Hn', Hmore. simpl.
    destruct (Nat.ltb_spec maxPage (S n)); [lia|].
    rewrite (IH (S n)) by (lia || done).
    destruct (fetch k); [|done]. f_equal.
    replace (S k - n) with (S (S k - S n)) by lia. simpl. rewrite Hn'.
    by rewrite <- app_assoc.
Qed.

End ClientFacts.

Import client.

Lemma wrapError_Ok {R : Type} (context : string) (r : result R) (resp : R) :
  wrapError context r = Ok resp <-> r = Ok resp.
Proof. destruct r; simpl; split; congruence. Qed.

(** X28: [GetPolicies] asks for the pages 0, 1, 2, ... of 250 policies
    and stops at the first page [k] that fails or that holds fewer than
    250 policies, and at the page 100 in any case.  If the page [k] failed
    the result is its error, with the team in front, and no policy; if
    not, the result is the policies of the pages 0 to [k], in order.  So
    no page after the page 100 is asked for, and what the server has
    beyond it is left out without an error. *)
Theorem GetPolicies_pages (c : Transport.t) (teamID : N) (k : nat) :
  let get page := Transport.getPolicies c (policiesPath teamID) (policiesQuery page) in
  k <= 100 ->
  (forall p, p < k -> exists ps, get p = Ok ps /\ 250 <= length ps) ->
  (k = 100 \/ forall ps, get k = Ok ps -> length ps < 250) ->
  GetPolicies c teamID
  = match get k with
    | Err msg => Err ("fetching policies (team " +:+ sprintUint teamID +:+ "): " +:+ msg)
    | Ok _ => Ok (pagesUpTo get id k)
    end.
Proof.
  intros get Hk Hfull Hstop. unfold GetPolicies.
  rewrite (ClientFacts.fetchPages_stops _ _ _ 100 k); try lia.
  - unfold policiesPage. fold (get k). destruct (get k) as [ps|msg] eqn:Ek;
      cbn [wrapError].
    + f_equal. unfold pagesUpTo. rewrite Nat.sub_0_r, app_nil_l.
      apply flat_map_ext. intros p. fold (get p). by destruct (get p).
    + f_equal. by rewrite !string_app_assoc.
  - intros p Hp. destruct (Hfull p Hp) as (ps & Hps & Hlen). exists ps.
    unfold policiesPage. fold (get p). rewrite Hps. split; [done|].
    destruct (Nat.ltb_spec (length ps) 250); [lia|done].
  - destruct Hstop as [->|Hstop]; [by left|right]. intros ps Hps.
    apply wrapError_Ok in Hps. apply Hstop in Hps.
    destruct (Nat.ltb_spec (length ps) 250); [done|lia].
Qed.

Lemma GetPolicies_pages_witness :
  GetPolicies (exServer 600) 3 = Ok (exPolicy <$> seq 0 600).
Proof.
  rewrite (GetPolicies_pages (exServer 600) 3 2).
  - by vm_compute.
  - lia.
  - intros p Hp. destruct p as [|[|p]]; [| |lia].
    + exists (exPolicy <$> seq 0 250). split; [by vm_compute|].
      apply Nat.leb_le. by vm_compute.
    + exists (exPolicy <$> seq 250 250). split; [by vm_compute|].
      apply Nat.leb_le. by vm_compute.
  - right. intros ps Hps.
    assert (ps = exPolicy <$> seq 500 100) as ->.
    { assert (H : Transport.getPolicies (exServer 600) (policiesPath 3) (policiesQuery 2)
                  = Ok (exPolicy <$> seq 500 100)) by (by vm_compute).
      rewrite H in Hps. by injection Hps. }
    apply Nat.ltb_lt. by vm_compute.
Defined.

(** X29: [GetSoftware] asks for the pages 0, 1, 2, ... and stops at the
    first page [k] that fails, that does not announce a next page or that
    is empty, and at the page 400 in any case.  If the page [k] failed the
    result is its error, with the team in front, and no title; if not,
    the result is the titles of the pages 0 to [k], in order.  An empty
    page ends the loop even when it announces a next page. *)
Theorem GetSoftware_pages (c : Transport.t) (teamID : N) (k : nat) :
  let get page :=
    Transport.getSoftware c "/api/v1/fleet/software/titles" (softwareQuery teamID page) in
  k <= 400 ->
  (forall p, p < k ->
     exists resp, get p = Ok resp /\ softwareResponse.HasNextResults resp = true
                  /\ softwareResponse.SoftwareTitles resp <> []) ->
  (k = 400 \/ forall resp, get k = Ok resp ->
                softwareResponse.HasNextResults resp = false
                \/ softwareResponse.SoftwareTitles resp = []) ->
  GetSoftware c teamID
  = match get k with
    | Err msg => Err ("fetching software (team " +:+ sprintUint teamID +:+ "): " +:+ msg)
    | Ok _ => Ok (pagesUpTo get softwareResponse.SoftwareTitles k)
    end.
Proof.
  intros get Hk Hfull Hstop. unfold GetSoftware.
  rewrite (ClientFacts.fetchPages_stops _ _ _ 400 k); try lia.
  - unfold softwarePage. fold (get k). destruct (get k) as [resp|msg] eqn:Ek;
      cbn [wrapError].
    + f_equal. unfold pagesUpTo. rewrite Nat.sub_0_r, app_nil_l.
      apply flat_map_ext. intros p. fold (get p). by destruct (get p).
    + f_equal. by rewrite !string_app_assoc.
  - intros p Hp. destruct (Hfull p Hp) as (resp & Hresp & Hnext & Hne). exists resp.
    unfold softwarePage. fold (get p). rewrite Hresp. split; [done|].
    rewrite Hnext. by destruct (softwareResponse.SoftwareTitles resp).
  - destruct Hstop as [->|Hstop]; [by left|right]. intros resp Hresp.
    apply wrapError_Ok in Hresp. destruct (Hstop resp Hresp) as [-> | ->]; [done|].
    apply andb_false_r.
Qed.

Lemma GetSoftware_pages_witness :
  GetSoftware (exServer 0) 0 = Ok [exTitle "Zoom"].
Proof.
  rewrite (GetSoftware_pages (exServer 0) 0 1).
  - by vm_compute.
  - lia.
  - intros p Hp. destruct p as [|p]; [|lia].
    exists (softwareResponse.mk [exTitle "Zoom"] true). split; [by vm_compute|]. by split.
  - right. intros resp Hresp.
    assert (resp = softwareResponse.mk [] true) as ->.
    { assert (H : Transport.getSoftware (exServer 0) "/api/v1/fleet/software/titles"
                    (softwareQuery 0 1)
                  = Ok (softwareResponse.mk [] true)) by (by vm_compute).
      rewrite H in Hresp. by injection Hresp. }
    by right.
Defined.

(** * Placeholders in the global configuration, key by key (claim C9) *)

(** The three sections have different names. *)
Lemma proposedSections_functional (g : parser.ParsedGlobal.t) section (m m' : cfgmap) :
  (section, Some m) ∈ proposedSections g -> (section, Some m') ∈ proposedSections g ->
  m = m'.
Proof.
  unfold proposedSections. rewrite !elem_of_cons, !elem_of_nil.
  intros [H1|[H1|[H1|[]]]] [H2|[H2|[H2|[]]]]; congruence.
Qed.

(** In a tree with plain keys a flattened key has one value. *)
Lemma flatten_functional (m : cfgmap) (key v1 v2 : string) :
  plainKeys (AMap m) = true ->
  (key, v1) ∈ flattenMap m "" -> (key, v2) ∈ flattenMap m "" -> v1 = v2.
Proof.
  intros Hp H1 H2.
  assert (Hval : forall val, (key, val) ∈ flattenMap m "" ->
                             getNestedValue noMapPrinter m key = val).
  { intros val Hin. unfold flattenMap in Hin.
    apply elem_of_flat_map in Hin as ([k v] & Hkv & Hin). simpl in Hin.
    apply plainKeys_map in Hp as [Hn Hall]. rewrite Forall_forall in Hall.
    destruct (Hall _ Hkv) as [Hk Hv]. simpl in Hk, Hv.
    destruct (plainKey_spec k Hk) as [Hne _].
    destruct (flattenAny_lookup noMapPrinter v k key val Hv Hne Hin)
      as (path & Hpath & Hleaf).
    unfold getNestedValue. rewrite Hpath, (splitDot_key k Hk). simpl app.
    by eapply getNestedParts_step. }
  by rewrite <- (Hval v1 H1), <- (Hval v2 H2).
Qed.

Lemma diffConfig_records sprintMap apiConfig (proposed : parser.ParsedGlobal.t) :
  Forall (fun c => containsEnvVar (CfgNew c) = false /\ fromLeaf proposed c)
    (diffConfig sprintMap apiConfig proposed).
Proof. apply diffSection_records; [done | constructor]. Qed.

(** The key [a.b] of the proposed [org_settings] holds a placeholder, and
    the diff has a record for the key [a.b] all the same: the one of the
    leaf [b] of the map [a], which flattens to the same key. *)
Lemma dotted_key_counterexample :
  match parser.ParsedGlobal.OrgSettings exDottedGlobal with
  | Some m => flattenMap m "" = [("a.b", "$SECRET"); ("a.b", "v")]
  | None => False
  end
  /\ containsEnvVar "$SECRET" = true
  /\ diffConfig noMapPrinter exDottedApiConfig exDottedGlobal
     = [mkConfigChange "org_settings" "a.b" "old" "v"].
Proof. by repeat split. Qed.

(** C9, amended: every record of the configuration diff comes from a leaf
    of a proposed section and carries that leaf's value, and no record
    carries a value that contains the placeholder marker [$], whatever the
    remote value is.  For a leaf key of a proposed section whose value
    contains the marker, the diff has no record of that section and key,
    provided that the maps of the section have plain keys (non-empty,
    without a dot), or that every leaf that flattens to this key contains
    the marker. *)
Theorem placeholder_leaves_skipped
    (sprintMap : cfgmap -> string) (apiConfig : option cfgmap)
    (proposed : parser.ParsedGlobal.t) :
  Forall (fun c => containsEnvVar (CfgNew c) = false /\ fromLeaf proposed c)
    (diffConfig sprintMap apiConfig proposed)
  /\ forall (section : string) (m : cfgmap) (key val : string),
       (section, Some m) ∈ proposedSections proposed ->
       (key, val) ∈ flattenMap m "" ->
       containsEnvVar val = true ->
       plainKeys (AMap m) = true
       \/ (forall val', (key, val') ∈ flattenMap m "" -> containsEnvVar val' = true) ->
       Forall (fun c => ~ (CfgSection c = section /\ Key c = key))
         (diffConfig sprintMap apiConfig proposed).
Proof.
  pose proof (diffConfig_records sprintMap apiConfig proposed) as Hrec.
  split; [done|]. intros section m key val Hsec Hleaf Hmark Hkeys.
  eapply Forall_impl; [exact Hrec|].
  intros c [Hno (m' & Hsec' & Hleaf')] [Hs Hk]. rewrite Hs in Hsec'. rewrite Hk in Hleaf'.
  assert (m' = m) as -> by (by eapply proposedSections_functional).
  destruct Hkeys as [Hplain|Hall].
  - assert (CfgNew c = val) as Hv by (by eapply flatten_functional).
    congruence.
  - apply Hall in Hleaf'. congruence.
Qed.

(** The placeholder leaf [server_settings.server_url] yields no record
    although the remote URL differs; the only record is the one of
    [org_info.org_name]. *)
Lemma placeholder_leaves_skipped_witness :
  diffConfig noMapPrinter exApiConfig exProposedGlobal
    = [mkConfigChange "org_settings" "org_info.org_name" "Old" "Acme"]
  /\ Forall (fun c => containsEnvVar (CfgNew c) = false /\ fromLeaf exProposedGlobal c)
       (diffConfig noMapPrinter exApiConfig exProposedGlobal)
  /\ Forall (fun c => ~ (CfgSection c = "org_settings"
                         /\ Key c = "server_settings.server_url"))
       (diffConfig noMapPrinter exApiConfig exProposedGlobal).
Proof.
  split; [reflexivity|].
  destruct (placeholder_leaves_skipped noMapPrinter exApiConfig exProposedGlobal)
    as [Hrec Hkey].
  split; [exact Hrec|].
  apply (Hkey "org_settings"
           [("org_info", AMap [("org_name", AVal "Acme")]);
            ("server_settings", AMap [("server_url", AVal "$FLEET_URL")])]
           "server_settings.server_url" "$FLEET_URL").
  - apply list_elem_of_here.
  - vm_compute. apply list_elem_of_further, list_elem_of_here.
  - reflexivity.
  - left. by vm_compute.
Defined.
